(** * GIPVA-PVI: partitioned variational inference over BNN weights

    A shallow embedding of the inference core of the repository
    (src/gi/gibnn.py, src/gi/server.py,
    src/experiments/utils/optimization.py and the minibatch loop of
    src/experiments/pvi_classification.py / mfvi_regression.py) together
    with the properties its specification states about it.

    Python values are modelled as follows.
    - [int] is [Z]; [%] is [Z.modulo] (both take the sign of the divisor).
    - [dict] is an insertion-ordered association list with unique keys
      ([PyDict.dict]); assignment to an existing key keeps its position,
      assignment to a new key appends.
    - exceptions are the [Raise] branch of [Result].
    - objects mutated in place ([self._cache], the server's counters) are
      threaded explicitly: a method takes the object state and returns the
      new one.
    - the tensor / distribution library ([lab], [torch], [gi.distributions])
      is not part of the sources; it is an interface ([Numeric]) whose
      operations the code calls, instantiated by a free term model ([Sym])
      when a statement needs concrete values. *)

From Stdlib Require Import List String ZArith Lia Bool Arith QArith.
Import ListNotations.
Local Open Scope string_scope.
Local Open Scope list_scope.
Local Open Scope Z_scope.

Set Implicit Arguments.

(* ================================================================== *)
(** * Part I: the program *)
(* ================================================================== *)

(** ** Python exceptions *)

Inductive PyError : Type :=
| KeyError (k : string)
| IndexError
| NameError (v : string)
| AssertionError
| NotImplementedError
| TypeError
| AttributeError
| ZeroDivisionError
| RuntimeError (msg : string).

Inductive Result (A : Type) : Type :=
| Ok (a : A)
| Raise (e : PyError).

Arguments Ok {A} a.
Arguments Raise {A} e.

Definition bind {A B : Type} (r : Result A) (f : A -> Result B) : Result B :=
  match r with
  | Ok a => f a
  | Raise e => Raise e
  end.

Notation "x <- r ;; k" := (bind r (fun x => k))
  (at level 61, r at next level, right associativity).
Notation "' p <- r ;; k" := (bind r (fun x => match x with p => k end))
  (at level 61, p pattern, r at next level, right associativity).

Definition returns {A : Type} (r : Result A) : Prop := exists a, r = Ok a.

(** [for x in xs: body], where the body may raise. *)
Fixpoint for_each {A St : Type} (body : St -> A -> Result St) (xs : list A) (st : St)
  : Result St :=
  match xs with
  | [] => Ok st
  | x :: xs' => st' <- body st x ;; for_each body xs' st'
  end.

(** The one-element lists [[c]] a scheduler returns, one per call. *)
Definition singletons {A : Type} (l : list A) : list (list A) :=
  map (fun c => [c]) l.

(** [enumerate(xs)] *)
Fixpoint enumerate_from {A : Type} (i : Z) (xs : list A) : list (Z * A) :=
  match xs with
  | [] => []
  | x :: xs' => (i, x) :: enumerate_from (i + 1) xs'
  end.

Definition enumerate {A : Type} (xs : list A) : list (Z * A) := enumerate_from 0 xs.

(** [xs[i]] on a Python list: negative indices count from the end. *)
Definition list_getitem {A : Type} (xs : list A) (i : Z) : Result A :=
  let n := Z.of_nat (List.length xs) in
  let j := if i <? 0 then i + n else i in
  if (j <? 0) || (n <=? j) then Raise IndexError
  else match nth_error xs (Z.to_nat j) with
       | Some x => Ok x
       | None => Raise IndexError
       end.

(** ** Insertion-ordered dictionaries *)

Module PyDict.

Definition dict (V : Type) : Type := list (string * V).

Definition empty {V : Type} : dict V := [].

Fixpoint get {V : Type} (d : dict V) (k : string) : option V :=
  match d with
  | [] => None
  | (k', v) :: d' => if String.eqb k' k then Some v else get d' k
  end.

(** [d[k] = v] *)
Fixpoint set {V : Type} (k : string) (v : V) (d : dict V) : dict V :=
  match d with
  | [] => [(k, v)]
  | (k', v') :: d' =>
      if String.eqb k' k then (k, v) :: d' else (k', v') :: set k v d'
  end.

(** [d[k]] *)
Definition getitem {V : Type} (d : dict V) (k : string) : Result V :=
  match get d k with
  | Some v => Ok v
  | None => Raise (KeyError k)
  end.

(** [k in d] *)
Definition contains {V : Type} (d : dict V) (k : string) : bool :=
  match get d k with
  | Some _ => true
  | None => false
  end.

Definition keys {V : Type} (d : dict V) : list string := map fst d.
Definition values {V : Type} (d : dict V) : list V := map snd d.
Definition items {V : Type} (d : dict V) : list (string * V) := d.
Definition len {V : Type} (d : dict V) : Z := Z.of_nat (List.length d).

(** The invariant of a Python dictionary: no key occurs twice. *)
Definition wf {V : Type} (d : dict V) : Prop := NoDup (keys d).

(** [d[l][c]] on a dictionary of dictionaries. *)
Definition get2 {V : Type} (d : dict (dict V)) (l c : string) : option V :=
  match get d l with
  | Some dl => get dl c
  | None => None
  end.

End PyDict.

Import PyDict.

(** ** The minibatch window of the client-local loop
    (pvi_classification.py l.160 and l.165, mfvi_regression.py l.150 and
    l.156) *)

Module Minibatch.

(** [B.range(n)]: the integers [0 .. n-1]; a negative bound is refused
    by the tensor library. *)
Definition B_range (n : Z) : Result (list Z) :=
  if n <? 0 then Raise (RuntimeError "range")
  else Ok (map Z.of_nat (seq 0 (Z.to_nat n))).

(** [batch_size = min(client_data_size, min(args.batch_size, N))] *)
Definition batch_size (client_data_size args_batch_size N : Z) : Z :=
  Z.min client_data_size (Z.min args_batch_size N).

(** [inds = (B.range(batch_size) + batch_size * client_iter) % client_data_size];
    the remainder of an integer tensor by zero is refused. *)
Definition inds (batch_size client_iter client_data_size : Z) : Result (list Z) :=
  r <- B_range batch_size ;;
  let shifted := map (fun j => j + batch_size * client_iter) r in
  if client_data_size =? 0 then Raise (RuntimeError "ZeroDivisionError")
  else Ok (map (fun j => j mod client_data_size) shifted).

End Minibatch.

(** ** The server schedulers (src/gi/server.py) *)

Module Server.

Section Schedulers.

Variables Client Model Metric : Type.

(** [class Server]: the fields set by [Server.__init__]. *)
Record Server : Type := mkServer {
  clients : dict Client;
  model : Model;
  log : dict (list Metric);
  communications : Z;
  max_iters : option Z;
  curr_iter : Z;
  optimized_clients : list string;
  name : option string
}.

(** [Server.__init__] *)
Definition Server_init (cs : dict Client) (m : Model) : Server :=
  {| clients := cs; model := m; log := empty; communications := 0;
     max_iters := None; curr_iter := 0; optimized_clients := [];
     name := None |}.

Definition set_communications (s : Server) (c : Z) : Server :=
  {| clients := clients s; model := model s; log := log s;
     communications := c; max_iters := max_iters s;
     curr_iter := curr_iter s; optimized_clients := optimized_clients s;
     name := name s |}.

Definition set_name_max_iters (s : Server) (n : string) (mi : Z) : Server :=
  {| clients := clients s; model := model s; log := log s;
     communications := communications s; max_iters := Some mi;
     curr_iter := curr_iter s; optimized_clients := optimized_clients s;
     name := Some n |}.

(** *** [class SynchronousServer(Server)] *)

Definition SynchronousServer_init (cs : dict Client) (m : Model) (iters : Z)
  : Server :=
  set_name_max_iters (Server_init cs m) "synchronous" iters.

(** [SynchronousServer.__next__] *)
Definition SynchronousServer_next (s : Server) : list Client * Server :=
  let s' := set_communications s
              (communications s + 2 * Z.of_nat (List.length (keys (clients s)))) in
  (values (clients s'), s').

(** *** [class SequentialServer(Server)] *)

Record SequentialServer : Type := mkSequential {
  base : Server;
  _idx : Z
}.

Definition SequentialServer_init (cs : dict Client) (m : Model) (iters : Z)
  : SequentialServer :=
  let s := Server_init cs m in
  {| base := set_name_max_iters s "sequential" (iters * len (clients s));
     _idx := 0 |}.

(** [SequentialServer.current_client]:
    [self.clients[list(self.clients.keys())[self._idx]]] *)
Definition current_client (s : SequentialServer) : Result Client :=
  k <- list_getitem (keys (clients (base s))) (_idx s) ;;
  getitem (clients (base s)) k.

(** [SequentialServer.__next__]; the remainder by an empty client
    dictionary is never reached, [current_client] raises first. *)
Definition SequentialServer_next (s : SequentialServer)
  : Result (list Client * SequentialServer) :=
  client <- current_client s ;;
  let n := len (clients (base s)) in
  if n =? 0 then Raise ZeroDivisionError
  else
    let idx' := (_idx s + 1) mod n in
    let b' := set_communications (base s) (communications (base s) + 2) in
    Ok ([client], {| base := b'; _idx := idx' |}).

(** [n] consecutive calls of [next(server)], with what each returned. *)
Fixpoint sequential_rounds (n : nat) (s : SequentialServer)
  : Result (list (list Client) * SequentialServer) :=
  match n with
  | O => Ok ([], s)
  | S n' =>
      '(cs, s1) <- SequentialServer_next s ;;
      '(rest, s2) <- sequential_rounds n' s1 ;;
      Ok (cs :: rest, s2)
  end.

Fixpoint synchronous_rounds (n : nat) (s : Server)
  : list (list Client) * Server :=
  match n with
  | O => ([], s)
  | S n' =>
      let '(cs, s1) := SynchronousServer_next s in
      let '(rest, s2) := synchronous_rounds n' s1 in
      (cs :: rest, s2)
  end.

End Schedulers.

End Server.

(** ** The inducing-point network (src/gi/gibnn.py) *)

Module Gibnn.

(** The numeric library the class calls ([lab] as [B], and the
    distributions of [gi]): tensors, random states, natural-parameter
    normals (priors [p], posteriors [q]) and the clients' pseudo
    observations [t].  None of it is under src/, so the operations are an
    interface; they are taken to be total. *)
Class Numeric : Type := {
  Tensor : Type;
  RandomState : Type;
  NaturalNormal : Type;
  NormalPseudoObservation : Type;
  ndim : Tensor -> Z;                       (* len(x.shape) *)
  shape0 : Tensor -> Z;                     (* x.shape[0] *)
  B_tile : Tensor -> Z -> Tensor;           (* B.tile(x, S, 1, 1) *)
  B_mm_tr_b : Tensor -> Tensor -> Tensor;   (* B.mm(a, b, tr_b=True) *)
  B_sum_last : Tensor -> Tensor;            (* B.sum(x, -1) *)
  index_last0 : Tensor -> Tensor;           (* w[..., 0] *)
  t_call : NormalPseudoObservation -> Tensor -> NaturalNormal;   (* t(z) *)
  nn_mul : NaturalNormal -> NaturalNormal -> NaturalNormal;      (* q * f *)
  nn_sample : NaturalNormal -> RandomState -> RandomState * Tensor; (* q.sample(key) *)
  nn_kl : NaturalNormal -> NaturalNormal -> Tensor               (* q.kl(p) *)
}.

Section GIBNN.

Context {num : Numeric}.

(** One entry of [self._cache]: [{"w": w, "kl": kl_qp}]. *)
Record LayerCache : Type := mkLayer { w : Tensor; kl : Tensor }.

(** The object: [self.nonlinearity] and [self._cache].  [_cache] is
    [None] only if the [cache] setter stores [None]. *)
Record GIBNN : Type := mkGIBNN {
  nonlinearity : Tensor -> Tensor;
  _cache : option (dict LayerCache)
}.

(** [GIBNN.__init__] *)
Definition init (nonlin : Tensor -> Tensor) : GIBNN :=
  {| nonlinearity := nonlin; _cache := Some empty |}.

(** [cache.setter] *)
Definition set_cache (self : GIBNN) (c : option (dict LayerCache)) : GIBNN :=
  {| nonlinearity := nonlinearity self; _cache := c |}.

(** The local variables of [sample_posterior] that its loops update.
    [client_name] is the loop variable of the two [for client_name, ...]
    loops; it is unbound until one of them has run an iteration. *)
Record Locals : Type := mkLocals {
  key : RandomState;
  cache : option (dict LayerCache);
  _zs : dict Tensor;
  client_name : option string
}.

(** Lines 20-24: [for client_name, client_z in zs.items()]. *)
Definition tile_body (S : Z) (st : dict Tensor * option string)
    (item : string * Tensor) : Result (dict Tensor * option string) :=
  let '(cn, client_z) := item in
  if ndim client_z =? 2
  then Ok (set cn (B_tile client_z S) (fst st), Some cn)
  else Raise AssertionError.

(** Lines 32-33: [for t in ts[layer_name].values(): q *= t(_zs[client_name])].
    The name [client_name] is read from the enclosing scope. *)
Definition factor_body (zs : dict Tensor) (cn : option string)
    (q : NaturalNormal) (t : NormalPseudoObservation) : Result NaturalNormal :=
  match cn with
  | None => Raise (NameError "client_name")
  | Some n =>
      z <- getitem zs n ;;
      Ok (nn_mul q (t_call t z))
  end.

Definition layer_posterior (zs : dict Tensor) (cn : option string)
    (p : NaturalNormal) (layer_ts : dict NormalPseudoObservation)
    : Result NaturalNormal :=
  for_each (factor_body zs cn) (values layer_ts) p.

(** Lines 51-59: [for client_name, client_z in inducing_inputs.items()],
    where [inducing_inputs] is [_zs] itself; every key is read before it
    is overwritten. *)
Definition forward_body (self : GIBNN) (wl : Tensor) (non_final : bool)
    (st : dict Tensor * option string) (item : string * Tensor)
    : Result (dict Tensor * option string) :=
  let '(cn, client_z) := item in
  let client_z := B_mm_tr_b client_z wl in
  let client_z := if non_final then nonlinearity self client_z else client_z in
  Ok (set cn client_z (fst st), Some cn).

(** Lines 26-59: the body of [for i, (layer_name, p) in enumerate(ps.items())]. *)
Definition layer_body (self : GIBNN) (ps : dict NaturalNormal)
    (ts : dict (dict NormalPseudoObservation))
    (st : Locals) (item : Z * (string * NaturalNormal)) : Result Locals :=
  let '(i, (layer_name, p)) := item in
  let q := p in
  layer_ts <- getitem ts layer_name ;;
  q <- layer_posterior (_zs st) (client_name st) q layer_ts ;;
  let '(key', wl) := nn_sample q (key st) in
  let wl := index_last0 wl in
  let kl_qp := nn_kl q p in
  let kl_qp := B_sum_last kl_qp in
  c <- match cache st with
       | Some c => Ok (set layer_name {| w := wl; kl := kl_qp |} c)
       | None => Raise TypeError
       end ;;
  let inducing_inputs := _zs st in
  '(zs', cn') <- for_each (forward_body self wl (i <? len ps - 1))
                    (items inducing_inputs) (_zs st, client_name st) ;;
  Ok {| key := key'; cache := Some c; _zs := zs'; client_name := cn' |}.

(** [GIBNN.sample_posterior]: returns [(key, self._cache)] and the
    object with its cache overwritten. *)
Definition sample_posterior (self : GIBNN) (key0 : RandomState)
    (ps : dict NaturalNormal) (ts : dict (dict NormalPseudoObservation))
    (zs : dict Tensor) (S : Z)
    : Result (RandomState * option (dict LayerCache) * GIBNN) :=
  '(zs0, cn0) <- for_each (tile_body S) (items zs) (empty, None) ;;
  st <- for_each (layer_body self ps ts) (enumerate (items ps))
          {| key := key0; cache := _cache self; _zs := zs0; client_name := cn0 |} ;;
  Ok (key st, cache st, set_cache self (cache st)).

(** The property [S]: [self._cache['layer0']['w'].shape[0]]. *)
Definition S (self : GIBNN) : Result Z :=
  match _cache self with
  | None => Raise TypeError
  | Some c => l <- getitem c "layer0" ;; Ok (shape0 (w l))
  end.

(** Lines 76-79 of [propagate]: one turn of the loop over the cache. *)
Definition propagate_body (self : GIBNN) (n : Z) (x : Tensor)
    (item : Z * (string * LayerCache)) : Result Tensor :=
  let '(i, (layer_name, layer_dict)) := item in
  let x := B_mm_tr_b x (w layer_dict) in
  Ok (if i <? n - 1 then nonlinearity self x else x).

(** [GIBNN.propagate]; [Ok None] is the [return None] of line 71. *)
Definition propagate (self : GIBNN) (x : Tensor) : Result (option Tensor) :=
  match _cache self with
  | None => Ok None
  | Some c =>
      x <- (if ndim x =? 2
            then s <- S self ;; Ok (B_tile x s)
            else Ok x) ;;
      x <- for_each (propagate_body self (len c)) (enumerate (items c)) x ;;
      Ok (Some x)
  end.

(** *** The same pass as the specification words it

    Step 2 of the composition algorithm: "for every client's entry at
    this layer [...] evaluate the client's Factor at those inducing
    outputs [...] and combine it into the running posterior".  Each
    factor is paired with the inducing inputs stored under the factor's
    own client name. *)
Definition own_factor_body (zs : dict Tensor) (q : NaturalNormal)
    (item : string * NormalPseudoObservation) : Result NaturalNormal :=
  let '(cn, t) := item in
  z <- getitem zs cn ;;
  Ok (nn_mul q (t_call t z)).

Definition layer_posterior_own (zs : dict Tensor) (p : NaturalNormal)
    (layer_ts : dict NormalPseudoObservation) : Result NaturalNormal :=
  for_each (own_factor_body zs) (items layer_ts) p.

Definition layer_body_own (self : GIBNN) (ps : dict NaturalNormal)
    (ts : dict (dict NormalPseudoObservation))
    (st : Locals) (item : Z * (string * NaturalNormal)) : Result Locals :=
  let '(i, (layer_name, p)) := item in
  layer_ts <- getitem ts layer_name ;;
  q <- layer_posterior_own (_zs st) p layer_ts ;;
  let '(key', wl) := nn_sample q (key st) in
  let wl := index_last0 wl in
  let kl_qp := B_sum_last (nn_kl q p) in
  c <- match cache st with
       | Some c => Ok (set layer_name {| w := wl; kl := kl_qp |} c)
       | None => Raise TypeError
       end ;;
  '(zs', cn') <- for_each (forward_body self wl (i <? len ps - 1))
                    (items (_zs st)) (_zs st, client_name st) ;;
  Ok {| key := key'; cache := Some c; _zs := zs'; client_name := cn' |}.

Definition sample_posterior_own (self : GIBNN) (key0 : RandomState)
    (ps : dict NaturalNormal) (ts : dict (dict NormalPseudoObservation))
    (zs : dict Tensor) (S : Z)
    : Result (RandomState * option (dict LayerCache) * GIBNN) :=
  '(zs0, cn0) <- for_each (tile_body S) (items zs) (empty, None) ;;
  st <- for_each (layer_body_own self ps ts) (enumerate (items ps))
          {| key := key0; cache := _cache self; _zs := zs0; client_name := cn0 |} ;;
  Ok (key st, cache st, set_cache self (cache st)).

(** "re-deriving the output by manually chaining the cached weights and
    nonlinearity": matrix product against each transposed weight in
    turn, the nonlinearity after every layer but the last. *)
Fixpoint manual_chain (act : Tensor -> Tensor) (ws : list Tensor) (x : Tensor)
  : Tensor :=
  match ws with
  | [] => x
  | [wl] => B_mm_tr_b x wl
  | wl :: ws' => manual_chain act ws' (act (B_mm_tr_b x wl))
  end.

(** The cached weight samples, in cache order. *)
Definition weights (d : dict LayerCache) : list Tensor := map w (values d).

(** The input as [propagate] feeds it to the first layer: a 2-dimensional
    [x] is tiled to the [S] cached samples. *)
Definition lifted (d : dict LayerCache) (x : Tensor) : Result Tensor :=
  if ndim x =? 2
  then l0 <- getitem d "layer0" ;; Ok (B_tile x (shape0 (w l0)))
  else Ok x.

(** A layer with no factor, or with the factor of the one client whose
    name [client_name] holds. *)
Definition only_client (c : string) (layer_ts : dict NormalPseudoObservation) : Prop :=
  layer_ts = [] \/ exists t, layer_ts = [(c, t)].

(** The state of the loops when [zs] holds the one client [c]. *)
Definition one_client (c : string) (st : Locals) : Prop :=
  client_name st = Some c /\ exists z, _zs st = [(c, z)].

(** What [sample_posterior], the [cache] setter and [propagate] can make
    of a freshly constructed object.  [propagate] changes nothing.  The
    setter (l.95-97) stores whatever it is handed, [None] included;
    [handed] says which values the callers hand to it.  A
    [sample_posterior] that raises half-way leaves a dictionary behind,
    which the setter case covers. *)
Inductive reachable_via (handed : option (dict LayerCache) -> Prop)
  : GIBNN -> Prop :=
| reach_init : forall nonlin, reachable_via handed (init nonlin)
| reach_sample : forall self key0 ps ts zs S k c self',
    reachable_via handed self ->
    sample_posterior self key0 ps ts zs S = Ok (k, c, self') ->
    reachable_via handed self'
| reach_set_cache : forall self c,
    reachable_via handed self -> handed c ->
    reachable_via handed (set_cache self c).

(** Every state of the object: the setter is handed any value. *)
Definition reachable : GIBNN -> Prop := reachable_via (fun _ => True).

(** The states in which the setter has only ever been handed
    dictionaries. *)
Definition reachable_with_dicts : GIBNN -> Prop :=
  reachable_via (fun c => c <> None).

End GIBNN.

End Gibnn.

(** ** A free term model of the numeric library

    Every operation builds the term that names it, so that the value a run
    computes records which operands went into it. *)

Module Sym.

Inductive tensor : Type :=
| TInput (name : string) (rank : Z) (dim0 : Z)
| TTile (x : tensor) (S : Z)
| TMm (x wl : tensor)
| TAct (x : tensor)
| TSumLast (x : tensor)
| TIndexLast0 (x : tensor)
| TSample (q : normal) (k : rstate)
| TKl (q p : normal)
| TSub (a b : tensor)
| TDivInt (a : tensor) (n : Z)
| TMean (a : tensor)
| TEll (out y : tensor)
| TError (out y : tensor)
| TZero
| TAdd (a b : tensor)
with normal : Type :=
| NPrior (name : string)
| NCall (t : string) (z : tensor)
| NMul (q f : normal)
with rstate : Type :=
| RSeed (n : Z)
| RNext (q : normal) (k : rstate).

Fixpoint rank_of (x : tensor) : Z :=
  match x with
  | TInput _ r _ => r
  | TTile _ _ => 3
  | TMm x _ => Z.max 3 (rank_of x)
  | TAct x => rank_of x
  | TSumLast x => rank_of x - 1
  | TIndexLast0 x => rank_of x - 1
  | TSample _ _ => 4
  | TKl _ _ => 2
  | TSub a _ => rank_of a
  | TDivInt a _ => rank_of a
  | TMean _ => 0
  | TEll _ _ => 1
  | TError _ _ => 0
  | TZero => 0
  | TAdd a _ => rank_of a
  end.

Fixpoint dim0_of (x : tensor) : Z :=
  match x with
  | TInput _ _ d => d
  | TTile _ s => s
  | TMm x _ => dim0_of x
  | TAct x => dim0_of x
  | TSumLast x => dim0_of x
  | TIndexLast0 x => dim0_of x
  | TSample q _ => samples_of q
  | TKl q _ => samples_of q
  | TSub a _ => dim0_of a
  | TDivInt a _ => dim0_of a
  | TMean _ => 1
  | TEll out _ => dim0_of out
  | TError _ _ => 1
  | TZero => 1
  | TAdd a _ => dim0_of a
  end
with samples_of (q : normal) : Z :=
  match q with
  | NPrior _ => 1
  | NCall _ z => dim0_of z
  | NMul q f => Z.max (samples_of q) (samples_of f)
  end.

#[export] Instance numeric : Gibnn.Numeric := {|
  Gibnn.Tensor := tensor;
  Gibnn.RandomState := rstate;
  Gibnn.NaturalNormal := normal;
  Gibnn.NormalPseudoObservation := string;
  Gibnn.ndim := rank_of;
  Gibnn.shape0 := dim0_of;
  Gibnn.B_tile := TTile;
  Gibnn.B_mm_tr_b := TMm;
  Gibnn.B_sum_last := TSumLast;
  Gibnn.index_last0 := TIndexLast0;
  Gibnn.t_call := NCall;
  Gibnn.nn_mul := NMul;
  Gibnn.nn_sample := fun q k => (RNext q k, TSample q k);
  Gibnn.nn_kl := TKl
|}.

End Sym.

(** ** Freezing protocol and local free energy
    (src/experiments/utils/optimization.py) *)

Module Optimization.

(** *** Tensors with gradient history

    A tensor is its numeric content and its place in the autograd graph:
    [Attached n] is the live tensor whose history is node [n], [Detached]
    a tensor cut off from any history.  [x.detach().clone()] keeps the
    content and drops the history. *)

Inductive Grad : Type :=
| Attached (node : positive)
| Detached.

Section Freezing.

Variable Data : Type.

Record TensorV : Type := mkTensorV { data : Data; grad : Grad }.

Definition detach_clone (x : TensorV) : TensorV :=
  {| data := data x; grad := Detached |}.

(** [gi.NormalPseudoObservation]: pseudo observations [yz] and pseudo
    precisions [nz]. *)
Record Factor : Type := mkFactor { yz : TensorV; nz : TensorV }.

(** Modelled from the spec: [gi.NormalPseudoObservation] and its
    [__copy__] are not under src/.  [copy(t)] is the "detached copy"
    of the data model ("a detached copy is taken whenever it crosses
    the client/server boundary into a frozen snapshot"), which is also
    what the docstring of [collect_vp] and the comment at line 120
    ("client-layer-t is detached") say of it. *)
Definition copy (f : Factor) : Factor :=
  {| yz := detach_clone (yz f); nz := detach_clone (nz f) |}.

Definition detached (f : Factor) : Prop :=
  grad (yz f) = Detached /\ grad (nz f) = Detached.

Definition same_values (f g : Factor) : Prop :=
  data (yz f) = data (yz g) /\ data (nz f) = data (nz g).

(** [gi.client]: a [GI_Client] owns inducing inputs [z], any other
    client (the mean-field one) does not; both own one factor per
    layer, [t]. *)
Inductive Client : Type :=
| GI_Client (name : string) (z : TensorV) (t : dict Factor)
| MFVI_Client (name : string) (t : dict Factor).

Definition name (c : Client) : string :=
  match c with GI_Client n _ _ | MFVI_Client n _ => n end.

Definition t (c : Client) : dict Factor :=
  match c with GI_Client _ _ t | MFVI_Client _ t => t end.

Definition z (c : Client) : option TensorV :=
  match c with GI_Client _ z _ => Some z | MFVI_Client _ _ => None end.

(** [if layer_name not in tmp_ts: tmp_ts[layer_name] = {}] *)
Definition ensure_layer (layer_name : string) (tmp_ts : dict (dict Factor))
  : dict (dict Factor) :=
  if contains tmp_ts layer_name then tmp_ts
  else set layer_name empty tmp_ts.

(** [tmp_ts[layer_name][client_name] = v]: the inner dictionary is
    looked up, then updated in place. *)
Definition setitem2 (layer_name client_name : string) (v : Factor)
    (tmp_ts : dict (dict Factor)) : Result (dict (dict Factor)) :=
  layer <- getitem tmp_ts layer_name ;;
  Ok (set layer_name (set client_name v layer) tmp_ts).

(** Lines 93-96: one turn of [for layer_name, client_layer_t in client.t.items()]. *)
Definition collect_ts_body (client_name : string)
    (tmp_ts : dict (dict Factor)) (item : string * Factor)
    : Result (dict (dict Factor)) :=
  let '(layer_name, client_layer_t) := item in
  setitem2 layer_name client_name (copy client_layer_t)
    (ensure_layer layer_name tmp_ts).

(** Lines 89-96: one turn of [for client_name, client in clients.items()]. *)
Definition collect_vp_body (acc : dict (dict Factor) * dict TensorV)
    (item : string * Client) : Result (dict (dict Factor) * dict TensorV) :=
  let '(tmp_ts, tmp_zs) := acc in
  let '(client_name, client) := item in
  let tmp_zs := match client with
                | GI_Client _ cz _ => set client_name (detach_clone cz) tmp_zs
                | MFVI_Client _ _ => tmp_zs
                end in
  tmp_ts <- for_each (collect_ts_body client_name) (items (t client)) tmp_ts ;;
  Ok (tmp_ts, tmp_zs).

(** [collect_vp] *)
Definition collect_vp (clients : dict Client)
  : Result (dict (dict Factor) * dict TensorV) :=
  for_each collect_vp_body (items clients) (empty, empty).

(** Lines 109-111 *)
Definition frozen_zs_body (curr_client : Client) (tmp_zs : dict TensorV)
    (item : string * TensorV) : dict TensorV :=
  let '(client_name, client_z) := item in
  if negb (String.eqb client_name (name curr_client))
  then set client_name (detach_clone client_z) tmp_zs
  else tmp_zs.

(** Lines 118-122: one turn of [for client_name, client_layer_t in layer_t.items()]. *)
Definition frozen_ts_body (curr_client : Client) (layer_name : string)
    (tmp_ts : dict (dict Factor)) (item : string * Factor)
    : Result (dict (dict Factor)) :=
  let '(client_name, client_layer_t) := item in
  if String.eqb client_name (name curr_client)
  then live <- getitem (t curr_client) layer_name ;;
       setitem2 layer_name (name curr_client) live tmp_ts
  else setitem2 layer_name client_name (copy client_layer_t) tmp_ts.

(** Lines 114-122: one turn of [for layer_name, layer_t in frozen_ts.items()]. *)
Definition frozen_layer_body (curr_client : Client)
    (tmp_ts : dict (dict Factor)) (item : string * dict Factor)
    : Result (dict (dict Factor)) :=
  let '(layer_name, layer_t) := item in
  for_each (frozen_ts_body curr_client layer_name) (items layer_t)
    (ensure_layer layer_name tmp_ts).

(** [collect_frozen_vp]; [frozen_zs] is [None] at the mean-field call
    site, where it is not looked at. *)
Definition collect_frozen_vp (frozen_ts : dict (dict Factor))
    (frozen_zs : option (dict TensorV)) (curr_client : Client)
    : Result (dict (dict Factor) * dict TensorV) :=
  tmp_zs <- match curr_client with
            | GI_Client n cz _ =>
                match frozen_zs with
                | Some fz =>
                    Ok (fold_left (frozen_zs_body curr_client) (items fz)
                          [(n, cz)])
                | None => Raise AttributeError
                end
            | MFVI_Client _ _ => Ok empty
            end ;;
  tmp_ts <- for_each (frozen_layer_body curr_client) (items frozen_ts) empty ;;
  Ok (tmp_ts, tmp_zs).

(** The invariant of a dictionary of dictionaries. *)
Definition wf2 (d : dict (dict Factor)) : Prop :=
  wf d /\ forall l layer, In (l, layer) d -> wf layer.

Definition layer_or_empty (d : dict (dict Factor)) (l : string) : dict Factor :=
  match get d l with
  | Some layer => layer
  | None => empty
  end.

(** The effect of lines 94-96 on the dictionary of layers. *)
Definition upd (l c : string) (v : Factor) (d : dict (dict Factor)) : dict (dict Factor) :=
  set l (set c v (layer_or_empty d l)) d.

(** The invariant of the dictionary of clients and of their factors. *)
Definition wf_clients (clients : dict Client) : Prop :=
  wf clients /\ forall k c, In (k, c) clients -> wf (t c).

End Freezing.

(** *** The local free-energy estimator *)

(** [isinstance(model, gi.GIBNN)], [isinstance(model, gi.MFVI)], neither. *)
Inductive ModelClass : Type := IsGIBNN | IsMFVI | IsOther.

Section Estimator.

Variables Tensor RandomState Prior Pseudo Inducing Model : Type.

(** The model classes the experiments pass ([gi.GIBNN_Classification],
    [gi.MFVI_Regression], ... under [gi.models]) are not under src/:
    the estimator is written against the methods it calls.  A method
    takes the model object; the two [sample_posterior] also return it,
    since they store the posterior cache the later calls read. *)
Record ModelOps : Type := mkModelOps {
  class_of : Model -> ModelClass;
  gi_sample_posterior :
    Model -> RandomState -> dict Prior -> dict (dict Pseudo) ->
    dict Inducing -> Z -> string -> Result (RandomState * Model);
  mfvi_sample_posterior :
    Model -> RandomState -> dict Prior -> dict (dict Pseudo) -> Z ->
    Result (RandomState * Model);
  propagate : Model -> Tensor -> Result Tensor;
  get_total_kl : Model -> Result Tensor;
  compute_ell : Model -> Tensor -> Tensor -> Result Tensor;
  compute_error : Model -> Tensor -> Tensor -> Result Tensor
}.

(** The tensor arithmetic of lines 160-163. *)
Record Arith : Type := mkArith {
  t_sub : Tensor -> Tensor -> Tensor;        (* a - b *)
  t_div_int : Tensor -> Z -> Tensor;         (* a / N, N a Python int *)
  t_mean : Tensor -> Tensor                  (* a.mean() *)
}.

Variable ar : Arith.
Variable ops : ModelOps.

(** Lines 140-145: the dispatch on the class of the model. *)
Definition sample (key : RandomState) (model : Model) (client_name : string)
    (ps : dict Prior) (ts : dict (dict Pseudo)) (zs : dict Inducing) (S : Z)
    : Result (RandomState * Model) :=
  match class_of ops model with
  | IsGIBNN => gi_sample_posterior ops model key ps ts zs S client_name
  | IsMFVI => mfvi_sample_posterior ops model key ps ts S
  | IsOther => Raise NotImplementedError
  end.

(** What the call returns, [(key, elbo.mean(), exp_ll.mean(), kl.mean(), error)]. *)
Record Vfe : Type := mkVfe {
  vfe_key : RandomState;
  vfe_elbo : Tensor;
  vfe_exp_ll : Tensor;
  vfe_kl : Tensor;
  vfe_error : Tensor
}.

(** [estimate_local_vfe]; [client_name] is [client.name].  The result
    pairs the returned tuple with the model object as the call leaves
    it. *)
Definition estimate_local_vfe (key : RandomState) (model : Model)
    (client_name : string) (x y : Tensor) (ps : dict Prior)
    (ts : dict (dict Pseudo)) (zs : dict Inducing) (S N : Z)
    : Result (Vfe * Model) :=
  '(key, model) <- sample key model client_name ps ts zs S ;;
  out <- propagate ops model x ;;
  kl <- get_total_kl ops model ;;
  exp_ll <- compute_ell ops model out y ;;
  error <- compute_error ops model out y ;;
  let elbo := t_sub ar exp_ll (t_div_int ar kl N) in
  Ok ({| vfe_key := key; vfe_elbo := t_mean ar elbo;
         vfe_exp_ll := t_mean ar exp_ll; vfe_kl := t_mean ar kl;
         vfe_error := error |}, model).

(** The estimator the source leaves commented out at line 157,
    [((N / len(x)) * exp_ll) - kl / len(x)], is not modelled: the
    code does not run it. *)

End Estimator.

End Optimization.

(** ** The estimator's model, over the term model *)

Module SymModel.

Import Sym.

(** Modelled from the spec: the model classes the experiments hand to
    [estimate_local_vfe] ([gi.GIBNN_Classification] and the like, with
    their [sample_posterior(..., cavity_client=...)], [get_total_kl],
    [compute_ell] and [compute_error]) are not under src/.  The class of
    src/gi/gibnn.py is not one of them: its [sample_posterior] takes no
    [cavity_client] and it has none of the other three methods.  This
    stand-in follows section 4.3 of the specification.  Its
    [sample_posterior] is the composition pass as the specification words
    it ("for every client's entry at this layer [...] evaluate the
    client's Factor at those inducing outputs"), which leaves "a cache of
    {weights, KL} per layer" in the object; the keyword [cavity_client] is
    accepted and not used.  From the cache "[propagate(x)] computes the
    network's output for S samples by sequentially applying each layer's
    sampled weights and the shared nonlinearity (omitted on the last
    layer)", and [total_kl] "sums the cached per-layer KL across layers".
    The expected log-likelihood and the error are the terms that name
    them. *)
Definition total_kl (m : Gibnn.GIBNN) : Result tensor :=
  match Gibnn._cache m with
  | Some c => Ok (fold_left (fun acc l => TAdd acc (Gibnn.kl l)) (values c) TZero)
  | None => Raise TypeError
  end.

Definition propagate (m : Gibnn.GIBNN) (x : tensor) : Result tensor :=
  r <- Gibnn.propagate m x ;;
  match r with
  | Some out => Ok out
  | None => Raise TypeError
  end.

Definition ops
  : Optimization.ModelOps tensor rstate normal string tensor Gibnn.GIBNN :=
  {| Optimization.class_of := fun _ => Optimization.IsGIBNN;
     Optimization.gi_sample_posterior :=
       fun m key ps ts zs S _ =>
         '(k, _, m') <- Gibnn.sample_posterior_own m key ps ts zs S ;; Ok (k, m');
     Optimization.mfvi_sample_posterior :=
       fun _ _ _ _ _ => Raise NotImplementedError;
     Optimization.propagate := propagate;
     Optimization.get_total_kl := total_kl;
     Optimization.compute_ell := fun _ out y => Ok (TEll out y);
     Optimization.compute_error := fun _ out y => Ok (TError out y) |}.


Definition arith : Optimization.Arith tensor :=
  {| Optimization.t_sub := TSub;
     Optimization.t_div_int := TDivInt;
     Optimization.t_mean := TMean |}.

End SymModel.

(** ** The estimator's model when it is the class of src/gi/gibnn.py

    [GIBNN.sample_posterior] (l.8) has no parameter [cavity_client]: the
    call of optimization.py l.141 passes that keyword and raises
    [TypeError] before the body runs, as does the call of l.143, which
    passes no [zs].  The class has no [get_total_kl], [compute_ell] or
    [compute_error]: [AttributeError].  [propagate] answers [None] on an
    object without cache, which the later methods cannot take. *)

Module SrcModel.

Import Sym.

Definition ops
  : Optimization.ModelOps tensor rstate normal string tensor Gibnn.GIBNN :=
  {| Optimization.class_of := fun _ => Optimization.IsGIBNN;
     Optimization.gi_sample_posterior :=
       fun _ _ _ _ _ _ _ => Raise TypeError;
     Optimization.mfvi_sample_posterior :=
       fun _ _ _ _ _ => Raise TypeError;
     Optimization.propagate := SymModel.propagate;
     Optimization.get_total_kl := fun _ => Raise AttributeError;
     Optimization.compute_ell := fun _ _ _ => Raise AttributeError;
     Optimization.compute_error := fun _ _ _ => Raise AttributeError |}.

End SrcModel.

(** ** Exact arithmetic on vectors of per-sample values

    Modelled from the spec: the tensor library is not under src/.  A
    tensor of shape [S] is the list of its [S] entries, a scalar the list
    of one entry, with rational numbers in place of floating point. *)

Module QVec.

Definition vec : Type := list Q.

Definition sub (a b : vec) : vec :=
  map (fun p => (fst p - snd p)%Q) (combine a b).

Definition div_int (a : vec) (n : Z) : vec :=
  map (fun v => (v / inject_Z n)%Q) a.

Definition sum (a : vec) : Q := fold_right Qplus 0%Q a.

Definition mean1 (a : vec) : Q :=
  (sum a / inject_Z (Z.of_nat (List.length a)))%Q.

Definition mean (a : vec) : vec := [mean1 a].

Definition arith : Optimization.Arith vec :=
  {| Optimization.t_sub := sub;
     Optimization.t_div_int := div_int;
     Optimization.t_mean := mean |}.

End QVec.

(** ** A two-client, two-layer scenario over the term model *)

Module Scenario.

Import Sym.

Definition ps : dict normal :=
  [("layer0", NPrior "p0"); ("layer1", NPrior "p1")].

Definition ts : dict (dict string) :=
  [("layer0", [("client0", "t00"); ("client1", "t01")]);
   ("layer1", [("client0", "t10"); ("client1", "t11")])].

(** Inducing inputs: [M = 3] points per client. *)
Definition zs : dict tensor :=
  [("client0", TInput "z0" 2 3); ("client1", TInput "z1" 2 3)].

Definition fresh : Gibnn.GIBNN := Gibnn.init TAct.

(** A minibatch of 5 inputs and its targets. *)
Definition x : tensor := TInput "x" 2 5.
Definition y : tensor := TInput "y" 2 5.

(** One layer under the name ["layer0"], the two clients. *)
Definition ps1 : dict normal := [("layer0", NPrior "p0")].
Definition ts1 : dict (dict string) :=
  [("layer0", [("client0", "t00"); ("client1", "t01")])].

(** Two inducing-point clients with live (attached) parameters, and a
    third one no dictionary holds. *)
Definition live (d : Z) (n : positive) : Optimization.TensorV Z :=
  {| Optimization.data := d; Optimization.grad := Optimization.Attached n |}.

Definition factor (d : Z) (n : positive) : Optimization.Factor Z :=
  {| Optimization.yz := live d n; Optimization.nz := live (d + 1) (n + 1) |}.

Definition client0 : Optimization.Client Z :=
  Optimization.GI_Client "client0" (live 100 1)
    [("layer0", factor 110 2); ("layer1", factor 120 4)].

Definition client1 : Optimization.Client Z :=
  Optimization.GI_Client "client1" (live 200 6)
    [("layer0", factor 210 7); ("layer1", factor 220 9)].

Definition client9 : Optimization.Client Z :=
  Optimization.GI_Client "client9" (live 900 11)
    [("layer0", factor 910 12); ("layer1", factor 920 14)].

Definition clients : dict (Optimization.Client Z) :=
  [("client0", client0); ("client1", client1)].

(** The snapshot [collect_vp] takes of [clients]. *)
Definition frozen (d : Z) : Optimization.Factor Z :=
  {| Optimization.yz :=
       {| Optimization.data := d; Optimization.grad := Optimization.Detached |};
     Optimization.nz :=
       {| Optimization.data := d + 1; Optimization.grad := Optimization.Detached |} |}.

Definition frozen_ts : dict (dict (Optimization.Factor Z)) :=
  [("layer0", [("client0", frozen 110); ("client1", frozen 210)]);
   ("layer1", [("client0", frozen 120); ("client1", frozen 220)])].

Definition frozen_zs : dict (Optimization.TensorV Z) :=
  [("client0", {| Optimization.data := 100; Optimization.grad := Optimization.Detached |});
   ("client1", {| Optimization.data := 200; Optimization.grad := Optimization.Detached |})].

End Scenario.

(** ** More of the server (src/gi/server.py) *)

Module ServerMore.

Import Server.

(** A Python [set] of names, as the list of its elements without
    repetition: [s.add(x)] and [s.update(xs)]. *)
Definition set_add (x : string) (s : list string) : list string :=
  if existsb (String.eqb x) s then s else s ++ [x].

Definition set_update (s : list string) (xs : list string) : list string :=
  fold_left (fun acc x => set_add x acc) xs s.

Section More.

Variables Client Model Metric : Type.

(** [c.name] *)
Variable name_of : Client -> string.

Definition set_optimized_clients (s : Server Client Model Metric)
    (o : list string) : Server Client Model Metric :=
  {| clients := clients s; model := model s; log := log s;
     communications := communications s; max_iters := max_iters s;
     curr_iter := curr_iter s; optimized_clients := o; name := name s |}.

Definition set_log (s : Server Client Model Metric)
    (l : dict (list Metric)) : Server Client Model Metric :=
  {| clients := clients s; model := model s; log := l;
     communications := communications s; max_iters := max_iters s;
     curr_iter := curr_iter s; optimized_clients := optimized_clients s;
     name := name s |}.

(** [Server.update_optimized_clients] (l.85-89) *)
Definition update_optimized_clients (s : Server Client Model Metric)
    (cs : list Client) : Server Client Model Metric :=
  if negb (Z.of_nat (List.length (optimized_clients s)) =? len (clients s))
  then set_optimized_clients s
         (set_update (optimized_clients s) (map name_of cs))
  else s.

(** [self.log[k].append(v)] on the [defaultdict(list)]: a key the log
    lacks is created with the empty list first. *)
Definition log_append (k : string) (v : Metric) (l : dict (list Metric))
  : dict (list Metric) :=
  match get l k with
  | Some col => set k (col ++ [v]) l
  | None => set k [v] l
  end.

Definition log_append_all (metrics : dict Metric) (l : dict (list Metric))
  : dict (list Metric) :=
  fold_left (fun acc (it : string * Metric) => log_append (fst it) (snd it) acc)
    (items metrics) l.

(** [Server.update_log] (l.46-48) *)
Definition update_log (s : Server Client Model Metric) (metrics : dict Metric)
  : Server Client Model Metric :=
  set_log s (log_append_all metrics (log s)).

(** [{prefix + k: v for k, v in metrics.items()}] (l.78-79) *)
Definition prefixed (prefix : string) (metrics : dict Metric) : dict Metric :=
  fold_left (fun acc (it : string * Metric) =>
               set (prefix ++ fst it)%string (snd it) acc)
    (items metrics) empty.

(** [{**a, **b}] (l.81) *)
Definition merge (a b : dict Metric) : dict Metric :=
  fold_left (fun acc (it : string * Metric) => set (fst it) (snd it) acc)
    (items b) a.

(** [Server.evaluate_performance] (l.50-83).  The two calls of
    [self.model.performance_metrics] on the loaders are outside the
    sources: what they return is given, already as numbers ([v.item()]),
    and [error_key] is [self.model.error_metric].  The log line reads
    [self.name], which only the subclasses set, then the four entries it
    prints, and formats [self.max_iters] with [{:2}], which [None] does
    not support; [of_int] is an integer as a log entry. *)
Definition evaluate_performance (of_int : Z -> Metric)
    (s : Server Client Model Metric)
    (train_metrics test_metrics : dict Metric) (error_key : string)
  : Result (Server Client Model Metric) :=
  _ <- match name s with Some n => Ok n | None => Raise AttributeError end ;;
  _ <- getitem train_metrics "mll" ;;
  _ <- getitem train_metrics error_key ;;
  _ <- getitem test_metrics "mll" ;;
  _ <- getitem test_metrics error_key ;;
  _ <- match max_iters s with Some mi => Ok mi | None => Raise TypeError end ;;
  let l := log_append "communications" (of_int (communications s)) (log s) in
  let l := log_append "iteration" (of_int (curr_iter s)) l in
  let train_metrics := prefixed "train_" train_metrics in
  let test_metrics := prefixed "test_" test_metrics in
  let metrics := merge train_metrics test_metrics in
  Ok (set_log s (log_append_all metrics l)).

(** *** [class NewServer(Server)] (l.132-160) *)

Record NewServer : Type := mkNew {
  nbase : Server Client Model Metric;
  _global_iter : Z;
  n_idx : Z
}.

Definition NewServer_init (cs : dict Client) (m : Model) (iters : Z) : NewServer :=
  let s := Server_init Metric cs m in
  {| nbase := set_name_max_iters s "seq-sync"
                (len (clients s) + (len (clients s) - 1));
     _global_iter := 0;
     n_idx := 0 |}.

(** [NewServer.current_client] *)
Definition new_current_client (s : NewServer) : Result Client :=
  k <- list_getitem (keys (clients (nbase s))) (n_idx s) ;;
  getitem (clients (nbase s)) k.

(** [NewServer.__next__] *)
Definition NewServer_next (s : NewServer) : Result (list Client * NewServer) :=
  if _global_iter s <? len (clients (nbase s)) then
    client <- new_current_client s ;;
    let n := len (clients (nbase s)) in
    if n =? 0 then Raise ZeroDivisionError
    else
      let idx' := (n_idx s + 1) mod n in
      let b' := set_communications (nbase s) (communications (nbase s) + 2) in
      Ok ([client],
          {| nbase := b'; _global_iter := _global_iter s + 1; n_idx := idx' |})
  else Ok (values (clients (nbase s)), s).

Fixpoint new_rounds (n : nat) (s : NewServer)
  : Result (list (list Client) * NewServer) :=
  match n with
  | O => Ok ([], s)
  | S n' =>
      '(cs, s1) <- NewServer_next s ;;
      '(rest, s2) <- new_rounds n' s1 ;;
      Ok (cs :: rest, s2)
  end.

End More.

End ServerMore.

(** What a scheduling call leaves alone: every field of the server but
    the communication counter. *)
Definition same_but_communications {Client Model Metric : Type}
    (s s' : Server.Server Client Model Metric) : Prop :=
  Server.clients s' = Server.clients s /\
  Server.model s' = Server.model s /\
  Server.log s' = Server.log s /\
  Server.max_iters s' = Server.max_iters s /\
  Server.curr_iter s' = Server.curr_iter s /\
  Server.optimized_clients s' = Server.optimized_clients s /\
  Server.name s' = Server.name s.

(** A column of the metrics log; a key the log lacks has no entry yet. *)
Definition column {M : Type} (l : dict (list M)) (k : string) : list M :=
  match get l k with
  | Some c => c
  | None => []
  end.

(** The columns one evaluation writes to. *)
Definition logged_keys {M : Type} (train test : dict M) : list string :=
  "communications" :: "iteration" ::
  map (String.append "train_") (keys train) ++
  map (String.append "test_") (keys test).

(** A log of [n] rows over the columns [K]. *)
Definition rectangular {M : Type} (n : nat) (K : list string)
    (l : dict (list M)) : Prop :=
  (forall k, In k K -> List.length (column l k) = n) /\
  (forall k, In k (keys l) -> In k K).

(** ** The client-local loop's windows, one after the other *)

Module MinibatchMore.

(** The windows [inds] of [for client_iter in range(i, i + n)], in order. *)
Fixpoint windows_from (b P : Z) (i : Z) (n : nat) : Result (list (list Z)) :=
  match n with
  | O => Ok []
  | S n' =>
      w <- Minibatch.inds b i P ;;
      rest <- windows_from b P (i + 1) n' ;;
      Ok (w :: rest)
  end.

End MinibatchMore.

(** ** More of the inducing-point network *)

Module GibnnMore.

Import Gibnn.

Section More.

Context {num : Numeric}.

(** [GIBNN.__call__] (l.83-84) *)
Definition call (self : GIBNN) (x : Tensor) : Result (option Tensor) :=
  propagate self x.

(** The [cache] property (l.91-93) *)
Definition get_cache (self : GIBNN) : option (dict LayerCache) := _cache self.

(** [key, w = q.sample(key)] and [w = w[..., 0]] (l.36-39), for one
    posterior after the other, the key handed on. *)
Fixpoint draw_all (k : RandomState) (qs : list NaturalNormal)
  : RandomState * list Tensor :=
  match qs with
  | [] => (k, [])
  | q :: qs' =>
      let '(k1, wl) := nn_sample q k in
      let '(k2, ws) := draw_all k1 qs' in
      (k2, index_last0 wl :: ws)
  end.

(** [kl_qp = B.sum(q.kl(p), -1)] (l.42-45) of a posterior and its prior. *)
Definition kl_of (qp : NaturalNormal * NaturalNormal) : Tensor :=
  B_sum_last (nn_kl (fst qp) (snd qp)).

(** Through each weight in turn, the nonlinearity after every one: what
    l.53-56 do to inducing inputs over layers that are not the last. *)
Definition chain_act (act : Tensor -> Tensor) (ws : list Tensor) (x : Tensor)
  : Tensor :=
  fold_left (fun x wl => act (B_mm_tr_b x wl)) ws x.

(** The local variables of [sample_posterior] when its layer loop has
    run its first [i] turns. *)
Definition after_layers (self : GIBNN) (key0 : RandomState)
    (ps : dict NaturalNormal) (ts : dict (dict NormalPseudoObservation))
    (zs : dict Tensor) (S : Z) (i : nat) : Result Locals :=
  '(zs0, cn0) <- for_each (tile_body S) (items zs) (empty, None) ;;
  for_each (layer_body self ps ts) (firstn i (enumerate (items ps)))
    {| key := key0; cache := _cache self; _zs := zs0; client_name := cn0 |}.

End More.

End GibnnMore.

(** ** The view a client is handed in the experiments' main loop
    (pvi_classification.py l.150-155, mfvi_regression.py l.139-144) *)

Module Experiment.

Import Optimization.

Section Views.

Variable Data : Type.

(** [{k: {curr_client.name: curr_client.t[k]} for k, _ in frozen_ts.items()}] *)
Definition first_round_ts (frozen_ts : dict (dict (Factor Data)))
    (curr_client : Client Data) : Result (dict (dict (Factor Data))) :=
  for_each
    (fun acc (it : string * dict (Factor Data)) =>
       v <- getitem (t curr_client) (fst it) ;;
       Ok (set (fst it) [(name curr_client, v)] acc))
    (items frozen_ts) empty.

(** [{curr_client.name: curr_client.z}]; a client without inducing inputs
    has no attribute [z]. *)
Definition first_round_zs (curr_client : Client Data)
  : Result (dict (TensorV Data)) :=
  match z curr_client with
  | Some cz => Ok [(name curr_client, cz)]
  | None => Raise AttributeError
  end.

(** The branch on [iter == 0] of pvi_classification.py. *)
Definition communicated_view (iter : Z) (frozen_ts : dict (dict (Factor Data)))
    (frozen_zs : dict (TensorV Data)) (curr_client : Client Data)
  : Result (dict (dict (Factor Data)) * dict (TensorV Data)) :=
  if iter =? 0 then
    tmp_ts <- first_round_ts frozen_ts curr_client ;;
    tmp_zs <- first_round_zs curr_client ;;
    Ok (tmp_ts, tmp_zs)
  else collect_frozen_vp frozen_ts (Some frozen_zs) curr_client.

(** The branch on [iter == 0] of mfvi_regression.py, which hands
    [None] for the frozen inducing inputs and keeps the factor view. *)
Definition communicated_view_mfvi (iter : Z)
    (frozen_ts : dict (dict (Factor Data))) (curr_client : Client Data)
  : Result (dict (dict (Factor Data))) :=
  if iter =? 0 then first_round_ts frozen_ts curr_client
  else '(tmp_ts, _) <- collect_frozen_vp frozen_ts None curr_client ;; Ok tmp_ts.

End Views.

End Experiment.

(** ** More concrete data *)

Module ScenarioMore.

Import Sym.

(** Three clients, each standing for itself as a number. *)
Definition three : dict Z := [("client0", 10); ("client1", 11); ("client2", 12)].

Definition name_of (c : Z) : string :=
  if c =? 10 then "client0" else if c =? 11 then "client1" else "client2".

(** A sequential server over [three] whose cursor stands at the second
    client. *)
Definition seq_at_1 : Server.SequentialServer Z unit Z :=
  {| Server.base := Server.base (Server.SequentialServer_init Z three tt 2);
     Server._idx := 1 |}.

(** A synchronous server over [three], and the metrics of one evaluation. *)
Definition srv : Server.Server Z unit Z :=
  Server.SynchronousServer_init Z three tt 3.

Definition train : dict Z := [("mll", -5); ("acc", 90)].
Definition test : dict Z := [("mll", -6); ("acc", 85)].

(** The two layers of [Scenario.ps] without any factor. *)
Definition ts0 : dict (dict string) := [("layer0", []); ("layer1", [])].

(** An object whose cache was filled under another layer name. *)
Definition old_layer : @Gibnn.LayerCache Sym.numeric :=
  @Gibnn.mkLayer Sym.numeric (TInput "w_old" 3 4) (TInput "kl_old" 1 4).

Definition stale : Gibnn.GIBNN :=
  Gibnn.set_cache Scenario.fresh (Some [("old", old_layer)]).

(** A three-dimensional input, and an inducing input of the wrong rank. *)
Definition x3 : tensor := TInput "x3" 3 4.
Definition zs_bad : dict tensor :=
  [("client0", TInput "z0" 2 3); ("client1", TInput "z1" 1 3)].

(** A client that lacks the second layer of the snapshot. *)
Definition client_short : Optimization.Client Z :=
  Optimization.GI_Client "client0" (Scenario.live 100 1)
    [("layer0", Scenario.factor 110 2)].

(** The two layers of [Scenario.ps] under other names. *)
Definition ps_named : dict normal :=
  [("hidden", NPrior "p0"); ("out", NPrior "p1")].

Definition ts_named : dict (dict string) :=
  [("hidden", [("client0", "t00"); ("client1", "t01")]);
   ("out", [("client0", "t10"); ("client1", "t11")])].

(** The fresh object after [self.cache = None]. *)
Definition unset : Gibnn.GIBNN := Gibnn.set_cache Scenario.fresh None.

(** A mean-field client. *)
Definition client_mf : Optimization.Client Z :=
  Optimization.MFVI_Client "client0"
    [("layer0", Scenario.factor 110 2); ("layer1", Scenario.factor 120 4)].

End ScenarioMore.

(* ================================================================== *)
(** * Part II: properties *)
(* ================================================================== *)

Unset Implicit Arguments.

(** ** Dictionaries *)

Section DictFacts.

Context {V : Type}.
Implicit Types (d : dict V) (k : string) (v : V).

Lemma get_set_same d k v : get (set k v d) k = Some v.
Proof.
  induction d as [|[k' v'] d IH]; simpl.
  - now rewrite String.eqb_refl.
  - destruct (String.eqb k' k) eqn:E; simpl.
    + now rewrite String.eqb_refl.
    + now rewrite E.
Qed.

Lemma get_set_other d k k' v : k <> k' -> get (set k v d) k' = get d k'.
Proof.
  intros Hne. induction d as [|[k0 v0] d IH]; simpl.
  - destruct (String.eqb k k') eqn:E; [apply String.eqb_eq in E; contradiction | reflexivity].
  - destruct (String.eqb k0 k) eqn:E; simpl.
    + apply String.eqb_eq in E; subst k0.
      destruct (String.eqb k k') eqn:E'; [apply String.eqb_eq in E'; contradiction | reflexivity].
    + destruct (String.eqb k0 k'); [reflexivity | exact IH].
Qed.

Lemma get_None_notin d k : get d k = None <-> ~ In k (keys d).
Proof.
  induction d as [|[k' v'] d IH]; simpl.
  - tauto.
  - destruct (String.eqb k' k) eqn:E.
    + apply String.eqb_eq in E. split; [discriminate | intros H; exfalso; auto].
    + apply String.eqb_neq in E. rewrite IH. tauto.
Qed.

Lemma get_Some_in d k v : get d k = Some v -> In (k, v) d.
Proof.
  induction d as [|[k' v'] d IH]; simpl; [discriminate|].
  destruct (String.eqb k' k) eqn:E.
  - apply String.eqb_eq in E. intros [= ->]. subst. now left.
  - intros H. right. auto.
Qed.

Lemma in_get d k v : wf d -> In (k, v) d -> get d k = Some v.
Proof.
  unfold wf. induction d as [|[k' v'] d IH]; simpl; [tauto|].
  intros Hnd [H|H].
  - injection H as -> ->. now rewrite String.eqb_refl.
  - inversion Hnd as [|? ? Hnotin Hnd']; subst.
    destruct (String.eqb k' k) eqn:E.
    + apply String.eqb_eq in E; subst k'. exfalso. apply Hnotin.
      change k with (fst (k, v)). now apply in_map.
    + auto.
Qed.

(** Assigning to a key the dictionary lacks appends the binding. *)
Lemma set_fresh d k v : ~ In k (keys d) -> set k v d = d ++ [(k, v)].
Proof.
  induction d as [|[k' v'] d IH]; simpl; [reflexivity|].
  intros H. destruct (String.eqb k' k) eqn:E.
  - apply String.eqb_eq in E. exfalso; auto.
  - f_equal. apply IH. tauto.
Qed.

Lemma keys_set_in d k v k' : In k' (keys (set k v d)) <-> k' = k \/ In k' (keys d).
Proof.
  induction d as [|[k0 v0] d IH]; simpl.
  - intuition.
  - destruct (String.eqb k0 k) eqn:E; simpl.
    + apply String.eqb_eq in E; subst. intuition.
    + rewrite IH. intuition.
Qed.

Lemma wf_set d k v : wf d -> wf (set k v d).
Proof.
  unfold wf. induction d as [|[k0 v0] d IH]; simpl; intros Hnd.
  - constructor; [simpl; tauto | constructor].
  - inversion Hnd as [|? ? Hnotin Hnd']; subst.
    destruct (String.eqb k0 k) eqn:E; simpl.
    + apply String.eqb_eq in E; subst. now constructor.
    + constructor; [|auto].
      intros Hin. apply (keys_set_in d k v k0) in Hin.
      apply String.eqb_neq in E. destruct Hin; [congruence | contradiction].
Qed.

Lemma keys_length d : List.length (keys d) = List.length d.
Proof. apply length_map. Qed.

Lemma values_length d : List.length (values d) = List.length d.
Proof. apply length_map. Qed.

(** In a well-formed dictionary the [i]-th key leads to the [i]-th value. *)
Lemma getitem_nth_key d (i : nat) k v :
  wf d -> nth_error d i = Some (k, v) -> getitem d k = Ok v.
Proof.
  intros Hwf Hnth. unfold getitem.
  rewrite (in_get d k v Hwf); [reflexivity|].
  eapply nth_error_In; eauto.
Qed.

End DictFacts.

Lemma list_getitem_nat {A : Type} (xs : list A) (i : nat) (x : A) :
  nth_error xs i = Some x -> list_getitem xs (Z.of_nat i) = Ok x.
Proof.
  intros H. unfold list_getitem.
  assert (Hlt : (i < List.length xs)%nat) by (apply nth_error_Some; congruence).
  destruct (Z.of_nat i <? 0) eqn:E; [apply Z.ltb_lt in E; lia|].
  rewrite E. simpl.
  destruct (Z.of_nat (List.length xs) <=? Z.of_nat i) eqn:E2; [apply Z.leb_le in E2; lia|].
  now rewrite Nat2Z.id, H.
Qed.

Lemma bind_ret_l {A B : Type} (a : A) (f : A -> Result B) : bind (Ok a) f = f a.
Proof. reflexivity. Qed.

Lemma bind_Ok {A B : Type} (r : Result A) (f : A -> Result B) (b : B) :
  bind r f = Ok b -> exists a, r = Ok a /\ f a = Ok b.
Proof. destruct r; simpl; [eauto | discriminate]. Qed.

(** ** Minibatch cycling *)

Section MinibatchFacts.

Import Minibatch.

Lemma inds_value (b i P : Z) :
  0 <= b -> P <> 0 ->
  inds b i P =
    Ok (map (fun j => (Z.of_nat j + b * i) mod P) (seq 0 (Z.to_nat b))).
Proof.
  intros Hb HP. unfold inds, B_range.
  destruct (b <? 0) eqn:E; [apply Z.ltb_lt in E; lia|]. simpl.
  destruct (P =? 0) eqn:E2; [apply Z.eqb_eq in E2; contradiction|].
  now rewrite !map_map.
Qed.

(** C5: for a partition of size [P > 0] and a batch size [b], iteration
    [i] of the client-local loop takes the window of [b] indices
    [((0..b-1) + b*i) mod P], every one of them a valid position of the
    partition; for [P = 7], [b = 3] the iterations 0, 1, 2, 3 take
    [0,1,2], [3,4,5], [6,0,1], [2,3,4]. *)
Theorem minibatch_window_cyclic (P b i : Z) :
  0 < P -> 0 <= b ->
  (exists l,
      inds b i P = Ok l /\
      List.length l = Z.to_nat b /\
      (forall j, 0 <= j < b -> nth (Z.to_nat j) l 0 = (j + b * i) mod P) /\
      (forall v, In v l -> 0 <= v < P)) /\
  inds 3 0 7 = Ok [0; 1; 2] /\
  inds 3 1 7 = Ok [3; 4; 5] /\
  inds 3 2 7 = Ok [6; 0; 1] /\
  inds 3 3 7 = Ok [2; 3; 4].
Proof.
  intros HP Hb. split; [|repeat split; reflexivity].
  eexists. split; [apply inds_value; lia|]. repeat split.
  - now rewrite length_map, length_seq.
  - intros j Hj.
    rewrite (nth_indep _ 0 ((fun j => (Z.of_nat j + b * i) mod P) 0%nat))
      by (rewrite length_map, length_seq; lia).
    rewrite (map_nth (fun j => (Z.of_nat j + b * i) mod P)).
    rewrite seq_nth by lia. simpl. now rewrite Z2Nat.id by lia.
  - apply in_map_iff in H. destruct H as [j [<- _]].
    apply Z.mod_pos_bound; lia.
  - apply in_map_iff in H. destruct H as [j [<- _]].
    apply Z.mod_pos_bound; lia.
Qed.

Lemma minibatch_window_cyclic_witness :
  0 < 7 /\ 0 <= 3 /\ inds 3 2 7 = Ok [6; 0; 1].
Proof.
  split; [lia|]. split; [lia|].
  destruct (minibatch_window_cyclic 7 3 2) as [_ [_ [_ [H _]]]]; [lia | lia | exact H].
Defined.

End MinibatchFacts.

(** ** Server schedulers *)

Lemma count_occ_concat_repeat {A : Type} (dec : forall a b : A, {a = b} + {a <> b})
    (l : list A) (a : A) (m : nat) :
  count_occ dec (List.concat (repeat l m)) a = (m * count_occ dec l a)%nat.
Proof.
  induction m as [|m IH]; simpl; [reflexivity|].
  now rewrite count_occ_app, IH.
Qed.

Section ServerFacts.

Import Server.

Variables Client Model Metric : Type.

Local Abbreviation Srv := (Server.Server Client Model Metric).
Local Abbreviation Seq := (Server.SequentialServer Client Model Metric).

(** *** Synchronous *)

Lemma synchronous_rounds_spec (n : nat) (s : Srv) :
  fst (synchronous_rounds n s) = repeat (values (clients s)) n /\
  clients (snd (synchronous_rounds n s)) = clients s /\
  communications (snd (synchronous_rounds n s)) =
    communications s + 2 * len (clients s) * Z.of_nat n.
Proof.
  revert s. induction n as [|n IH]; intros s.
  - simpl. repeat split. lia.
  - cbn [synchronous_rounds]. unfold SynchronousServer_next.
    set (s1 := set_communications s _).
    specialize (IH s1). destruct (synchronous_rounds n s1) as [rest s2].
    simpl in *. destruct IH as [-> [-> ->]].
    repeat split. unfold len, keys. rewrite length_map. lia.
Qed.

(** C7: a call of [next] on a synchronous server returns the list of all
    [k] clients, in dictionary order, adds [2 * k] to the communication
    counter and leaves the clients alone; after [n] calls on a fresh
    server the counter is [2 * k * n]. *)
Theorem synchronous_next_all_clients (cs : dict Client) (m : Model) (iters : Z) :
  (forall s : Srv,
      fst (SynchronousServer_next s) = values (clients s) /\
      List.length (fst (SynchronousServer_next s)) = List.length (clients s) /\
      communications (snd (SynchronousServer_next s)) =
        communications s + 2 * len (clients s) /\
      clients (snd (SynchronousServer_next s)) = clients s) /\
  (forall n : nat,
      fst (synchronous_rounds n (SynchronousServer_init Metric cs m iters)) =
        repeat (values cs) n /\
      communications
        (snd (synchronous_rounds n (SynchronousServer_init Metric cs m iters))) =
        2 * len cs * Z.of_nat n).
Proof.
  split.
  - intros s. unfold SynchronousServer_next. simpl.
    repeat split.
    + apply values_length.
    + unfold len, keys. now rewrite length_map.
  - intros n.
    destruct (synchronous_rounds_spec n (SynchronousServer_init Metric cs m iters))
      as [H1 [_ H3]].
    split; [exact H1 | rewrite H3; simpl; lia].
Qed.

(** *** Sequential *)

Lemma nth_error_keys_values (d : dict Client) (i : nat) (c : Client) :
  nth_error (values d) i = Some c ->
  exists k, nth_error (keys d) i = Some k /\ nth_error d i = Some (k, c).
Proof.
  unfold values, keys. rewrite !nth_error_map.
  destruct (nth_error d i) as [[k v]|]; simpl; [|discriminate].
  intros [= ->]. eauto.
Qed.

(** One call, at a cursor inside the dictionary. *)
Lemma sequential_next_step (s : Seq) (i : nat) (c : Client) :
  wf (clients (base s)) ->
  _idx s = Z.of_nat i ->
  nth_error (values (clients (base s))) i = Some c ->
  SequentialServer_next s =
    Ok ([c],
        {| base := set_communications (base s) (communications (base s) + 2);
           _idx := (Z.of_nat i + 1) mod len (clients (base s)) |}).
Proof.
  intros Hwf Hidx Hnth.
  destruct (nth_error_keys_values _ _ _ Hnth) as [k [Hk Hkv]].
  unfold SequentialServer_next, current_client.
  rewrite Hidx, (list_getitem_nat _ _ _ Hk). simpl.
  rewrite (getitem_nth_key _ _ _ _ Hwf Hkv). simpl.
  assert (Hlen : (i < List.length (clients (base s)))%nat).
  { apply nth_error_Some. congruence. }
  destruct (len (clients (base s)) =? 0) eqn:E.
  - apply Z.eqb_eq in E. unfold len in E. lia.
  - reflexivity.
Qed.

Lemma sequential_rounds_step (n : nat) (s s1 s2 : Seq) cs rest :
  SequentialServer_next s = Ok (cs, s1) ->
  sequential_rounds n s1 = Ok (rest, s2) ->
  sequential_rounds (S n) s = Ok (cs :: rest, s2).
Proof. intros H1 H2. simpl. rewrite H1. simpl. rewrite H2. reflexivity. Qed.

(** From cursor [i], the calls that remain in the turn return the
    clients from position [i] on and bring the cursor back to 0. *)
Lemma skipn_nth_error_cons {A : Type} (l : list A) (i : nat) (a : A) :
  nth_error l i = Some a -> skipn i l = a :: skipn (S i) l.
Proof.
  revert i. induction l as [|x l IH]; intros [|i]; simpl; try discriminate.
  - now intros [= ->].
  - intros H. now apply IH.
Qed.

Lemma sequential_rounds_rest (j : nat) :
  forall (s : Seq) (i : nat),
    wf (clients (base s)) ->
    _idx s = Z.of_nat i ->
    (i + S j = List.length (clients (base s)))%nat ->
    exists s',
      sequential_rounds (S j) s =
        Ok (singletons (skipn i (values (clients (base s)))), s') /\
      clients (base s') = clients (base s) /\
      max_iters (base s') = max_iters (base s) /\
      _idx s' = 0 /\
      communications (base s') = communications (base s) + 2 * Z.of_nat (S j).
Proof.
  induction j as [|j IH]; intros s i Hwf Hidx Hlen.
  - destruct (nth_error (values (clients (base s))) i) as [c|] eqn:Hnth.
    2:{ apply nth_error_None in Hnth. rewrite values_length in Hnth. lia. }
    pose proof (sequential_next_step s i c Hwf Hidx Hnth) as Hstep.
    eexists. split.
    + rewrite (skipn_nth_error_cons _ _ _ Hnth).
      rewrite skipn_all2 by (rewrite values_length; lia).
      apply (sequential_rounds_step 0 _ _ _ _ _ Hstep). reflexivity.
    + simpl. repeat split; try lia.
      unfold len.
      replace (Z.of_nat i + 1) with (Z.of_nat (List.length (clients (base s)))) by lia.
      apply Z.mod_same. lia.
  - destruct (nth_error (values (clients (base s))) i) as [c|] eqn:Hnth.
    2:{ apply nth_error_None in Hnth. rewrite values_length in Hnth. lia. }
    pose proof (sequential_next_step s i c Hwf Hidx Hnth) as Hstep.
    set (s1 := {| base := _; _idx := _ |}) in Hstep.
    destruct (IH s1 (S i)) as [s' [Hr [Hc [Hm [Hi Hcomm]]]]].
    + exact Hwf.
    + subst s1. cbn [_idx]. unfold len.
      rewrite Z.mod_small; lia.
    + subst s1. simpl. lia.
    + exists s'. split.
      * rewrite (skipn_nth_error_cons _ _ _ Hnth).
        apply (sequential_rounds_step (S j) _ _ _ _ _ Hstep). exact Hr.
      * subst s1. simpl in *. repeat split; try assumption. lia.
Qed.

Lemma sequential_rounds_app (n1 n2 : nat) :
  forall (s s1 s2 : Seq) r1 r2,
    sequential_rounds n1 s = Ok (r1, s1) ->
    sequential_rounds n2 s1 = Ok (r2, s2) ->
    sequential_rounds (n1 + n2) s = Ok (r1 ++ r2, s2).
Proof.
  induction n1 as [|n1 IH]; intros s s1 s2 r1 r2 H1 H2.
  - simpl in H1. injection H1 as <- <-. exact H2.
  - cbn [sequential_rounds Nat.add] in *.
    destruct (SequentialServer_next s) as [[cs sa]|]; [|discriminate].
    cbn [bind] in *.
    destruct (sequential_rounds n1 sa) as [[rest sb]|] eqn:E; [|discriminate].
    cbn [bind] in H1. injection H1 as <- <-.
    rewrite (IH sa sb s2 rest r2 E H2). reflexivity.
Qed.

(** [m] full turns from cursor 0. *)
Lemma sequential_rounds_turns (m : nat) :
  forall s : Seq,
    wf (clients (base s)) ->
    clients (base s) <> [] ->
    _idx s = 0 ->
    exists s',
      sequential_rounds (m * List.length (clients (base s))) s =
        Ok (singletons (List.concat (repeat (values (clients (base s))) m)), s') /\
      clients (base s') = clients (base s) /\
      max_iters (base s') = max_iters (base s) /\
      _idx s' = 0 /\
      communications (base s') =
        communications (base s) + 2 * Z.of_nat (m * List.length (clients (base s))).
Proof.
  induction m as [|m IH]; intros s Hwf Hne Hidx.
  - exists s. simpl. repeat split; try assumption. lia.
  - destruct (List.length (clients (base s))) as [|k] eqn:Hk.
    { destruct (clients (base s)); [congruence | discriminate]. }
    destruct (sequential_rounds_rest k s 0 Hwf Hidx) as [s1 [Hr [Hc [Hm [Hi Hcomm]]]]].
    { simpl. congruence. }
    destruct (IH s1) as [s2 [Hr2 [Hc2 [Hm2 [Hi2 Hcomm2]]]]];
      [rewrite Hc; exact Hwf | rewrite Hc; exact Hne | exact Hi |].
    exists s2. split.
    + rewrite Hc, Hk in Hr2.
      cbn [Nat.mul]. rewrite (sequential_rounds_app _ _ _ _ _ _ _ Hr Hr2).
      f_equal. f_equal. simpl. unfold singletons. now rewrite map_app.
    + rewrite Hc2, Hc, Hm2, Hm, Hi2, Hcomm2, Hcomm, Hc, Hk.
      repeat split; try reflexivity. lia.
Qed.

(** C6: a sequential server over [k >= 1] clients built with [iters]
    global iterations has [max_iters = iters * k]; a call of [next] at
    cursor [i] returns exactly the [i]-th client, adds 2 to the
    communication counter and moves the cursor to [(i + 1) mod k]; and
    [m * k] consecutive calls on the fresh server return the clients in
    dictionary order, [m] times over, so that each client is returned
    [m] times (as often as it occurs in the dictionary), the cursor is
    back at 0 and the counter is [2 * m * k]. *)
Theorem sequential_round_robin (cs : dict Client) (md : Model) (iters : Z) (m : nat) :
  wf cs -> cs <> [] ->
  let k := List.length cs in
  let s0 := SequentialServer_init Metric cs md iters in
  max_iters (base s0) = Some (iters * Z.of_nat k) /\
  (forall (s : Seq) (i : nat),
      clients (base s) = cs -> _idx s = Z.of_nat i -> (i < k)%nat ->
      exists c s',
        SequentialServer_next s = Ok ([c], s') /\
        nth_error (values cs) i = Some c /\
        communications (base s') = communications (base s) + 2 /\
        _idx s' = (Z.of_nat i + 1) mod Z.of_nat k /\
        clients (base s') = cs) /\
  (exists s',
      sequential_rounds (m * k) s0 =
        Ok (singletons (List.concat (repeat (values cs) m)), s') /\
      _idx s' = 0 /\
      communications (base s') = 2 * Z.of_nat m * Z.of_nat k) /\
  (forall (dec : forall a b : Client, {a = b} + {a <> b}) (c : Client),
      count_occ dec (List.concat (repeat (values cs) m)) c =
        (m * count_occ dec (values cs) c)%nat).
Proof.
  intros Hwf Hne k s0. repeat split.
  - intros s i Hcs Hidx Hi.
    destruct (nth_error (values cs) i) as [c|] eqn:Hnth.
    2:{ apply nth_error_None in Hnth. rewrite values_length in Hnth. subst k. lia. }
    exists c. eexists. split.
    + rewrite <- Hcs in Hwf, Hnth. apply (sequential_next_step s i c Hwf Hidx Hnth).
    + simpl. rewrite Hcs. repeat split. 
  - destruct (sequential_rounds_turns m s0 Hwf Hne eq_refl)
      as [s' [Hr [_ [_ [Hi Hcomm]]]]].
    exists s'. repeat split; [exact Hr | exact Hi |].
    rewrite Hcomm. subst s0 k.
    cbn [SequentialServer_init base set_name_max_iters Server_init communications clients].
    rewrite Nat2Z.inj_mul. lia.
  - intros dec c. apply count_occ_concat_repeat.
Qed.

End ServerFacts.

Lemma sequential_round_robin_witness :
  exists s',
    Server.sequential_rounds (2 * 3)
      (Server.SequentialServer_init Z [("client0", 10); ("client1", 11); ("client2", 12)] tt 2) =
      Ok ([[10]; [11]; [12]; [10]; [11]; [12]], s') /\
    Server._idx s' = 0 /\
    Server.communications (Server.base s') = 12.
Proof.
  assert (Hwf : wf [("client0", 10); ("client1", 11); ("client2", 12)]).
  { unfold wf. simpl. repeat constructor; simpl; intuition discriminate. }
  destruct (sequential_round_robin Z unit Z
              [("client0", 10); ("client1", 11); ("client2", 12)] tt 2 2 Hwf
              ltac:(discriminate)) as [_ [_ [H _]]].
  exact H.
Defined.

(** ** Loops *)

Lemma for_each_inv {A St : Type} (P : St -> Prop) (body : St -> A -> Result St) :
  (forall s x s', P s -> body s x = Ok s' -> P s') ->
  forall xs st st', P st -> for_each body xs st = Ok st' -> P st'.
Proof.
  intros Hstep. induction xs as [|x xs IH]; simpl; intros st st' HP H.
  - now injection H as <-.
  - destruct (body st x) as [s1|] eqn:E; simpl in H; [|discriminate].
    eapply IH; [eapply Hstep; eauto | exact H].
Qed.

Lemma for_each_app {A St : Type} (body : St -> A -> Result St) (xs ys : list A) (st : St) :
  for_each body (xs ++ ys) st = (st' <- for_each body xs st ;; for_each body ys st').
Proof.
  revert st. induction xs as [|x xs IH]; simpl; intros st; [reflexivity|].
  destruct (body st x); simpl; auto.
Qed.

Lemma enumerate_from_map_snd {A : Type} (xs : list A) (i : Z) :
  map snd (enumerate_from i xs) = xs.
Proof.
  revert i. induction xs as [|x xs IH]; simpl; intros i; [reflexivity|].
  now rewrite IH.
Qed.

(** ** The inducing-point network *)

Section GibnnFacts.

Import Gibnn.

Context {num : Numeric}.

(** *** The cache is never [None] *)

Lemma layer_body_cache (self : GIBNN) ps ts st item st' :
  layer_body self ps ts st item = Ok st' -> cache st' <> None.
Proof.
  destruct item as [i [layer_name p]]. unfold layer_body.
  intros H.
  apply bind_Ok in H. destruct H as [layer_ts [_ H]].
  apply bind_Ok in H. destruct H as [q [_ H]].
  destruct (nn_sample q (key st)) as [key' wl].
  apply bind_Ok in H. destruct H as [c [_ H]].
  apply bind_Ok in H. destruct H as [[zs' cn'] [_ H]].
  injection H as <-. discriminate.
Qed.

Lemma sample_posterior_cache (self : GIBNN) key0 ps ts zs S k c self' :
  sample_posterior self key0 ps ts zs S = Ok (k, c, self') ->
  _cache self <> None ->
  c <> None /\ _cache self' = c /\ nonlinearity self' = nonlinearity self.
Proof.
  unfold sample_posterior. intros H Hc.
  apply bind_Ok in H. destruct H as [[zs0 cn0] [_ H]].
  apply bind_Ok in H. destruct H as [st [Hloop H]].
  injection H as <- <- <-. simpl. repeat split.
  eapply (for_each_inv (fun s => cache s <> None)); [| |exact Hloop].
  - intros s x s' _ Hb. eapply layer_body_cache; eauto.
  - exact Hc.
Qed.

Lemma reachable_with_dicts_cache (self : GIBNN) :
  reachable_with_dicts self -> _cache self <> None.
Proof.
  unfold reachable_with_dicts.
  induction 1 as [nonlin | self key0 ps ts zs S k c self' _ IH Hs | self c _ _ Hc].
  - discriminate.
  - destruct (sample_posterior_cache _ _ _ _ _ _ _ _ _ Hs IH) as [H1 [H2 _]].
    congruence.
  - exact Hc.
Qed.

(** The guard of line 70 is taken exactly on an object without cache. *)
Lemma propagate_none_iff (self : GIBNN) (x : Tensor) :
  propagate self x = Ok None <-> _cache self = None.
Proof.
  unfold propagate. destruct (_cache self) as [c|]; [|tauto].
  split; [|discriminate]. intros H. exfalso.
  destruct (ndim x =? 2).
  - destruct (S self) as [s|]; simpl in H; [|discriminate].
    destruct (for_each _ _ _); simpl in H; discriminate.
  - simpl in H. destruct (for_each _ _ _); simpl in H; discriminate.
Qed.

(** Without a cache the assignment of line 48 fails: the layer loop gets
    through no layer. *)
Lemma layer_body_none_cache (self : GIBNN) ps ts st item :
  cache st = None -> ~ returns (layer_body self ps ts st item).
Proof.
  intros Hc [st' H]. destruct item as [i [layer_name p]]. unfold layer_body in H.
  apply bind_Ok in H. destruct H as [layer_ts [_ H]].
  apply bind_Ok in H. destruct H as [q [_ H]].
  destruct (nn_sample q (key st)) as [key' wl].
  apply bind_Ok in H. destruct H as [c [Hcache _]].
  rewrite Hc in Hcache. discriminate.
Qed.

Lemma sample_posterior_none_cache (self : GIBNN) key0 ps ts zs S k c self' :
  sample_posterior self key0 ps ts zs S = Ok (k, c, self') ->
  _cache self = None ->
  c = None /\ ps = [] /\ k = key0.
Proof.
  unfold sample_posterior. intros H Hc.
  apply bind_Ok in H. destruct H as [[zs0 cn0] [_ H]].
  apply bind_Ok in H. destruct H as [st [Hloop H]].
  injection H as <- <- _.
  destruct ps as [|[layer_name p] ps'].
  - simpl in Hloop. injection Hloop as <-. simpl. auto.
  - exfalso. cbn [items enumerate enumerate_from for_each] in Hloop.
    apply bind_Ok in Hloop. destruct Hloop as [st1 [Hb _]].
    eapply layer_body_none_cache; [|eexists; exact Hb]. exact Hc.
Qed.

(** C10 (what the code does): a freshly constructed [GIBNN] holds the
    empty dictionary as its cache, not [None].  [propagate] takes its
    [return None] branch exactly when the cache is [None];
    [sample_posterior] never turns a dictionary into [None]; so the
    branch is never taken in a state in which the [cache] setter has only
    been handed dictionaries.  The setter stores whatever it is handed:
    after [self.cache = None] on any state the branch is taken.  On a
    2-dimensional input, before any [sample_posterior], [propagate] raises
    the key error of the [S] property's lookup of ['layer0']. *)
Theorem fresh_cache_is_empty_dict :
  (forall nonlin, _cache (init nonlin) = Some empty) /\
  (forall self x, propagate self x = Ok None <-> _cache self = None) /\
  (forall self key0 ps ts zs S k c self',
     sample_posterior self key0 ps ts zs S = Ok (k, c, self') ->
     _cache self <> None -> _cache self' <> None) /\
  (forall self, reachable_with_dicts self ->
     _cache self <> None /\ forall x, propagate self x <> Ok None) /\
  (forall self, reachable self ->
     reachable (set_cache self None) /\
     forall x, propagate (set_cache self None) x = Ok None) /\
  (forall nonlin x, ndim x = 2 ->
     S (init nonlin) = Raise (KeyError "layer0") /\
     propagate (init nonlin) x = Raise (KeyError "layer0")).
Proof.
  split; [reflexivity|]. split; [exact propagate_none_iff|]. split; [|split; [|split]].
  - intros self key0 ps ts zs S0 k c self' Hs Hc.
    destruct (sample_posterior_cache _ _ _ _ _ _ _ _ _ Hs Hc) as [H1 [H2 _]].
    congruence.
  - intros self Hr. pose proof (reachable_with_dicts_cache self Hr) as Hc.
    split; [exact Hc|]. intros x H. apply propagate_none_iff in H. contradiction.
  - intros self Hr. split.
    + unfold reachable in *. apply reach_set_cache; [exact Hr | exact I].
    + intros x. reflexivity.
  - intros nonlin x Hx. split; [reflexivity|].
    unfold propagate. simpl. apply Z.eqb_eq in Hx. rewrite Hx. reflexivity.
Qed.

(** *** [propagate] against the manual chain *)

Lemma propagate_loop_chain (self : GIBNN) (n : Z) :
  forall (c : dict LayerCache) (i : Z) (x : Tensor),
    n = i + len c ->
    for_each (propagate_body self n) (enumerate_from i (items c)) x =
      Ok (manual_chain (nonlinearity self) (weights c) x).
Proof.
  induction c as [|[layer_name l] c IH]; intros i x Hn.
  - reflexivity.
  - cbn [items enumerate_from for_each propagate_body bind].
    unfold items in IH.
    destruct c as [|[layer_name' l'] c'].
    + unfold len in Hn. simpl in Hn.
      replace (i <? n - 1) with false by (symmetry; apply Z.ltb_ge; lia).
      reflexivity.
    + replace (i <? n - 1) with true.
      2:{ symmetry. apply Z.ltb_lt. unfold len in Hn. simpl List.length in Hn. lia. }
      rewrite IH.
      * reflexivity.
      * unfold len in *. simpl List.length in *. lia.
Qed.

Lemma propagate_chain (self : GIBNN) (d : dict LayerCache) (x : Tensor) :
  _cache self = Some d ->
  propagate self x =
    (x' <- lifted d x ;;
     Ok (Some (manual_chain (nonlinearity self) (weights d) x'))).
Proof.
  intros Hc. unfold propagate, lifted, S. rewrite Hc.
  destruct (ndim x =? 2).
  - destruct (getitem d "layer0") as [l0|]; simpl; [|reflexivity].
    unfold enumerate. now rewrite propagate_loop_chain by lia.
  - simpl. unfold enumerate. now rewrite propagate_loop_chain by lia.
Qed.

(** The [S] property names its layer: a 2-dimensional input finds no
    sample count in a cache without a ['layer0'] entry. *)
Lemma propagate_needs_layer0 (self : GIBNN) (d : dict LayerCache) (x : Tensor) :
  _cache self = Some d -> ndim x = 2 -> get d "layer0" = None ->
  propagate self x = Raise (KeyError "layer0").
Proof.
  intros Hc Hx Hl. rewrite (propagate_chain self d x Hc).
  unfold lifted, getitem. apply Z.eqb_eq in Hx. now rewrite Hx, Hl.
Qed.

(** *** The cache of a fresh object follows the layers of [ps] *)

Lemma layer_body_cache_set (self : GIBNN) ps ts st i layer_name p st' c :
  layer_body self ps ts st (i, (layer_name, p)) = Ok st' ->
  cache st = Some c ->
  exists l, cache st' = Some (set layer_name l c).
Proof.
  unfold layer_body. intros H Hc.
  apply bind_Ok in H. destruct H as [layer_ts [_ H]].
  apply bind_Ok in H. destruct H as [q [_ H]].
  destruct (nn_sample q (key st)) as [key' wl].
  rewrite Hc in H. rewrite bind_ret_l in H.
  apply bind_Ok in H. destruct H as [[zs' cn'] [_ H]].
  injection H as <-. eexists. reflexivity.
Qed.

Lemma layer_loop_keys (self : GIBNN) ps ts :
  forall (its : list (Z * (string * NaturalNormal))) st st' c,
    for_each (layer_body self ps ts) its st = Ok st' ->
    cache st = Some c ->
    NoDup (keys c ++ map (fun it => fst (snd it)) its) ->
    exists c', cache st' = Some c' /\
               keys c' = keys c ++ map (fun it => fst (snd it)) its.
Proof.
  induction its as [|[i [layer_name p]] its IH]; intros st st' c H Hc Hnd.
  - simpl in H. injection H as <-. exists c. now rewrite app_nil_r.
  - cbn [for_each] in H. apply bind_Ok in H. destruct H as [st1 [Hb H]].
    destruct (layer_body_cache_set _ _ _ _ _ _ _ _ _ Hb Hc) as [l Hc1].
    assert (Hfresh : ~ In layer_name (keys c)).
    { intros Hin. simpl in Hnd. apply NoDup_remove_2 in Hnd.
      apply Hnd. apply in_or_app. now left. }
    rewrite (set_fresh c layer_name l Hfresh) in Hc1.
    destruct (IH st1 st' _ H Hc1) as [c' [Hc' Hk]].
    + unfold keys. rewrite map_app. simpl. rewrite <- app_assoc. exact Hnd.
    + exists c'. split; [exact Hc'|].
      rewrite Hk. unfold keys. rewrite map_app. simpl. now rewrite <- app_assoc.
Qed.

Lemma layer_loop_keeps (self : GIBNN) ps ts :
  forall (its : list (Z * (string * NaturalNormal))) st st' c,
    for_each (layer_body self ps ts) its st = Ok st' ->
    cache st = Some c ->
    exists c', cache st' = Some c' /\
      forall n, In n (keys c) \/ In n (map (fun it => fst (snd it)) its) ->
                In n (keys c').
Proof.
  induction its as [|[i [layer_name p]] its IH]; intros st st' c H Hc.
  - simpl in H. injection H as <-. exists c. split; [exact Hc|].
    intros n [Hn|[]]. exact Hn.
  - cbn [for_each] in H. apply bind_Ok in H. destruct H as [st1 [Hb H]].
    destruct (layer_body_cache_set _ _ _ _ _ _ _ _ _ Hb Hc) as [l Hc1].
    destruct (IH st1 st' _ H Hc1) as [c' [Hc' Hk]].
    exists c'. split; [exact Hc'|].
    intros n Hn. apply Hk. simpl in Hn.
    rewrite keys_set_in. destruct Hn as [Hn|[Hn|Hn]]; auto.
Qed.

Lemma sample_posterior_has_layers (self : GIBNN) key0 ps ts zs S k d self' :
  sample_posterior self key0 ps ts zs S = Ok (k, Some d, self') ->
  _cache self <> None ->
  forall n, In n (keys ps) -> exists l, get d n = Some l.
Proof.
  unfold sample_posterior. intros H Hc n Hn.
  apply bind_Ok in H. destruct H as [[zs0 cn0] [_ H]].
  apply bind_Ok in H. destruct H as [st [Hloop H]].
  injection H as _ Hd _.
  destruct (_cache self) as [c0|] eqn:Hc0; [|congruence].
  destruct (layer_loop_keeps self ps ts _ _ _ c0 Hloop eq_refl) as [c' [Hc' Hk]].
  rewrite Hd in Hc'. injection Hc' as <-.
  destruct (get d n) as [l|] eqn:Hg; [eauto|].
  exfalso. apply get_None_notin in Hg. apply Hg, Hk. right.
  unfold enumerate, keys, items in *. rewrite <- (map_map snd fst).
  now rewrite enumerate_from_map_snd.
Qed.

Lemma sample_posterior_fresh_layers (self : GIBNN) key0 ps ts zs S k c self' :
  sample_posterior self key0 ps ts zs S = Ok (k, c, self') ->
  _cache self = Some empty -> wf ps ->
  exists d, c = Some d /\ keys d = keys ps.
Proof.
  unfold sample_posterior. intros H Hc Hwf.
  apply bind_Ok in H. destruct H as [[zs0 cn0] [_ H]].
  apply bind_Ok in H. destruct H as [st [Hloop H]].
  injection H as <- <- <-.
  assert (Hk : map (fun it : Z * (string * NaturalNormal) => fst (snd it))
                 (enumerate (items ps)) = keys ps).
  { unfold enumerate, keys, items. rewrite <- (map_map snd fst).
    now rewrite enumerate_from_map_snd. }
  destruct (layer_loop_keys self ps ts _ _ _ empty Hloop Hc) as [c' [Hc' Hk']].
  - simpl. rewrite Hk. exact Hwf.
  - exists c'. split; [exact Hc'|]. rewrite Hk'. simpl. exact Hk.
Qed.

(** C8 (what the code does): the cache a [sample_posterior] call returns
    is the one the object keeps, a dictionary whenever the object held one
    before the call, and [propagate] draws no sample: it takes no random
    state.  For every input [x] that is not 2-dimensional, [propagate x]
    is the manual chain through the cached weights in cache order: the
    product against each transposed weight, the nonlinearity after every
    layer but the last.  A 2-dimensional [x] is first tiled to the sample
    count of the cache entry named ['layer0']: with that entry, which the
    cache holds whenever ['layer0'] is a layer of [ps], [propagate x] is
    the manual chain on the tiled input; without it [propagate x] raises
    the key error of ['layer0'].  On a fresh object the cached layers are
    those of [ps], in the order of [ps].  Without a cache the call returns
    only over no layers, and [propagate] then answers [None]. *)
Theorem propagate_agrees_with_manual_chain
    (self : GIBNN) key0 ps ts zs S k c self' :
  sample_posterior self key0 ps ts zs S = Ok (k, c, self') ->
  _cache self' = c /\
  nonlinearity self' = nonlinearity self /\
  (_cache self <> None -> c <> None) /\
  (c = None -> ps = [] /\ forall x, propagate self' x = Ok None) /\
  forall d, c = Some d ->
    (_cache self = Some empty -> wf ps -> keys d = keys ps) /\
    (forall l, In l (keys ps) -> get d l <> None) /\
    (forall x, ndim x <> 2 ->
       propagate self' x =
         Ok (Some (manual_chain (nonlinearity self) (weights d) x))) /\
    (forall x l0, ndim x = 2 -> get d "layer0" = Some l0 ->
       propagate self' x =
         Ok (Some (manual_chain (nonlinearity self) (weights d)
                     (B_tile x (shape0 (w l0)))))) /\
    (forall x, ndim x = 2 -> get d "layer0" = None ->
       propagate self' x = Raise (KeyError "layer0")).
Proof.
  intros Hs.
  assert (Hc' : _cache self' = c /\ nonlinearity self' = nonlinearity self).
  { unfold sample_posterior in Hs.
    apply bind_Ok in Hs. destruct Hs as [[zs0 cn0] [_ Hs]].
    apply bind_Ok in Hs. destruct Hs as [st [_ Hs]].
    injection Hs as <- <- <-. split; reflexivity. }
  destruct Hc' as [Hc' Hn].
  split; [exact Hc'|]. split; [exact Hn|]. split; [|split].
  - intros Hne. exact (proj1 (sample_posterior_cache _ _ _ _ _ _ _ _ _ Hs Hne)).
  - intros ->. destruct (_cache self) as [d0|] eqn:E0.
    + exfalso.
      destruct (sample_posterior_cache _ _ _ _ _ _ _ _ _ Hs) as [H _];
        [rewrite E0; discriminate | congruence].
    + destruct (sample_posterior_none_cache _ _ _ _ _ _ _ _ _ Hs E0) as [_ [Hp _]].
      split; [exact Hp|]. intros x. now apply propagate_none_iff.
  - intros d ->.
    assert (Hne : _cache self <> None).
    { intros E0.
      destruct (sample_posterior_none_cache _ _ _ _ _ _ _ _ _ Hs E0) as [H _].
      discriminate. }
    split; [|split; [|split; [|split]]].
    + intros He Hwf.
      destruct (sample_posterior_fresh_layers _ _ _ _ _ _ _ _ _ Hs He Hwf)
        as [d' [[= <-] Hk]]. exact Hk.
    + intros l Hin.
      destruct (sample_posterior_has_layers _ _ _ _ _ _ _ _ _ Hs Hne _ Hin) as [l0 Hl].
      congruence.
    + intros x Hx. rewrite (propagate_chain self' d x Hc'), Hn.
      unfold lifted. apply Z.eqb_neq in Hx. now rewrite Hx.
    + intros x l0 Hx Hl.
      rewrite (propagate_chain self' d x Hc'), Hn.
      unfold lifted, getitem. apply Z.eqb_eq in Hx. now rewrite Hx, Hl.
    + intros x Hx Hl. exact (propagate_needs_layer0 self' d x Hc' Hx Hl).
Qed.

End GibnnFacts.

(** ** The freezing protocol *)

Section DictFacts2.

Context {V : Type}.

Lemma set_set (d : dict V) (k : string) (a b : V) :
  set k a (set k b d) = set k a d.
Proof.
  induction d as [|[k' v'] d IH]; simpl.
  - now rewrite String.eqb_refl.
  - destruct (String.eqb k' k) eqn:E; simpl.
    + now rewrite String.eqb_refl.
    + now rewrite E, IH.
Qed.

Lemma in_set (d : dict V) (k : string) (a : V) (k' : string) (v' : V) :
  In (k', v') (set k a d) -> (k' = k /\ v' = a) \/ In (k', v') d.
Proof.
  induction d as [|[k0 v0] d IH]; simpl.
  - intros [[= <- <-]|[]]. auto.
  - destruct (String.eqb k0 k) eqn:E; simpl.
    + intros [[= <- <-]|H]; auto.
    + intros [H|H]; auto. destruct (IH H); auto.
Qed.

Lemma get_set (d : dict V) (k k' : string) (a : V) :
  get (set k a d) k' = if String.eqb k k' then Some a else get d k'.
Proof.
  destruct (String.eqb k k') eqn:E.
  - apply String.eqb_eq in E. subst. apply get_set_same.
  - apply String.eqb_neq in E. now apply get_set_other.
Qed.

End DictFacts2.

Section FreezingFacts.

Import Optimization.

Variable Data : Type.

Local Abbreviation Fac := (Factor Data).
Local Abbreviation Ten := (TensorV Data).
Local Abbreviation Cli := (Client Data).

Lemma setitem2_ensure (l c : string) (v : Fac) (d : dict (dict Fac)) :
  setitem2 l c v (ensure_layer l d) = Ok (upd l c v d).
Proof.
  unfold setitem2, ensure_layer, contains, upd, layer_or_empty, getitem.
  destruct (get d l) as [layer|] eqn:E.
  - rewrite E. reflexivity.
  - rewrite get_set_same. simpl. now rewrite set_set.
Qed.

Lemma setitem2_present (l c : string) (v : Fac) (d : dict (dict Fac)) :
  get d l <> None -> setitem2 l c v d = Ok (upd l c v d).
Proof.
  unfold setitem2, upd, layer_or_empty, getitem.
  destruct (get d l); [reflexivity | congruence].
Qed.

Lemma get2_upd (l c : string) (v : Fac) (d : dict (dict Fac)) (l' c' : string) :
  get2 (upd l c v d) l' c' =
    if String.eqb l l' && String.eqb c c' then Some v else get2 d l' c'.
Proof.
  unfold get2, upd. rewrite get_set.
  destruct (String.eqb l l') eqn:E; simpl; [|reflexivity].
  apply String.eqb_eq in E. subst l'. rewrite get_set.
  destruct (String.eqb c c'); [reflexivity|].
  unfold layer_or_empty. destruct (get d l); reflexivity.
Qed.

Lemma get_upd_present (l c : string) (v : Fac) (d : dict (dict Fac)) (l' : string) :
  get d l' <> None -> get (upd l c v d) l' <> None.
Proof.
  unfold upd. rewrite get_set. destruct (String.eqb l l'); [discriminate | auto].
Qed.

Lemma get_upd_same (l c : string) (v : Fac) (d : dict (dict Fac)) :
  get (upd l c v d) l <> None.
Proof. unfold upd. rewrite get_set_same. discriminate. Qed.

Lemma wf2_upd (l c : string) (v : Fac) (d : dict (dict Fac)) :
  wf2 d -> wf2 (upd l c v d).
Proof.
  intros [Hwf Hin]. split.
  - now apply wf_set.
  - intros l' layer H. apply in_set in H. destruct H as [[-> ->]|H].
    + apply wf_set. unfold layer_or_empty.
      destruct (get d l) as [layer|] eqn:E.
      * apply (Hin l). now apply get_Some_in.
      * constructor.
    + eauto.
Qed.

Lemma wf2_empty : @wf2 Data empty.
Proof. split; [constructor | intros l layer []]. Qed.

Lemma wf2_ensure (l : string) (d : dict (dict Fac)) :
  wf2 d -> wf2 (ensure_layer l d).
Proof.
  intros [Hwf Hin]. unfold ensure_layer. destruct (contains d l); [now split|].
  split; [now apply wf_set|].
  intros l' layer H. apply in_set in H. destruct H as [[-> ->]|H]; [constructor | eauto].
Qed.

Lemma get2_ensure (l : string) (d : dict (dict Fac)) (l' c' : string) :
  get2 (ensure_layer l d) l' c' = get2 d l' c'.
Proof.
  unfold ensure_layer, contains. destruct (get d l) eqn:E; [reflexivity|].
  unfold get2. rewrite get_set. destruct (String.eqb l l') eqn:E'; [|reflexivity].
  apply String.eqb_eq in E'. subst. now rewrite E.
Qed.

Lemma get_ensure (l : string) (d : dict (dict Fac)) :
  get (ensure_layer l d) l <> None.
Proof.
  unfold ensure_layer, contains. destruct (get d l) eqn:E.
  - congruence.
  - rewrite get_set_same. discriminate.
Qed.

(** *** [collect_vp] *)

(** The client's own layers, lines 93-96. *)
Lemma collect_ts_loop (n : string) :
  forall (tc : dict Fac) (acc : dict (dict Fac)),
    wf tc ->
    exists acc',
      for_each (collect_ts_body n) (items tc) acc = Ok acc' /\
      (wf2 acc -> wf2 acc') /\
      forall l c',
        get2 acc' l c' =
          if String.eqb n c'
          then match get tc l with
               | Some f => Some (copy f)
               | None => get2 acc l c'
               end
          else get2 acc l c'.
Proof.
  induction tc as [|[l0 f0] tc IH]; intros acc Hwf.
  - exists acc. split; [reflexivity|]. split; [auto|].
    intros l c'. simpl. now destruct (String.eqb n c').
  - inversion Hwf as [|? ? Hnotin Hwf']; subst.
    cbn [items for_each collect_ts_body]. rewrite setitem2_ensure, bind_ret_l.
    destruct (IH (upd l0 n (copy f0) acc) Hwf') as [acc' [Hr [Hw Hg]]].
    exists acc'. split; [exact Hr|]. split.
    + intros H. apply Hw. now apply wf2_upd.
    + intros l c'. rewrite Hg, get2_upd. simpl.
      destruct (String.eqb n c') eqn:En; [|now rewrite andb_false_r].
      rewrite andb_true_r.
      destruct (String.eqb l0 l) eqn:El; [|reflexivity].
      apply String.eqb_eq in El. subst l0.
      apply get_None_notin in Hnotin. unfold items in *. now rewrite Hnotin.
Qed.

(** What the snapshot holds for client key [c'] at layer [l] when the
    loop of lines 89-96 starts from [acc]. *)
Lemma collect_vp_loop :
  forall (clients : dict Cli) (ats : dict (dict Fac)) (azs : dict Ten),
    wf_clients clients ->
    exists fts fzs,
      for_each (@collect_vp_body Data) (items clients) (ats, azs) = Ok (fts, fzs) /\
      (wf2 ats -> wf2 fts) /\
      (wf azs -> wf fzs) /\
      (forall l c',
          get2 fts l c' =
            match get clients c' with
            | Some cl => match get (t cl) l with
                         | Some f => Some (copy f)
                         | None => get2 ats l c'
                         end
            | None => get2 ats l c'
            end) /\
      (forall c',
          get fzs c' =
            match get clients c' with
            | Some (GI_Client _ cz _) => Some (detach_clone cz)
            | _ => get azs c'
            end).
Proof.
  induction clients as [|[n cl] clients IH]; intros ats azs [Hwf Hts].
  - exists ats, azs. split; [reflexivity|]. split; [auto|]. split; [auto|].
    split; intros; reflexivity.
  - inversion Hwf as [|? ? Hnotin Hwf']; subst.
    cbn [items for_each collect_vp_body].
    destruct (collect_ts_loop n (t cl) ats) as [ats1 [Hr1 [Hw1 Hg1]]].
    { apply (Hts n). now left. }
    rewrite Hr1, !bind_ret_l.
    set (azs1 := match cl with
                 | GI_Client _ cz _ => set n (detach_clone cz) azs
                 | MFVI_Client _ _ => azs
                 end).
    destruct (IH ats1 azs1) as [fts [fzs [Hr [Hw [Hwz [Hg Hz]]]]]].
    { split; [exact Hwf'|]. intros k c Hin. apply (Hts k). now right. }
    exists fts, fzs. split; [exact Hr|]. split; [auto|]. split.
    { intros H. apply Hwz. subst azs1. destruct cl; [now apply wf_set | exact H]. }
    apply get_None_notin in Hnotin. split.
    + intros l c'. rewrite Hg. cbn [get].
      destruct (String.eqb n c') eqn:En.
      * apply String.eqb_eq in En. subst c'. unfold items in *. rewrite Hnotin.
        rewrite Hg1, String.eqb_refl. reflexivity.
      * rewrite Hg1, En. reflexivity.
    + intros c'. rewrite Hz. cbn [get].
      destruct (String.eqb n c') eqn:En.
      * apply String.eqb_eq in En. subst c'. unfold items in *. rewrite Hnotin.
        subst azs1. destruct cl; [apply get_set_same | reflexivity].
      * destruct (get clients c') as [[? ? ?|? ?]|]; try reflexivity;
          subst azs1; destruct cl; try reflexivity;
          apply get_set_other; now apply String.eqb_neq.
Qed.

Lemma collect_vp_spec (clients : dict Cli) :
  wf_clients clients ->
  exists fts fzs,
    collect_vp clients = Ok (fts, fzs) /\
    wf2 fts /\ wf fzs /\
    (forall l c',
        get2 fts l c' =
          match get clients c' with
          | Some cl => option_map (@copy Data) (get (t cl) l)
          | None => None
          end) /\
    (forall c',
        get fzs c' =
          match get clients c' with
          | Some cl => option_map (@detach_clone Data) (z cl)
          | None => None
          end).
Proof.
  intros Hwf.
  destruct (collect_vp_loop clients empty empty Hwf)
    as [fts [fzs [Hr [Hw [Hwz [Hg Hz]]]]]].
  exists fts, fzs. split; [exact Hr|].
  split; [apply Hw, wf2_empty|]. split; [apply Hwz; constructor|]. split.
  - intros l c'. rewrite Hg. destruct (get clients c') as [cl|]; [|reflexivity].
    destruct (get (t cl) l); reflexivity.
  - intros c'. rewrite Hz. destruct (get clients c') as [[? ? ?|? ?]|]; reflexivity.
Qed.

(** *** [collect_frozen_vp] *)

(** One layer of the snapshot, lines 118-122. *)
Lemma frozen_ts_loop (c : Cli) (l : string) :
  forall (layer_t : dict Fac) (acc : dict (dict Fac)),
    wf layer_t ->
    get acc l <> None ->
    (get layer_t (name c) <> None -> get (t c) l <> None) ->
    exists acc',
      for_each (frozen_ts_body c l) (items layer_t) acc = Ok acc' /\
      (wf2 acc -> wf2 acc') /\
      forall l' c',
        get2 acc' l' c' =
          if String.eqb l l'
          then match get layer_t c' with
               | Some f => if String.eqb c' (name c) then get (t c) l
                           else Some (copy f)
               | None => get2 acc l' c'
               end
          else get2 acc l' c'.
Proof.
  induction layer_t as [|[n f] layer_t IH]; intros acc Hwf Hl Hlive.
  - exists acc. split; [reflexivity|]. split; [auto|].
    intros l' c'. simpl. now destruct (String.eqb l l').
  - inversion Hwf as [|? ? Hnotin Hwf']; subst.
    apply get_None_notin in Hnotin.
    cbn [items for_each frozen_ts_body].
    assert (Hstep : exists v,
               frozen_ts_body c l acc (n, f) = Ok (upd l n v acc) /\
               (if String.eqb n (name c) then get (t c) l else Some (copy f)) = Some v).
    { cbn [frozen_ts_body]. destruct (String.eqb n (name c)) eqn:En.
      - apply String.eqb_eq in En. subst n.
        destruct (get (t c) l) as [live|] eqn:El.
        + exists live. unfold getitem. rewrite El, bind_ret_l.
          split; [now apply setitem2_present | reflexivity].
        + exfalso. apply Hlive; [|reflexivity]. cbn [get].
          rewrite String.eqb_refl. discriminate.
      - exists (copy f). split; [now apply setitem2_present | reflexivity]. }
    destruct Hstep as [v [Hstep Hv]]. cbn [frozen_ts_body] in Hstep.
    rewrite Hstep, bind_ret_l.
    destruct (IH (upd l n v acc) Hwf') as [acc' [Hr [Hw Hg]]].
    + apply get_upd_same.
    + intros H. apply Hlive. cbn [get].
      destruct (String.eqb n (name c)); [discriminate | exact H].
    + exists acc'. split; [exact Hr|]. split.
      * intros H. apply Hw. now apply wf2_upd.
      * intros l' c'. rewrite Hg, get2_upd. cbn [get].
        destruct (String.eqb l l') eqn:El; [|reflexivity]. simpl.
        destruct (String.eqb n c') eqn:En; [|reflexivity].
        apply String.eqb_eq in En. subst c'. unfold items in *.
        rewrite Hnotin. now rewrite Hv.
Qed.

Lemma get2_cons (l0 : string) (lt0 : dict Fac) (fts : dict (dict Fac)) (l' c' : string) :
  get2 ((l0, lt0) :: fts) l' c' =
    if String.eqb l0 l' then get lt0 c' else get2 fts l' c'.
Proof. unfold get2. cbn [get]. now destruct (String.eqb l0 l'). Qed.

Lemma get2_absent_layer (fts : dict (dict Fac)) (l c' : string) :
  get fts l = None -> get2 fts l c' = None.
Proof. unfold get2. now intros ->. Qed.

(** All layers of the snapshot, lines 114-122. *)
Lemma frozen_layer_loop (c : Cli) :
  forall (fts acc : dict (dict Fac)),
    wf2 fts ->
    (forall l, get2 fts l (name c) <> None -> get (t c) l <> None) ->
    exists acc',
      for_each (frozen_layer_body c) (items fts) acc = Ok acc' /\
      (wf2 acc -> wf2 acc') /\
      forall l' c',
        get2 acc' l' c' =
          match get2 fts l' c' with
          | Some f => if String.eqb c' (name c) then get (t c) l'
                      else Some (copy f)
          | None => get2 acc l' c'
          end.
Proof.
  induction fts as [|[l0 lt0] fts IH]; intros acc [Hwf Hin] Hlive.
  - exists acc. split; [reflexivity|]. split; [auto|]. reflexivity.
  - inversion Hwf as [|? ? Hnotin Hwf']; subst.
    apply get_None_notin in Hnotin.
    cbn [items for_each frozen_layer_body].
    destruct (frozen_ts_loop c l0 lt0 (ensure_layer l0 acc)) as [acc1 [Hr1 [Hw1 Hg1]]].
    + apply (Hin l0). now left.
    + apply get_ensure.
    + intros H. apply Hlive. rewrite get2_cons.
      now rewrite String.eqb_refl.
    + rewrite Hr1, bind_ret_l.
      destruct (IH acc1) as [acc' [Hr [Hw Hg]]].
      * split; [exact Hwf'|]. intros l layer H. apply (Hin l). now right.
      * intros l H. apply Hlive. rewrite get2_cons.
        destruct (String.eqb l0 l) eqn:El; [|exact H].
        apply String.eqb_eq in El. subst l.
        now rewrite (get2_absent_layer _ _ _ Hnotin) in H.
      * exists acc'. split; [exact Hr|]. split.
        { intros H. apply Hw, Hw1. now apply wf2_ensure. }
        intros l' c'. rewrite Hg, Hg1, get2_ensure, get2_cons.
        destruct (String.eqb l0 l') eqn:El; [|reflexivity].
        apply String.eqb_eq in El. subst l'.
        now rewrite (get2_absent_layer _ _ _ Hnotin).
Qed.

(** The inducing inputs, lines 109-111. *)
Lemma frozen_zs_loop (c : Cli) :
  forall (fz acc : dict Ten) (c' : string),
    wf fz ->
    get (fold_left (frozen_zs_body c) (items fz) acc) c' =
      if String.eqb c' (name c) then get acc c'
      else match get fz c' with
           | Some cz => Some (detach_clone cz)
           | None => get acc c'
           end.
Proof.
  induction fz as [|[n cz] fz IH]; intros acc c' Hwf.
  - simpl. now destruct (String.eqb c' (name c)).
  - inversion Hwf as [|? ? Hnotin Hwf']; subst.
    apply get_None_notin in Hnotin.
    cbn [items fold_left frozen_zs_body]. unfold items in IH. rewrite (IH _ _ Hwf').
    cbn [get].
    destruct (String.eqb c' (name c)) eqn:Ec.
    + destruct (String.eqb n (name c)) eqn:En; simpl; [reflexivity|].
      apply get_set_other. apply String.eqb_eq in Ec. subst c'.
      now apply String.eqb_neq.
    + destruct (String.eqb n c') eqn:En.
      * apply String.eqb_eq in En. subst c'. rewrite Hnotin, Ec. simpl.
        apply get_set_same.
      * destruct (get fz c'); [reflexivity|].
        destruct (String.eqb n (name c)); simpl; [reflexivity|].
        apply get_set_other. now apply String.eqb_neq.
Qed.

Lemma collect_frozen_vp_spec (fts : dict (dict Fac)) (fzs : dict Ten) (c : Cli) :
  wf2 fts -> wf fzs ->
  (forall l, get2 fts l (name c) <> None -> get (t c) l <> None) ->
  exists vts vzs,
    collect_frozen_vp fts (Some fzs) c = Ok (vts, vzs) /\
    (forall l c',
        get2 vts l c' =
          match get2 fts l c' with
          | Some f => if String.eqb c' (name c) then get (t c) l
                      else Some (copy f)
          | None => None
          end) /\
    (forall c',
        get vzs c' =
          match z c with
          | Some cz => if String.eqb c' (name c) then Some cz
                       else option_map (@detach_clone Data) (get fzs c')
          | None => None
          end).
Proof.
  intros Hwf Hwz Hlive.
  destruct (frozen_layer_loop c fts empty Hwf Hlive) as [vts [Hr [_ Hg]]].
  unfold collect_frozen_vp.
  destruct c as [n cz tc | n tc]; rewrite bind_ret_l, Hr, bind_ret_l.
  - eexists. eexists. split; [reflexivity|]. split.
    + intros l c'. rewrite Hg. destruct (get2 fts l c'); reflexivity.
    + intros c'. rewrite frozen_zs_loop by exact Hwz. cbn [z name get].
      destruct (String.eqb c' n) eqn:E.
      * rewrite String.eqb_sym, E. reflexivity.
      * rewrite String.eqb_sym, E. destruct (get fzs c'); reflexivity.
  - eexists. eexists. split; [reflexivity|]. split.
    + intros l c'. rewrite Hg. destruct (get2 fts l c'); reflexivity.
    + intros c'. reflexivity.
Qed.

End FreezingFacts.

Section FreezingClaims.

Import Optimization.

Variable Data : Type.

Local Abbreviation Fac := (Factor Data).
Local Abbreviation Ten := (TensorV Data).
Local Abbreviation Cli := (Client Data).

Lemma copy_detached (f : Fac) : detached (copy f).
Proof. split; reflexivity. Qed.

Lemma copy_same_values (f : Fac) : same_values (copy f) f.
Proof. split; reflexivity. Qed.

Lemma copy_copy (f : Fac) : copy (copy f) = copy f.
Proof. reflexivity. Qed.

(** C2: for a dictionary of clients and a client [c] it holds under
    [c]'s name, [collect_vp] followed by [collect_frozen_vp] on the
    snapshot and [c] returns a view in which
    - for every client name other than [c]'s and every layer the entry is
      the snapshot's entry (same values, same detached state): a detached
      copy with the values of that client's live factor;
    - for [c] and every layer the entry is [c.t[layer]] itself, the
      attached factor;
    - for a [GI_Client] [c], [c]'s inducing inputs are [c.z] itself and
      every other client's are the snapshot's detached ones; for any other
      [c] the inducing view is empty. *)
Theorem collect_then_freeze_excluding (clients : dict Cli) (c : Cli) :
  wf_clients clients ->
  In (name c, c) clients ->
  exists fts fzs vts vzs,
    collect_vp clients = Ok (fts, fzs) /\
    collect_frozen_vp fts (Some fzs) c = Ok (vts, vzs) /\
    (forall l n, n <> name c ->
       get2 vts l n = get2 fts l n /\
       forall f, get2 vts l n = Some f ->
         detached f /\
         exists cl lf, get clients n = Some cl /\ get (t cl) l = Some lf /\
                       same_values f lf) /\
    (forall l, get2 vts l (name c) = get (t c) l) /\
    (forall cz, z c = Some cz ->
       get vzs (name c) = Some cz /\
       forall n, n <> name c ->
         get vzs n = get fzs n /\
         forall v, get vzs n = Some v -> grad v = Detached) /\
    (z c = None -> vzs = empty).
Proof.
  intros Hwf Hin.
  destruct (collect_vp_spec Data clients Hwf) as [fts [fzs [Hc [Hw2 [Hwz [Hg Hz]]]]]].
  assert (Hget : get clients (name c) = Some c).
  { apply in_get; [apply Hwf | exact Hin]. }
  destruct (collect_frozen_vp_spec Data fts fzs c Hw2 Hwz) as [vts [vzs [Hf [Hvg Hvz]]]].
  { intros l. rewrite Hg, Hget. destruct (get (t c) l); [discriminate | tauto]. }
  exists fts, fzs, vts, vzs. split; [exact Hc|]. split; [exact Hf|].
  split; [|split; [|split]].
  - intros l n Hn. apply String.eqb_neq in Hn.
    assert (Heq : get2 vts l n = get2 fts l n).
    { rewrite Hvg, Hn, Hg. destruct (get clients n) as [cl|]; [|reflexivity].
      destruct (get (t cl) l); reflexivity. }
    split; [exact Heq|].
    intros f Hf'. rewrite Heq, Hg in Hf'.
    destruct (get clients n) as [cl|]; [|discriminate].
    destruct (get (t cl) l) as [lf|] eqn:El; [|discriminate].
    injection Hf' as <-. split; [apply copy_detached|].
    exists cl, lf. repeat split; assumption.
  - intros l. rewrite Hvg, Hg, Hget, String.eqb_refl.
    destruct (get (t c) l); reflexivity.
  - intros cz Hcz. split.
    + rewrite Hvz, Hcz, String.eqb_refl. reflexivity.
    + intros n Hn. apply String.eqb_neq in Hn.
      assert (Heq : get vzs n = get fzs n).
      { rewrite Hvz, Hcz, Hn, Hz. destruct (get clients n) as [cl|]; [|reflexivity].
        destruct (z cl); reflexivity. }
      split; [exact Heq|].
      intros v Hv. rewrite Heq, Hz in Hv.
      destruct (get clients n) as [cl|]; [|discriminate].
      destruct (z cl); [|discriminate]. now injection Hv as <-.
  - intros Hzc. unfold collect_frozen_vp in Hf.
    destruct c; [discriminate|].
    rewrite bind_ret_l in Hf. apply bind_Ok in Hf.
    destruct Hf as [a [_ Hf]]. now injection Hf as _ <-.
Qed.

(** C3 (what the code does): [collect_frozen_vp] has no check of the
    client's name.  Given a snapshot that holds nothing under the name of
    [c], it returns normally: the factor view is the snapshot's entries,
    copied, with no entry for [c]; the inducing view is [c.z] itself
    followed by the snapshot's detached inputs when [c] is a [GI_Client],
    and empty otherwise. *)
Theorem collect_frozen_vp_absent_client
    (fts : dict (dict Fac)) (fzs : dict Ten) (c : Cli) :
  wf2 fts -> wf fzs ->
  (forall l, get2 fts l (name c) = None) ->
  get fzs (name c) = None ->
  exists vts vzs,
    collect_frozen_vp fts (Some fzs) c = Ok (vts, vzs) /\
    (forall l n, get2 vts l n = option_map (@copy Data) (get2 fts l n)) /\
    (forall l, get2 vts l (name c) = None) /\
    (forall cz, z c = Some cz ->
       get vzs (name c) = Some cz /\
       forall n, n <> name c ->
         get vzs n = option_map (@detach_clone Data) (get fzs n)) /\
    (z c = None -> vzs = empty).
Proof.
  intros Hw2 Hwz Habs Hzabs.
  destruct (collect_frozen_vp_spec Data fts fzs c Hw2 Hwz) as [vts [vzs [Hf [Hvg Hvz]]]].
  { intros l H. now rewrite Habs in H. }
  exists vts, vzs. split; [exact Hf|]. split; [|split; [|split]].
  - intros l n. rewrite Hvg.
    destruct (get2 fts l n) as [f|] eqn:E; [|reflexivity].
    destruct (String.eqb n (name c)) eqn:En; [|reflexivity].
    apply String.eqb_eq in En. subst n. rewrite Habs in E. discriminate.
  - intros l. now rewrite Hvg, Habs.
  - intros cz Hcz. split.
    + now rewrite Hvz, Hcz, String.eqb_refl.
    + intros n Hn. apply String.eqb_neq in Hn. now rewrite Hvz, Hcz, Hn.
  - intros Hzc. unfold collect_frozen_vp in Hf.
    destruct c; [discriminate|].
    rewrite bind_ret_l in Hf. apply bind_Ok in Hf.
    destruct Hf as [a [_ Hf]]. now injection Hf as _ <-.
Qed.

End FreezingClaims.

Ltac nodup_strings :=
  repeat (constructor; [simpl; intuition discriminate|]); constructor.

Lemma collect_then_freeze_excluding_witness :
  exists vts vzs,
    Optimization.collect_frozen_vp Scenario.frozen_ts (Some Scenario.frozen_zs)
      Scenario.client0 = Ok (vts, vzs) /\
    get2 vts "layer1" "client0" = Some (Scenario.factor 120 4) /\
    get2 vts "layer1" "client1" = Some (Scenario.frozen 220) /\
    get vzs "client0" = Some (Scenario.live 100 1).
Proof.
  assert (Hwf : Optimization.wf_clients Scenario.clients).
  { split; [unfold wf; simpl; nodup_strings|].
    intros k c [[= <- <-]|[[= <- <-]|[]]]; unfold wf; simpl; nodup_strings. }
  destruct (collect_then_freeze_excluding Z Scenario.clients Scenario.client0 Hwf)
    as [fts [fzs [vts [vzs [Hc [Hf [Ho [Ha [Hz _]]]]]]]]].
  { simpl. now left. }
  vm_compute in Hc. injection Hc as <- <-.
  exists vts, vzs. split; [exact Hf|]. split; [|split].
  - apply (Ha "layer1").
  - destruct (Ho "layer1" "client1") as [-> _]; [discriminate | reflexivity].
  - apply (Hz (Scenario.live 100 1)). reflexivity.
Defined.

(** C3 (the claim as stated fails): a call with a client the snapshot does
    not hold returns a view; nothing is raised. *)
Lemma collect_frozen_vp_unknown_client_returns :
  Optimization.collect_vp Scenario.clients =
    Ok (Scenario.frozen_ts, Scenario.frozen_zs) /\
  get2 Scenario.frozen_ts "layer0" "client9" = None /\
  get2 Scenario.frozen_ts "layer1" "client9" = None /\
  get Scenario.frozen_zs "client9" = None /\
  Optimization.collect_frozen_vp Scenario.frozen_ts (Some Scenario.frozen_zs)
    Scenario.client9 =
    Ok (Scenario.frozen_ts, ("client9", Scenario.live 900 11) :: Scenario.frozen_zs).
Proof. repeat split; reflexivity. Qed.

Lemma frozen_ts_wf2 : Optimization.wf2 Scenario.frozen_ts.
Proof.
  split; [unfold wf; simpl; nodup_strings|].
  intros l layer [[= <- <-]|[[= <- <-]|[]]]; unfold wf; simpl; nodup_strings.
Qed.

Lemma collect_frozen_vp_absent_client_witness :
  exists vts vzs,
    Optimization.collect_frozen_vp Scenario.frozen_ts (Some Scenario.frozen_zs)
      Scenario.client9 = Ok (vts, vzs) /\
    get2 vts "layer0" "client9" = None /\
    get vzs "client9" = Some (Scenario.live 900 11).
Proof.
  destruct (collect_frozen_vp_absent_client Z Scenario.frozen_ts Scenario.frozen_zs
              Scenario.client9 frozen_ts_wf2)
    as [vts [vzs [Hf [_ [Habs [Hz _]]]]]].
  - unfold wf; simpl; nodup_strings.
  - intros l. unfold Scenario.frozen_ts. rewrite !(get2_cons Z).
    destruct (String.eqb "layer0" l); [reflexivity|].
    destruct (String.eqb "layer1" l); reflexivity.
  - reflexivity.
  - exists vts, vzs. split; [exact Hf|]. split; [apply Habs|].
    apply (Hz (Scenario.live 900 11)). reflexivity.
Defined.

(** ** The local free energy *)

Section EstimatorFacts.

Import Optimization.

Variables Tensor RandomState Prior Pseudo Inducing Model : Type.
Variable ar : Arith Tensor.
Variable ops : ModelOps Tensor RandomState Prior Pseudo Inducing Model.

Lemma sample_supported
    (key : RandomState) (model : Model) (client_name : string)
    (ps : dict Prior) (ts : dict (dict Pseudo)) (zs : dict Inducing) (S : Z) :
  returns (sample ops key model client_name ps ts zs S) ->
  class_of ops model = IsGIBNN \/ class_of ops model = IsMFVI.
Proof.
  unfold sample. intros [a H].
  destruct (class_of ops model); [now left | now right | discriminate].
Qed.

(** The dispatch of lines 140-145 returns through one of the two
    [sample_posterior]. *)
Lemma sample_Ok_iff
    (key : RandomState) (model : Model) (client_name : string)
    (ps : dict Prior) (ts : dict (dict Pseudo)) (zs : dict Inducing) (S : Z)
    (key' : RandomState) (model' : Model) :
  sample ops key model client_name ps ts zs S = Ok (key', model') <->
  (class_of ops model = IsGIBNN /\
   gi_sample_posterior ops model key ps ts zs S client_name = Ok (key', model')) \/
  (class_of ops model = IsMFVI /\
   mfvi_sample_posterior ops model key ps ts S = Ok (key', model')).
Proof.
  unfold sample. destruct (class_of ops model); split.
  - intros H. left. auto.
  - intros [[_ H]|[H _]]; [exact H | discriminate].
  - intros H. right. auto.
  - intros [[H _]|[_ H]]; [discriminate | exact H].
  - discriminate.
  - intros [[H _]|[H _]]; discriminate.
Qed.

(** The converse: a call that returns has gone through the five steps. *)
Lemma estimate_local_vfe_inv
    (key : RandomState) (model : Model) (client_name : string) (x y : Tensor)
    (ps : dict Prior) (ts : dict (dict Pseudo)) (zs : dict Inducing) (S N : Z)
    (r : Vfe Tensor RandomState) (model' : Model) :
  estimate_local_vfe ar ops key model client_name x y ps ts zs S N = Ok (r, model') ->
  exists out kl exp_ll,
    sample ops key model client_name ps ts zs S = Ok (vfe_key r, model') /\
    propagate ops model' x = Ok out /\
    get_total_kl ops model' = Ok kl /\
    compute_ell ops model' out y = Ok exp_ll /\
    compute_error ops model' out y = Ok (vfe_error r) /\
    vfe_elbo r = t_mean ar (t_sub ar exp_ll (t_div_int ar kl N)) /\
    vfe_exp_ll r = t_mean ar exp_ll /\
    vfe_kl r = t_mean ar kl.
Proof.
  unfold estimate_local_vfe. intros H.
  apply bind_Ok in H. destruct H as [[k1 m1] [Hs H]].
  apply bind_Ok in H. destruct H as [out [Hp H]].
  apply bind_Ok in H. destruct H as [kl [Hk H]].
  apply bind_Ok in H. destruct H as [ell [He H]].
  apply bind_Ok in H. destruct H as [err [Herr H]].
  injection H as <- <-. simpl.
  exists out, kl, ell. repeat split; assumption.
Qed.

(** C4: [estimate_local_vfe] draws a fresh posterior first, with the
    [sample_posterior] of the model's class (that of [GIBNN] on [key],
    [ps], [ts], [zs], [S] and the client's name, that of [MFVI] on [key],
    [ps], [ts] and [S]), and raises [NotImplementedError] for a model of
    neither class.  When the sample and the four other methods return, the
    call returns the key of the fresh sample and the mean over the samples
    of [exp_ll - kl / N], where [exp_ll] is the expected log-likelihood of
    the output the freshly sampled model gives on the minibatch and [kl]
    the total KL of that model; alongside it the means of [exp_ll] and of
    [kl] and the error.  Conversely every value the call returns is of
    this form.  The size of the minibatch enters neither term. *)
Theorem estimate_local_vfe_elbo
    (key : RandomState) (model : Model) (client_name : string) (x y : Tensor)
    (ps : dict Prior) (ts : dict (dict Pseudo)) (zs : dict Inducing) (S N : Z) :
  (class_of ops model = IsOther ->
   estimate_local_vfe ar ops key model client_name x y ps ts zs S N =
     Raise NotImplementedError) /\
  (forall key' model' out kl exp_ll error,
     (class_of ops model = IsGIBNN /\
      gi_sample_posterior ops model key ps ts zs S client_name =
        Ok (key', model')) \/
     (class_of ops model = IsMFVI /\
      mfvi_sample_posterior ops model key ps ts S = Ok (key', model')) ->
     propagate ops model' x = Ok out ->
     get_total_kl ops model' = Ok kl ->
     compute_ell ops model' out y = Ok exp_ll ->
     compute_error ops model' out y = Ok error ->
     estimate_local_vfe ar ops key model client_name x y ps ts zs S N =
       Ok ({| vfe_key := key';
              vfe_elbo := t_mean ar (t_sub ar exp_ll (t_div_int ar kl N));
              vfe_exp_ll := t_mean ar exp_ll;
              vfe_kl := t_mean ar kl;
              vfe_error := error |}, model')) /\
  (forall r model',
     estimate_local_vfe ar ops key model client_name x y ps ts zs S N =
       Ok (r, model') ->
     ((class_of ops model = IsGIBNN /\
       gi_sample_posterior ops model key ps ts zs S client_name =
         Ok (vfe_key r, model')) \/
      (class_of ops model = IsMFVI /\
       mfvi_sample_posterior ops model key ps ts S = Ok (vfe_key r, model'))) /\
     exists out kl exp_ll,
       propagate ops model' x = Ok out /\
       get_total_kl ops model' = Ok kl /\
       compute_ell ops model' out y = Ok exp_ll /\
       compute_error ops model' out y = Ok (vfe_error r) /\
       vfe_elbo r = t_mean ar (t_sub ar exp_ll (t_div_int ar kl N)) /\
       vfe_exp_ll r = t_mean ar exp_ll /\
       vfe_kl r = t_mean ar kl).
Proof.
  split; [|split].
  - intros Hc. unfold estimate_local_vfe, sample. rewrite Hc. reflexivity.
  - intros key' model' out kl exp_ll error Hs Hp Hk He Herr.
    apply sample_Ok_iff in Hs. unfold estimate_local_vfe.
    rewrite Hs, bind_ret_l. cbv beta iota.
    rewrite Hp, bind_ret_l, Hk, bind_ret_l, He, bind_ret_l, Herr, bind_ret_l.
    reflexivity.
  - intros r model' H.
    destruct (estimate_local_vfe_inv _ _ _ _ _ _ _ _ _ _ _ _ H)
      as [out [kl [ell [Hs [Hp [Hk [He [Herr [H1 [H2 H3]]]]]]]]]].
    split; [now apply sample_Ok_iff|].
    exists out, kl, ell. repeat split; assumption.
Qed.

End EstimatorFacts.

(** Handed an object of the class of src/gi/gibnn.py itself, the call
    raises at its first step and nothing else is called: the classes it is
    written for are those with a [cavity_client] keyword. *)
Lemma estimate_local_vfe_on_src_class
    (ar : Optimization.Arith Sym.tensor) (key : Sym.rstate)
    (model : Gibnn.GIBNN) (client_name : string) (x y : Sym.tensor)
    (ps : dict Sym.normal) (ts : dict (dict string)) (zs : dict Sym.tensor)
    (S N : Z) :
  Optimization.estimate_local_vfe ar SrcModel.ops key model client_name
    x y ps ts zs S N = Raise TypeError.
Proof. reflexivity. Qed.

(** *** Two runs of the estimator *)

Section EstimatorRuns.

Import Optimization.

Variables Tensor RandomState Prior Pseudo Inducing Model : Type.
Variable ar : Arith Tensor.

(** The methods of the model as they answer in a first and in a second
    run. *)
Variables ops1 ops2 : ModelOps Tensor RandomState Prior Pseudo Inducing Model.


End EstimatorRuns.


(** *** Exact arithmetic: the mean of [exp_ll - kl / N] *)

Section ElboArithmetic.

Import QVec.
Local Open Scope Q_scope.

Lemma sum_sub_div (ell kl : vec) (n : Q) :
  List.length ell = List.length kl ->
  sum (map (fun p => fst p - snd p) (combine ell (map (fun v => v / n) kl))) ==
    sum ell - sum kl / n.
Proof.
  revert kl. induction ell as [|e ell IH]; intros [|k kl] Hlen; try discriminate.
  - simpl. unfold Qdiv. ring.
  - simpl in *. injection Hlen as Hlen. rewrite (IH kl Hlen).
    unfold Qdiv. ring.
Qed.

(** With [S] per-sample values on either side, the value the estimator
    returns is the mean expected log-likelihood minus the mean KL over
    [N]. *)
Lemma elbo_mean_splits (ell kl : vec) (N : Z) :
  List.length ell = List.length kl ->
  mean1 (sub ell (div_int kl N)) == mean1 ell - mean1 kl / inject_Z N.
Proof.
  intros Hlen. unfold mean1, sub, div_int.
  rewrite sum_sub_div by exact Hlen.
  rewrite length_map, length_combine, length_map, <- Hlen, Nat.min_id.
  unfold Qdiv. ring.
Qed.

(** The estimator over exact arithmetic, whatever the model: the value it
    returns as [elbo] is one number, the mean of the expected
    log-likelihood minus the mean of the KL over [N]. *)
Lemma estimate_local_vfe_elbo_exact
    (RandomState Prior Pseudo Inducing Model : Type)
    (ops : Optimization.ModelOps vec RandomState Prior Pseudo Inducing Model)
    (key : RandomState) (model : Model) (client_name : string) (x y : vec)
    (ps : dict Prior) (ts : dict (dict Pseudo)) (zs : dict Inducing) (S N : Z)
    (r : Optimization.Vfe vec RandomState) (model' : Model) :
  Optimization.estimate_local_vfe arith ops key model client_name x y ps ts zs S N =
    Ok (r, model') ->
  exists out ell kl e,
    Optimization.propagate ops model' x = Ok out /\
    Optimization.compute_ell ops model' out y = Ok ell /\
    Optimization.get_total_kl ops model' = Ok kl /\
    Optimization.vfe_elbo r = [e] /\
    (List.length ell = List.length kl ->
     e == mean1 ell - mean1 kl / inject_Z N).
Proof.
  intros H.
  destruct (estimate_local_vfe_inv _ _ _ _ _ _ _ _ _ _ _ _ _ _ _ _ _ _ _ _ H)
    as [out [kl [ell [_ [Hp [Hk [He [_ [Helbo _]]]]]]]]].
  exists out, ell, kl, (mean1 (sub ell (div_int kl N))).
  split; [exact Hp|]. split; [exact He|]. split; [exact Hk|].
  split; [exact Helbo|]. intros Hlen. now apply elbo_mean_splits.
Qed.

End ElboArithmetic.

Lemma estimate_local_vfe_elbo_witness :
  exists r m',
    Optimization.estimate_local_vfe SymModel.arith SymModel.ops (Sym.RSeed 0)
      Scenario.fresh "client0" Scenario.x Scenario.y
      Scenario.ps Scenario.ts Scenario.zs 4 40 = Ok (r, m') /\
    exists ell kl,
      Optimization.vfe_elbo r = Sym.TMean (Sym.TSub ell (Sym.TDivInt kl 40)) /\
      Optimization.vfe_exp_ll r = Sym.TMean ell /\
      Optimization.vfe_kl r = Sym.TMean kl.
Proof.
  destruct (estimate_local_vfe_elbo _ _ _ _ _ _ SymModel.arith SymModel.ops
              (Sym.RSeed 0) Scenario.fresh "client0" Scenario.x Scenario.y
              Scenario.ps Scenario.ts Scenario.zs 4 40) as [_ [Hf _]].
  eexists. eexists. split.
  - eapply Hf; [left; split; vm_compute; reflexivity | ..];
      vm_compute; reflexivity.
  - eexists. eexists. repeat split; reflexivity.
Defined.



Lemma scenario_ps_wf : wf Scenario.ps.
Proof. unfold wf. simpl. nodup_strings. Qed.

(** ** The scenario, run *)

(** C10 (the claim as stated fails): the [cache] setter stores [None],
    and [propagate] then takes its [return None] branch. *)
Lemma propagate_guard_taken_after_setter :
  @Gibnn.reachable Sym.numeric ScenarioMore.unset /\
  Gibnn._cache ScenarioMore.unset = None /\
  Gibnn.propagate ScenarioMore.unset Scenario.x = Ok None.
Proof.
  split; [|split; reflexivity].
  unfold Gibnn.reachable, ScenarioMore.unset, Scenario.fresh.
  apply Gibnn.reach_set_cache; [apply Gibnn.reach_init | exact I].
Qed.

Lemma fresh_cache_is_empty_dict_witness :
  Gibnn.propagate Scenario.fresh Scenario.x = Raise (KeyError "layer0") /\
  Gibnn.propagate Scenario.fresh ScenarioMore.x3 <> Ok None /\
  Gibnn.propagate ScenarioMore.unset Scenario.x = Ok None.
Proof.
  destruct (@fresh_cache_is_empty_dict Sym.numeric) as [_ [_ [_ [Hd [Hs H]]]]].
  split; [|split].
  - destruct (H Sym.TAct Scenario.x eq_refl) as [_ Hp]. exact Hp.
  - destruct (Hd Scenario.fresh) as [_ Hp]; [|apply Hp].
    apply Gibnn.reach_init.
  - destruct (Hs Scenario.fresh) as [_ Hp]; [|apply Hp].
    apply Gibnn.reach_init.
Defined.

(** C8 (the claim as stated fails): a [sample_posterior] over layers
    named ['hidden'] and ['out'] returns a cache of two layers, through
    which the manual chain runs; [propagate] on the 2-dimensional
    minibatch raises the key error of ['layer0']. *)
Lemma propagate_raises_without_layer0 :
  exists k d self',
    Gibnn.sample_posterior Scenario.fresh (Sym.RSeed 0)
      ScenarioMore.ps_named ScenarioMore.ts_named Scenario.zs 4 =
      Ok (k, Some d, self') /\
    keys d = ["hidden"; "out"] /\
    (exists w0 w1,
       Gibnn.weights d = [w0; w1] /\
       @Gibnn.manual_chain Sym.numeric Sym.TAct (Gibnn.weights d)
         (Sym.TTile Scenario.x 4) =
         Sym.TMm (Sym.TAct (Sym.TMm (Sym.TTile Scenario.x 4) w0)) w1) /\
    Sym.rank_of Scenario.x = 2 /\
    Gibnn.propagate self' Scenario.x = Raise (KeyError "layer0").
Proof.
  eexists. eexists. eexists. split; [vm_compute; reflexivity|].
  split; [reflexivity|]. split.
  - eexists. eexists. split; reflexivity.
  - split; reflexivity.
Qed.

Lemma propagate_agrees_with_manual_chain_witness :
  exists k d self',
    Gibnn.sample_posterior Scenario.fresh (Sym.RSeed 0)
      Scenario.ps Scenario.ts Scenario.zs 4 = Ok (k, Some d, self') /\
    keys d = ["layer0"; "layer1"] /\
    exists w0 w1,
      Gibnn.weights d = [w0; w1] /\
      Gibnn.propagate self' Scenario.x =
        Ok (Some (Sym.TMm (Sym.TAct (Sym.TMm (Sym.TTile Scenario.x 4) w0)) w1)).
Proof.
  destruct (Gibnn.sample_posterior Scenario.fresh (Sym.RSeed 0)
              Scenario.ps Scenario.ts Scenario.zs 4) as [[[k c] self']|] eqn:Hs;
    [|vm_compute in Hs; discriminate Hs].
  destruct (@propagate_agrees_with_manual_chain Sym.numeric
              Scenario.fresh (Sym.RSeed 0) Scenario.ps Scenario.ts Scenario.zs 4
              k c self' Hs) as [_ [_ [Hne [_ Hd]]]].
  destruct c as [d|]; [|exfalso; apply Hne; [discriminate | reflexivity]].
  destruct (Hd d eq_refl) as [Hk [_ [_ [H2 _]]]].
  exists k, d, self'. split; [reflexivity|].
  split; [apply Hk; [reflexivity | exact scenario_ps_wf]|].
  vm_compute in Hs. injection Hs as <- <- <-.
  eexists. eexists. split; [reflexivity|].
  rewrite (H2 Scenario.x _ eq_refl eq_refl). reflexivity.
Defined.

(** C1 (where the code departs from the claim): with two clients, the
    factor loop of [sample_posterior] evaluates the factor of [client0]
    at the inducing inputs of [client1], the name the earlier
    [for client_name, ...] loop left in [client_name]; evaluating each
    factor at its own client's inputs gives another posterior, hence
    other cached weights. *)
Theorem sample_posterior_stale_client_name :
  let z0 := Sym.TTile (Sym.TInput "z0" 2 3) 4 in
  let z1 := Sym.TTile (Sym.TInput "z1" 2 3) 4 in
  let q_code := Sym.NMul (Sym.NMul (Sym.NPrior "p0") (Sym.NCall "t00" z1))
                  (Sym.NCall "t01" z1) in
  let q_own := Sym.NMul (Sym.NMul (Sym.NPrior "p0") (Sym.NCall "t00" z0))
                 (Sym.NCall "t01" z1) in
  let layer q :=
    @Gibnn.mkLayer Sym.numeric
      (Sym.TIndexLast0 (Sym.TSample q (Sym.RSeed 0)))
      (Sym.TSumLast (Sym.TKl q (Sym.NPrior "p0"))) in
  @Gibnn.layer_posterior Sym.numeric
    [("client0", z0); ("client1", z1)] (Some "client1")
    (Sym.NPrior "p0") [("client0", "t00"); ("client1", "t01")] = Ok q_code /\
  @Gibnn.layer_posterior_own Sym.numeric
    [("client0", z0); ("client1", z1)]
    (Sym.NPrior "p0") [("client0", "t00"); ("client1", "t01")] = Ok q_own /\
  (exists self',
      Gibnn.sample_posterior Scenario.fresh (Sym.RSeed 0)
        Scenario.ps1 Scenario.ts1 Scenario.zs 4 =
        Ok (Sym.RNext q_code (Sym.RSeed 0), Some [("layer0", layer q_code)], self')) /\
  (exists self',
      Gibnn.sample_posterior_own Scenario.fresh (Sym.RSeed 0)
        Scenario.ps1 Scenario.ts1 Scenario.zs 4 =
        Ok (Sym.RNext q_own (Sym.RSeed 0), Some [("layer0", layer q_own)], self')) /\
  q_code <> q_own.
Proof.
  cbv zeta. split; [reflexivity|]. split; [reflexivity|].
  split; [eexists; vm_compute; reflexivity|].
  split; [eexists; vm_compute; reflexivity|].
  intros H. discriminate H.
Qed.

(** ** Where the factor loop agrees with the specification *)

Lemma for_each_ext_inv {A St : Type} (P : St -> Prop) (f g : St -> A -> Result St) :
  (forall s x, P s -> f s x = g s x) ->
  (forall s x s', P s -> f s x = Ok s' -> P s') ->
  forall xs st, P st -> for_each f xs st = for_each g xs st.
Proof.
  intros Heq Hinv. induction xs as [|x xs IH]; intros st HP; simpl; [reflexivity|].
  rewrite <- (Heq st x HP). destruct (f st x) as [s'|] eqn:E; simpl; [|reflexivity].
  apply IH. eapply Hinv; eauto.
Qed.

Section GibnnFactorLoop.

Import Gibnn.

Context {num : Numeric}.

(** In the code every factor of a layer meets one and the same tensor:
    the inputs stored under the name [client_name] holds. *)
Lemma layer_posterior_at (zs : dict Tensor) (cn : string) (z : Tensor)
    (p : NaturalNormal) (layer_ts : dict NormalPseudoObservation) :
  get zs cn = Some z ->
  layer_posterior zs (Some cn) p layer_ts =
    Ok (fold_left (fun q t => nn_mul q (t_call t z)) (values layer_ts) p).
Proof.
  intros Hz. unfold layer_posterior. generalize (values layer_ts) as l.
  intros l. revert p. induction l as [|t l IH]; intros p; simpl; [reflexivity|].
  unfold getitem. rewrite Hz. simpl. apply IH.
Qed.

Lemma layer_posterior_only_client (zs : dict Tensor) (c : string)
    (p : NaturalNormal) (layer_ts : dict NormalPseudoObservation) :
  only_client c layer_ts ->
  layer_posterior zs (Some c) p layer_ts = layer_posterior_own zs p layer_ts.
Proof. intros [->|[t ->]]; reflexivity. Qed.

Lemma layer_body_one_client (self : GIBNN) ps ts (c : string) st item :
  (forall l lt, get ts l = Some lt -> only_client c lt) ->
  one_client c st ->
  layer_body self ps ts st item = layer_body_own self ps ts st item /\
  forall st', layer_body self ps ts st item = Ok st' -> one_client c st'.
Proof.
  intros Hts [Hcn [z Hz]]. destruct item as [i [layer_name p]].
  unfold layer_body, layer_body_own, getitem.
  destruct (get ts layer_name) as [lt|] eqn:El; simpl; [|split; [reflexivity | discriminate]].
  rewrite Hcn, (layer_posterior_only_client _ _ _ _ (Hts _ _ El)).
  split; [reflexivity|].
  intros st' H.
  destruct (layer_posterior_own (_zs st) p lt) as [q|]; simpl in H; [|discriminate].
  destruct (nn_sample q (key st)) as [key' wl].
  destruct (cache st) as [c0|]; simpl in H; [|discriminate].
  rewrite Hz in H. simpl in H. rewrite String.eqb_refl in H.
  injection H as <-. split; simpl; eauto.
Qed.

(** With a single client, whose factor is the only one of every layer,
    the code forms the posterior the specification describes. *)
Lemma sample_posterior_one_client (self : GIBNN) key0 ps ts (c : string)
    (z : Tensor) (S : Z) :
  (forall l lt, get ts l = Some lt -> only_client c lt) ->
  sample_posterior self key0 ps ts [(c, z)] S =
    sample_posterior_own self key0 ps ts [(c, z)] S.
Proof.
  intros Hts. unfold sample_posterior, sample_posterior_own.
  cbn [items for_each tile_body empty fst set].
  destruct (ndim z =? 2); simpl; [|reflexivity].
  rewrite (for_each_ext_inv (one_client c)
             (layer_body self ps ts) (layer_body_own self ps ts)).
  - reflexivity.
  - intros s x Hs. apply (layer_body_one_client self ps ts c s x Hts Hs).
  - intros s x s' Hs. apply (layer_body_one_client self ps ts c s x Hts Hs).
  - split; simpl; eauto.
Qed.

(** *** What [client_name] holds when the factor loop reads it *)

Lemma last_cons {A : Type} (a d : A) (l : list A) : last (a :: l) d = last l a.
Proof.
  revert a d. induction l as [|b l IH]; intros a d; [reflexivity|].
  change (last (a :: b :: l) d) with (last (b :: l) d).
  now rewrite (IH b d), (IH b a).
Qed.

Lemma keys_set_present {V : Type} (d : dict V) (k : string) (v : V) :
  In k (keys d) -> keys (set k v d) = keys d.
Proof.
  induction d as [|[k' v'] d IH]; simpl; [tauto|].
  destruct (String.eqb k' k) eqn:E; simpl.
  - apply String.eqb_eq in E. now subst.
  - intros [H|H]; [apply String.eqb_neq in E; congruence|]. now rewrite IH.
Qed.

(** After the loop of lines 20-24 [client_name] is the last key of [zs]
    (and stays unbound when [zs] is empty). *)
Lemma tile_loop_client_name (S : Z) :
  forall (zs acc : dict Tensor) (cn : option string) zs0 cn0,
    for_each (tile_body S) (items zs) (acc, cn) = Ok (zs0, cn0) ->
    cn0 = last (map Some (keys zs)) cn.
Proof.
  induction zs as [|[k z] zs IH]; intros acc cn zs0 cn0 H.
  - simpl in H. now injection H as _ <-.
  - cbn [items for_each tile_body] in H.
    destruct (ndim z =? 2); simpl in H; [|discriminate].
    apply IH in H. cbn [keys map fst]. now rewrite last_cons.
Qed.

(** The loop of lines 52-59 leaves the keys of [_zs] as they are and
    [client_name] at the last of them. *)
Lemma forward_loop_client_name (self : GIBNN) (wl : Tensor) (nf : bool) :
  forall (zs acc : dict Tensor) (cn : option string),
    (forall k, In k (keys zs) -> In k (keys acc)) ->
    exists acc',
      for_each (forward_body self wl nf) (items zs) (acc, cn) =
        Ok (acc', last (map Some (keys zs)) cn) /\
      keys acc' = keys acc.
Proof.
  induction zs as [|[k z] zs IH]; intros acc cn Hin.
  - exists acc. split; reflexivity.
  - cbn [items for_each forward_body bind fst].
    destruct (IH (set k (if nf then nonlinearity self (B_mm_tr_b z wl)
                         else B_mm_tr_b z wl) acc) (Some k)) as [acc' [Hr Hk]].
    + intros k' Hk'. rewrite keys_set_present; [|apply Hin; now left].
      apply Hin. now right.
    + exists acc'. split.
      * unfold items in Hr. rewrite Hr. cbn [keys map fst].
        now rewrite last_cons.
      * rewrite Hk. apply keys_set_present. apply Hin. now left.
Qed.

(** So does a whole turn of the layer loop. *)
Lemma layer_body_client_name (self : GIBNN) ps ts st item st' :
  layer_body self ps ts st item = Ok st' ->
  client_name st' = last (map Some (keys (_zs st))) (client_name st) /\
  keys (_zs st') = keys (_zs st).
Proof.
  destruct item as [i [layer_name p]]. unfold layer_body. intros H.
  apply bind_Ok in H. destruct H as [layer_ts [_ H]].
  apply bind_Ok in H. destruct H as [q [_ H]].
  destruct (nn_sample q (key st)) as [key' wl].
  apply bind_Ok in H. destruct H as [c [_ H]].
  destruct (forward_loop_client_name self (index_last0 wl) (i <? len ps - 1)
              (_zs st) (_zs st) (client_name st)) as [acc' [Hr Hk]]; [auto|].
  rewrite Hr, bind_ret_l in H. injection H as <-. simpl. auto.
Qed.

End GibnnFactorLoop.

(* ================================================================== *)
(** * Part III: further properties of the code *)
(* ================================================================== *)

(** ** Schedulers: turns, edges, the mixed server *)

Lemma same_but_communications_refl {Client Model Metric : Type}
    (s : Server.Server Client Model Metric) : same_but_communications s s.
Proof. repeat split. Qed.

Lemma same_but_communications_step {Client Model Metric : Type}
    (s s' : Server.Server Client Model Metric) (c : Z) :
  same_but_communications (Server.set_communications s c) s' ->
  same_but_communications s s'.
Proof. unfold same_but_communications. simpl. tauto. Qed.

Lemma concat_singletons {A : Type} (l : list A) : List.concat (singletons l) = l.
Proof. induction l as [|a l IH]; simpl; [reflexivity | now rewrite IH]. Qed.

Lemma list_getitem_nil {A : Type} (i : Z) :
  list_getitem (@nil A) i = Raise IndexError.
Proof.
  unfold list_getitem. cbn [List.length Z.of_nat].
  set (j := if i <? 0 then i + 0 else i).
  destruct (j <? 0) eqn:E; [reflexivity|].
  apply Z.ltb_ge in E. apply Z.leb_le in E. now rewrite E.
Qed.

Section SchedulerTurns.

Import Server.

Variables Client Model Metric : Type.

Local Abbreviation Seq := (Server.SequentialServer Client Model Metric).

(** [j] calls from cursor [i] that stay within the turn. *)
Lemma sequential_rounds_within (j : nat) :
  forall (s : Seq) (i : nat),
    wf (clients (base s)) ->
    _idx s = Z.of_nat i ->
    (i + j <= List.length (clients (base s)))%nat ->
    (i < List.length (clients (base s)))%nat ->
    exists s',
      sequential_rounds j s =
        Ok (singletons (firstn j (skipn i (values (clients (base s))))), s') /\
      same_but_communications (base s) (base s') /\
      _idx s' = Z.of_nat (i + j) mod len (clients (base s)) /\
      communications (base s') = communications (base s) + 2 * Z.of_nat j.
Proof.
  induction j as [|j IH]; intros s i Hwf Hidx Hlen Hpos.
  - exists s. split; [reflexivity|]. split; [apply same_but_communications_refl|].
    split; [|lia]. rewrite Nat.add_0_r, Hidx. unfold len.
    rewrite Z.mod_small; lia.
  - destruct (nth_error (values (clients (base s))) i) as [c|] eqn:Hnth.
    2:{ apply nth_error_None in Hnth. rewrite values_length in Hnth. lia. }
    pose proof (sequential_next_step _ _ _ s i c Hwf Hidx Hnth) as Hstep.
    set (s1 := {| base := _; _idx := _ |}) in Hstep.
    destruct (Nat.eq_dec (S i) (List.length (clients (base s)))) as [Hlast|Hmore].
    + assert (j = 0%nat) by lia. subst j.
      exists s1. split.
      * rewrite (skipn_nth_error_cons _ _ _ Hnth). simpl.
        apply (sequential_rounds_step _ _ _ 0 _ _ _ _ _ Hstep). reflexivity.
      * subst s1. simpl. split; [repeat split|]. split; [|lia].
        f_equal. lia.
    + destruct (IH s1 (S i)) as [s' [Hr [Hf [Hi Hc]]]].
      * exact Hwf.
      * subst s1. cbn [_idx]. unfold len. rewrite Z.mod_small; lia.
      * subst s1. simpl. lia.
      * subst s1. simpl. lia.
      * exists s'. split.
        { rewrite (skipn_nth_error_cons _ _ _ Hnth). cbn [firstn].
          apply (sequential_rounds_step _ _ _ j _ _ _ _ _ Hstep). exact Hr. }
        subst s1. cbn [base] in *. split.
        { eapply same_but_communications_step. exact Hf. }
        split.
        { rewrite Hi. cbn [clients set_communications]. f_equal. lia. }
        rewrite Hc. cbn [communications set_communications]. lia.
Qed.

(** X1: from any cursor [i < k], [k] consecutive calls of a sequential
    server hand out every client exactly once, starting at position [i]
    and wrapping round, put the cursor back at [i], add [2 * k] to the
    communication counter and change no other field of the server. *)
Theorem sequential_turn_from_any_cursor (s : Seq) (i : nat) :
  wf (clients (base s)) ->
  _idx s = Z.of_nat i ->
  (i < List.length (clients (base s)))%nat ->
  exists s',
    sequential_rounds (List.length (clients (base s))) s =
      Ok (singletons (skipn i (values (clients (base s))) ++
                      firstn i (values (clients (base s)))), s') /\
    _idx s' = _idx s /\
    communications (base s') =
      communications (base s) + 2 * len (clients (base s)) /\
    same_but_communications (base s) (base s').
Proof.
  intros Hwf Hidx Hi.
  set (k := List.length (clients (base s))) in *.
  destruct (sequential_rounds_within (k - i) s i Hwf Hidx) as [s1 [Hr1 [Hf1 [Hi1 Hc1]]]];
    [lia | lia |].
  assert (Hcl : clients (base s1) = clients (base s)) by apply Hf1.
  destruct (sequential_rounds_within i s1 0) as [s2 [Hr2 [Hf2 [Hi2 Hc2]]]].
  - now rewrite Hcl.
  - rewrite Hi1. replace (i + (k - i))%nat with k by lia.
    unfold len. fold k. rewrite Z.mod_same; lia.
  - rewrite Hcl. fold k. lia.
  - rewrite Hcl. fold k. lia.
  - exists s2. split; [|split; [|split]].
    + replace k with ((k - i) + i)%nat at 1 by lia.
      rewrite (sequential_rounds_app _ _ _ _ _ _ _ _ _ _ Hr1 Hr2).
      f_equal. f_equal. unfold singletons. rewrite map_app. f_equal.
      * f_equal. apply firstn_all2. rewrite length_skipn, values_length. fold k. lia.
      * now rewrite Hcl.
    + rewrite Hi2, Hidx, Hcl. simpl. unfold len. fold k. rewrite Z.mod_small; lia.
    + rewrite Hc2, Hc1. unfold len. fold k. lia.
    + unfold same_but_communications in *.
      destruct Hf1 as [? [? [? [? [? [? ?]]]]]]. destruct Hf2 as [? [? [? [? [? [? ?]]]]]].
      repeat split; congruence.
Qed.

(** X2: a call of [next] on a sequential server whose cursor is not
    negative returns exactly when the cursor is inside the dictionary; over
    no clients it raises [IndexError], whatever the cursor. *)
Theorem sequential_next_returns_iff (s : Seq) :
  wf (clients (base s)) ->
  (clients (base s) = [] -> SequentialServer_next s = Raise IndexError) /\
  (0 <= _idx s ->
   (returns (SequentialServer_next s) <-> _idx s < len (clients (base s)))).
Proof.
  intros Hwf. split.
  - intros He. unfold SequentialServer_next, current_client.
    rewrite He. cbn [keys map]. now rewrite list_getitem_nil.
  - intros Hpos. split.
    + intros [a H]. unfold SequentialServer_next, current_client, list_getitem in H.
      rewrite keys_length in H.
      replace (_idx s <? 0) with false in H by (symmetry; apply Z.ltb_ge; lia).
      fold (len (clients (base s))) in H.
      destruct (len (clients (base s)) <=? _idx s) eqn:E.
      * rewrite orb_true_r in H. simpl in H. discriminate.
      * apply Z.leb_gt in E. exact E.
    + intros Hlt. unfold len in Hlt.
      destruct (nth_error (values (clients (base s))) (Z.to_nat (_idx s))) as [c|] eqn:Hnth.
      2:{ apply nth_error_None in Hnth. rewrite values_length in Hnth. lia. }
      eexists. apply (sequential_next_step _ _ _ s (Z.to_nat (_idx s)) c Hwf); [lia | exact Hnth].
Qed.

End SchedulerTurns.

Section MixedServer.

Import Server ServerMore.

Variables Client Model Metric : Type.

Local Abbreviation New := (ServerMore.NewServer Client Model Metric).

Lemma new_rounds_step (n : nat) (s s1 s2 : New) cs rest :
  NewServer_next s = Ok (cs, s1) ->
  new_rounds n s1 = Ok (rest, s2) ->
  new_rounds (S n) s = Ok (cs :: rest, s2).
Proof. intros H1 H2. simpl. rewrite H1. simpl. rewrite H2. reflexivity. Qed.

Lemma new_rounds_app (n1 n2 : nat) :
  forall (s s1 s2 : New) r1 r2,
    new_rounds n1 s = Ok (r1, s1) ->
    new_rounds n2 s1 = Ok (r2, s2) ->
    new_rounds (n1 + n2) s = Ok (r1 ++ r2, s2).
Proof.
  induction n1 as [|n1 IH]; intros s s1 s2 r1 r2 H1 H2.
  - simpl in H1. injection H1 as <- <-. exact H2.
  - cbn [new_rounds Nat.add] in *.
    destruct (NewServer_next s) as [[cs sa]|]; [|discriminate].
    cbn [bind] in *.
    destruct (new_rounds n1 sa) as [[rest sb]|] eqn:E; [|discriminate].
    cbn [bind] in H1. injection H1 as <- <-.
    rewrite (IH sa sb s2 rest r2 E H2). reflexivity.
Qed.

(** One call of the round-robin phase. *)
Lemma new_next_step (s : New) (i : nat) (c : Client) :
  wf (clients (nbase s)) ->
  _global_iter s < len (clients (nbase s)) ->
  n_idx s = Z.of_nat i ->
  nth_error (values (clients (nbase s))) i = Some c ->
  NewServer_next s =
    Ok ([c],
        {| nbase := set_communications (nbase s) (communications (nbase s) + 2);
           _global_iter := _global_iter s + 1;
           n_idx := (Z.of_nat i + 1) mod len (clients (nbase s)) |}).
Proof.
  intros Hwf Hg Hidx Hnth.
  destruct (nth_error_keys_values _ _ _ _ Hnth) as [k [Hk Hkv]].
  unfold NewServer_next, new_current_client.
  apply Z.ltb_lt in Hg. rewrite Hg, Hidx, (list_getitem_nat _ _ _ Hk). simpl.
  rewrite (getitem_nth_key _ _ _ _ Hwf Hkv). simpl.
  assert (Hlen : (i < List.length (clients (nbase s)))%nat).
  { apply nth_error_Some. congruence. }
  destruct (len (clients (nbase s)) =? 0) eqn:E.
  - apply Z.eqb_eq in E. unfold len in E. lia.
  - reflexivity.
Qed.

(** The round-robin phase: [j] calls from the [i]-th call on. *)
Lemma new_rounds_within (j : nat) :
  forall (s : New) (i : nat),
    wf (clients (nbase s)) ->
    _global_iter s = Z.of_nat i ->
    n_idx s = Z.of_nat i ->
    (i + j <= List.length (clients (nbase s)))%nat ->
    exists s',
      new_rounds j s =
        Ok (singletons (firstn j (skipn i (values (clients (nbase s))))), s') /\
      same_but_communications (nbase s) (nbase s') /\
      _global_iter s' = Z.of_nat (i + j) /\
      communications (nbase s') = communications (nbase s) + 2 * Z.of_nat j /\
      ((i < List.length (clients (nbase s)))%nat ->
       n_idx s' = Z.of_nat (i + j) mod len (clients (nbase s))).
Proof.
  induction j as [|j IH]; intros s i Hwf Hg Hidx Hlen.
  - exists s. split; [reflexivity|]. split; [apply same_but_communications_refl|].
    split; [rewrite Hg; f_equal; lia|]. split; [lia|].
    intros Hlt. rewrite Hidx, Nat.add_0_r. unfold len. rewrite Z.mod_small; lia.
  - destruct (nth_error (values (clients (nbase s))) i) as [c|] eqn:Hnth.
    2:{ apply nth_error_None in Hnth. rewrite values_length in Hnth. lia. }
    assert (Hstep := new_next_step s i c Hwf).
    rewrite Hg in Hstep. specialize (Hstep ltac:(unfold len; lia) Hidx Hnth).
    set (s1 := {| nbase := _; _global_iter := _; n_idx := _ |}) in Hstep.
    destruct (Nat.eq_dec (S i) (List.length (clients (nbase s)))) as [Hlast|Hmore].
    + assert (j = 0%nat) by lia. subst j.
      exists s1. split.
      * rewrite (skipn_nth_error_cons _ _ _ Hnth). simpl.
        apply (new_rounds_step 0 _ _ _ _ _ Hstep). reflexivity.
      * subst s1. cbn [nbase _global_iter n_idx]. split; [repeat split|].
        split; [lia|]. split; [cbn [communications set_communications]; lia|].
        intros _. f_equal. lia.
    + destruct (IH s1 (S i)) as [s' [Hr [Hf [Hi [Hc Hx]]]]].
      * exact Hwf.
      * subst s1. cbn [_global_iter]. lia.
      * subst s1. cbn [n_idx]. unfold len. rewrite Z.mod_small; lia.
      * subst s1. simpl. lia.
      * exists s'. split.
        { rewrite (skipn_nth_error_cons _ _ _ Hnth). cbn [firstn].
          apply (new_rounds_step j _ _ _ _ _ Hstep). exact Hr. }
        subst s1. cbn [nbase] in *. split.
        { eapply same_but_communications_step. exact Hf. }
        split; [rewrite Hi; f_equal; lia|]. split.
        { rewrite Hc. cbn [communications set_communications]. lia. }
        intros _. rewrite Hx by (cbn [clients set_communications]; lia).
        cbn [clients set_communications]. f_equal. lia.
Qed.

(** The joint phase: nothing moves. *)
Lemma new_rounds_joint (n : nat) (s : New) :
  len (clients (nbase s)) <= _global_iter s ->
  new_rounds n s = Ok (repeat (values (clients (nbase s))) n, s).
Proof.
  intros Hg. induction n as [|n IH]; [reflexivity|].
  apply (new_rounds_step n s s s); [|exact IH].
  unfold NewServer_next. apply Z.ltb_ge in Hg. now rewrite Hg.
Qed.

(** X3: a fresh [NewServer] over [k] clients hands out the clients one
    at a time, in dictionary order, for its first [k] calls and the whole
    list of clients at every later call; the communication counter rises
    by 2 at each of the first [k] calls and stays at [2 * k] afterwards.
    Its [max_iters] is [2 * k - 1], whatever [iters] it is built with, and
    over no clients it returns the empty list instead of raising. *)
Theorem new_server_schedule (cs : dict Client) (md : Model) (iters : Z) (n : nat) :
  wf cs ->
  let k := List.length cs in
  let s0 := NewServer_init Metric cs md iters in
  max_iters (nbase s0) = Some (2 * Z.of_nat k - 1) /\
  exists s',
    new_rounds n s0 =
      Ok (singletons (firstn n (values cs)) ++ repeat (values cs) (n - k), s') /\
    communications (nbase s') = 2 * Z.of_nat (Nat.min n k) /\
    _global_iter s' = Z.of_nat (Nat.min n k) /\
    same_but_communications (nbase s0) (nbase s').
Proof.
  intros Hwf k s0. split.
  { unfold s0.
    cbn [NewServer_init nbase max_iters set_name_max_iters Server_init clients].
    f_equal. unfold len. fold k. lia. }
  destruct (new_rounds_within (Nat.min n k) s0 0 Hwf eq_refl eq_refl)
    as [s1 [Hr1 [Hf1 [Hg1 [Hc1 _]]]]].
  { simpl. fold k. lia. }
  assert (Hcl : clients (nbase s1) = cs) by apply Hf1.
  destruct (Nat.le_gt_cases n k) as [Hle|Hgt].
  - exists s1. rewrite Nat.min_l in * by exact Hle.
    replace (n - k)%nat with 0%nat by lia. simpl repeat. rewrite app_nil_r.
    split; [exact Hr1|]. split; [rewrite Hc1; simpl; lia|].
    split; [exact Hg1 | exact Hf1].
  - rewrite Nat.min_r in * by lia.
    pose proof (new_rounds_joint (n - k) s1) as Hr2.
    rewrite Hcl in Hr2. specialize (Hr2 ltac:(rewrite Hg1; unfold len; fold k; lia)).
    exists s1. split; [|split; [rewrite Hc1; simpl; lia | split; [exact Hg1 | exact Hf1]]].
    replace n with (k + (n - k))%nat at 1 by lia.
    rewrite (new_rounds_app _ _ _ _ _ _ _ Hr1 Hr2).
    f_equal. f_equal. f_equal. simpl skipn.
    cbn [SequentialServer_init NewServer_init nbase clients set_name_max_iters Server_init].
    rewrite !firstn_all2; [reflexivity | rewrite values_length; fold k; lia
                          | rewrite values_length; fold k; lia].
Qed.

(** X4: for its first [k] calls a fresh [NewServer] is a fresh
    [SequentialServer]: the same clients come back, call by call, and the
    communication counters agree. *)
Theorem new_server_starts_sequential (cs : dict Client) (md : Model)
    (iters iters' : Z) (n : nat) :
  wf cs -> (n <= List.length cs)%nat ->
  exists r s1 s2,
    sequential_rounds n (SequentialServer_init Metric cs md iters) = Ok (r, s1) /\
    new_rounds n (NewServer_init Metric cs md iters') = Ok (r, s2) /\
    communications (base s1) = communications (nbase s2) /\
    _idx s1 = n_idx s2.
Proof.
  intros Hwf Hn. destruct n as [|n].
  { eexists. eexists. eexists. repeat split. }
  set (q0 := SequentialServer_init Metric cs md iters).
  set (s0 := NewServer_init Metric cs md iters').
  destruct (sequential_rounds_within _ _ _ (S n) q0 0 Hwf eq_refl)
    as [q1 [Hq [_ [Hqi Hqc]]]]; [simpl; lia | simpl; lia |].
  destruct (new_rounds_within (S n) s0 0 Hwf eq_refl eq_refl)
    as [s1 [Hs [_ [_ [Hsc Hsi]]]]]; [simpl; lia|].
  eexists. exists q1, s1. split; [exact Hq|]. split; [exact Hs|].
  split; [rewrite Hqc, Hsc; reflexivity|].
  rewrite Hqi, Hsi; [reflexivity | simpl; lia].
Qed.

End MixedServer.

Section SchedulerTotals.

Import Server.

Variables Client Model Metric : Type.

(** X5: built with the same number [m] of global iterations over the
    same clients, a sequential server run for its [max_iters] rounds and
    a synchronous server run for its own end with the same communication
    counter, and every client has been handed out equally often by both
    ("equal number of posterior updates for same number of iterations",
    l.114). *)
Theorem sequential_and_synchronous_totals (cs : dict Client) (md : Model) (m : nat) :
  wf cs -> cs <> [] ->
  let q0 := SequentialServer_init Metric cs md (Z.of_nat m) in
  let y0 := SynchronousServer_init Metric cs md (Z.of_nat m) in
  exists n1 n2 r1 q1,
    max_iters (base q0) = Some (Z.of_nat n1) /\
    max_iters y0 = Some (Z.of_nat n2) /\
    sequential_rounds n1 q0 = Ok (r1, q1) /\
    communications (base q1) = communications (snd (synchronous_rounds n2 y0)) /\
    forall (dec : forall a b : Client, {a = b} + {a <> b}) (c : Client),
      count_occ dec (List.concat r1) c =
        count_occ dec (List.concat (fst (synchronous_rounds n2 y0))) c.
Proof.
  intros Hwf Hne q0 y0.
  destruct (sequential_rounds_turns Client Model Metric m q0 Hwf Hne eq_refl)
    as [q1 [Hr [_ [_ [_ Hc]]]]].
  destruct (synchronous_rounds_spec Client Model Metric m y0) as [Hy1 [_ Hy3]].
  exists (m * List.length cs)%nat, m. eexists. exists q1.
  split; [|split; [reflexivity|split; [exact Hr|split]]].
  - unfold q0.
    cbn [SequentialServer_init base max_iters set_name_max_iters Server_init clients].
    f_equal. unfold len. lia.
  - rewrite Hc, Hy3. unfold q0, y0.
    cbn [SequentialServer_init SynchronousServer_init base communications
         set_name_max_iters Server_init clients].
    unfold len. lia.
  - intros dec c. rewrite Hy1, concat_singletons. reflexivity.
Qed.

End SchedulerTotals.

(** ** Bookkeeping of the server: optimized clients and the metrics log *)

Section SetFacts.

Import ServerMore.

Lemma set_add_in (x y : string) (s : list string) :
  In y (set_add x s) <-> y = x \/ In y s.
Proof.
  unfold set_add. destruct (existsb (String.eqb x) s) eqn:E.
  - split; [auto|]. intros [->|H]; [|exact H].
    apply existsb_exists in E. destruct E as [z [Hz Hxz]].
    apply String.eqb_eq in Hxz. now subst.
  - rewrite in_app_iff. simpl. intuition.
Qed.

Lemma set_add_nodup (x : string) (s : list string) :
  NoDup s -> NoDup (set_add x s).
Proof.
  intros Hnd. unfold set_add. destruct (existsb (String.eqb x) s) eqn:E; [exact Hnd|].
  apply NoDup_app; [exact Hnd | repeat constructor; simpl; tauto|].
  intros y Hy [Hxy|[]]. subst y.
  assert (existsb (String.eqb x) s = true)
    by (apply existsb_exists; exists x; split; [exact Hy | apply String.eqb_refl]).
  congruence.
Qed.

Lemma set_add_present (x : string) (s : list string) :
  In x s -> set_add x s = s.
Proof.
  intros H. unfold set_add.
  replace (existsb (String.eqb x) s) with true; [reflexivity|].
  symmetry. apply existsb_exists. exists x. split; [exact H | apply String.eqb_refl].
Qed.

Lemma set_update_in (xs s : list string) (y : string) :
  In y (set_update s xs) <-> In y xs \/ In y s.
Proof.
  unfold set_update. revert s. induction xs as [|x xs IH]; intros s; simpl.
  - tauto.
  - rewrite IH, set_add_in. intuition.
Qed.

Lemma set_update_nodup (xs s : list string) :
  NoDup s -> NoDup (set_update s xs).
Proof.
  unfold set_update. revert s. induction xs as [|x xs IH]; intros s H; simpl; [exact H|].
  apply IH. now apply set_add_nodup.
Qed.

Lemma set_update_absorbed (xs s : list string) :
  (forall x, In x xs -> In x s) -> set_update s xs = s.
Proof.
  unfold set_update. revert s. induction xs as [|x xs IH]; intros s H; simpl; [reflexivity|].
  rewrite set_add_present by (apply H; now left).
  apply IH. intros y Hy. apply H. now right.
Qed.

End SetFacts.

Section Bookkeeping.

Import Server ServerMore.

Variables Client Model Metric : Type.
Variable name_of : Client -> string.

Local Abbreviation Srv := (Server.Server Client Model Metric).

(** X6: [update_optimized_clients] never forgets a name and keeps the set
    free of repetitions; while the set is smaller or larger than the
    dictionary of clients it takes in the name of every client given; once
    the set has as many names as there are clients the call changes
    nothing, whoever is given; and a second call with the same clients
    changes nothing more. *)
Theorem update_optimized_clients_accumulates (s : Srv) (cs : list Client) :
  let s' := update_optimized_clients name_of s cs in
  (forall n, In n (optimized_clients s) -> In n (optimized_clients s')) /\
  (NoDup (optimized_clients s) -> NoDup (optimized_clients s')) /\
  (Z.of_nat (List.length (optimized_clients s)) <> len (clients s) ->
   forall c, In c cs -> In (name_of c) (optimized_clients s')) /\
  (Z.of_nat (List.length (optimized_clients s)) = len (clients s) -> s' = s) /\
  update_optimized_clients name_of s' cs = s' /\
  (forall n, In n (optimized_clients s') ->
     In n (optimized_clients s) \/ exists c, In c cs /\ name_of c = n).
Proof.
  intros s'. subst s'. unfold update_optimized_clients.
  destruct (Z.of_nat (List.length (optimized_clients s)) =? len (clients s)) eqn:E; simpl.
  - apply Z.eqb_eq in E. repeat split; auto; try congruence.
    now rewrite E, Z.eqb_refl.
  - apply Z.eqb_neq in E. split; [|split; [|split; [|split; [|split]]]].
    + intros n Hn. apply set_update_in. now right.
    + apply set_update_nodup.
    + intros _ c Hc. apply set_update_in. left. now apply in_map.
    + intros H. contradiction.
    + destruct (Z.of_nat (List.length (set_update (optimized_clients s) (map name_of cs)))
                =? len (clients s)); simpl; [reflexivity|].
      unfold set_optimized_clients. simpl. f_equal.
      apply set_update_absorbed. intros x Hx. apply set_update_in. now left.
    + intros n Hn. apply set_update_in in Hn. destruct Hn as [Hn|Hn]; [|now left].
      right. apply in_map_iff in Hn. destruct Hn as [c [Hc Hin]]. eauto.
Qed.

End Bookkeeping.

Section MetricsLog.

Import Server ServerMore.

Variables Client Model Metric : Type.

Local Abbreviation Srv := (Server.Server Client Model Metric).
Local Abbreviation Log := (dict (list Metric)).

Lemma get_log_append (k : string) (v : Metric) (l : Log) (k' : string) :
  get (log_append k v l) k' =
    if String.eqb k k' then Some (column l k ++ [v]) else get l k'.
Proof.
  unfold log_append, column. destruct (get l k) as [c|] eqn:E; now rewrite get_set.
Qed.

Lemma keys_log_append (k : string) (v : Metric) (l : Log) (k' : string) :
  In k' (keys (log_append k v l)) <-> k' = k \/ In k' (keys l).
Proof. unfold log_append. destruct (get l k); apply keys_set_in. Qed.

Lemma get_log_append_all (m : dict Metric) :
  forall (l : Log) (k : string),
    wf m ->
    get (log_append_all m l) k =
      match get m k with
      | Some v => Some (column l k ++ [v])
      | None => get l k
      end.
Proof.
  unfold log_append_all, items.
  induction m as [|[k0 v0] m IH]; intros l k Hwf; [reflexivity|].
  inversion Hwf as [|? ? Hnotin Hwf']; subst.
  apply get_None_notin in Hnotin.
  cbn [fold_left fst snd get]. rewrite IH by exact Hwf'.
  destruct (String.eqb k0 k) eqn:E.
  - apply String.eqb_eq in E. subst k0. rewrite Hnotin, get_log_append.
    now rewrite String.eqb_refl.
  - destruct (get m k); [|now rewrite get_log_append, E].
    unfold column. now rewrite get_log_append, E.
Qed.

Lemma keys_log_append_all (m : dict Metric) :
  forall (l : Log) (k : string),
    In k (keys (log_append_all m l)) <-> In k (keys m) \/ In k (keys l).
Proof.
  unfold log_append_all, items.
  induction m as [|[k0 v0] m IH]; intros l k; simpl; [tauto|].
  rewrite IH, keys_log_append. intuition.
Qed.

Lemma append_inj (p a b : string) : (p ++ a = p ++ b)%string -> a = b.
Proof.
  induction p as [|c p IH]; simpl; [auto|]. intros [= H]. auto.
Qed.

Lemma fold_set_fresh {A V : Type} (f : A -> string) (g : A -> V) :
  forall (xs : list A) (acc : dict V),
    NoDup (keys acc ++ map f xs) ->
    fold_left (fun acc x => set (f x) (g x) acc) xs acc =
      acc ++ map (fun x => (f x, g x)) xs.
Proof.
  induction xs as [|x xs IH]; intros acc Hnd; simpl.
  - now rewrite app_nil_r.
  - rewrite set_fresh.
    + rewrite IH.
      * now rewrite <- app_assoc.
      * unfold keys in *. rewrite map_app, <- app_assoc. exact Hnd.
    + simpl in Hnd. apply NoDup_remove_2 in Hnd.
      intros Hin. apply Hnd. apply in_or_app. now left.
Qed.

Lemma nodup_map_append (p : string) (l : list string) :
  NoDup l -> NoDup (map (String.append p) l).
Proof.
  induction 1 as [|x l Hx Hnd IH]; simpl; constructor; [|exact IH].
  intros Hin. apply in_map_iff in Hin. destruct Hin as [y [Heq Hy]].
  apply append_inj in Heq. now subst.
Qed.

Lemma prefixed_map (p : string) (m : dict Metric) :
  wf m ->
  prefixed p m = map (fun it => (String.append p (fst it), snd it)) m.
Proof.
  intros Hwf. unfold prefixed, items.
  rewrite (fold_set_fresh (fun it : string * Metric => String.append p (fst it)) snd).
  - reflexivity.
  - simpl. rewrite <- (map_map fst (String.append p)).
    now apply nodup_map_append.
Qed.

Lemma keys_prefixed (p : string) (m : dict Metric) :
  wf m -> keys (prefixed p m) = map (String.append p) (keys m).
Proof.
  intros Hwf. rewrite prefixed_map by exact Hwf. unfold keys.
  now rewrite !map_map.
Qed.

Lemma get_prefixed (p : string) (m : dict Metric) (k : string) :
  wf m -> get (prefixed p m) (String.append p k) = get m k.
Proof.
  intros Hwf. rewrite prefixed_map by exact Hwf. clear Hwf.
  induction m as [|[k0 v0] m IH]; [reflexivity|].
  cbn [map fst snd get].
  destruct (String.eqb k0 k) eqn:E.
  - apply String.eqb_eq in E. subst. now rewrite String.eqb_refl.
  - replace (String.eqb (String.append p k0) (String.append p k)) with false; [exact IH|].
    symmetry. apply String.eqb_neq. intros H. apply append_inj in H.
    apply String.eqb_neq in E. contradiction.
Qed.

Lemma train_not_test (a b : string) :
  String.append "train_" a <> String.append "test_" b.
Proof. simpl. intros H. discriminate H. Qed.

Lemma merge_app (a b : dict Metric) :
  NoDup (keys a ++ keys b) -> merge a b = a ++ b.
Proof.
  intros Hnd. unfold merge, items. rewrite (fold_set_fresh fst snd) by exact Hnd.
  f_equal. rewrite <- (map_id b) at 2. apply map_ext. now intros [k v].
Qed.

Lemma get_app {V : Type} (a b : dict V) (k : string) :
  get (a ++ b) k = match get a k with Some v => Some v | None => get b k end.
Proof.
  induction a as [|[k0 v0] a IH]; [reflexivity|]. simpl.
  destruct (String.eqb k0 k); [reflexivity | exact IH].
Qed.

(** The metrics one evaluation appends, after the two counters. *)
Lemma evaluation_metrics (train test : dict Metric) :
  wf train -> wf test ->
  let m := merge (prefixed "train_" train) (prefixed "test_" test) in
  wf m /\
  keys m = map (String.append "train_") (keys train) ++
           map (String.append "test_") (keys test) /\
  (forall k, get m (String.append "train_" k) = get train k) /\
  (forall k, get m (String.append "test_" k) = get test k).
Proof.
  intros Ht Hs m.
  assert (Hnd : NoDup (keys (prefixed "train_" train) ++ keys (prefixed "test_" test))).
  { rewrite !keys_prefixed by assumption.
    apply NoDup_app; try now apply nodup_map_append.
    intros x Hx Hy. apply in_map_iff in Hx. apply in_map_iff in Hy.
    destruct Hx as [a [<- _]]. destruct Hy as [b [Hb _]].
    symmetry in Hb. now apply train_not_test in Hb. }
  assert (Hm : m = prefixed "train_" train ++ prefixed "test_" test)
    by (now apply merge_app).
  split; [|split; [|split]].
  - unfold wf. rewrite Hm. unfold keys at 1. rewrite map_app. exact Hnd.
  - rewrite Hm. unfold keys at 1. rewrite map_app.
    fold (keys (prefixed "train_" train)). fold (keys (prefixed "test_" test)).
    now rewrite !keys_prefixed.
  - intros k. rewrite Hm, get_app, get_prefixed by assumption.
    destruct (get train k) eqn:E; [reflexivity|].
    destruct (get (prefixed "test_" test) (String.append "train_" k)) eqn:E'; [|reflexivity].
    exfalso. apply get_Some_in in E'.
    assert (Hin : In (String.append "train_" k) (keys (prefixed "test_" test))).
    { change (String.append "train_" k) with (fst (String.append "train_" k, m0)).
      now apply in_map. }
    rewrite keys_prefixed in Hin by assumption.
    apply in_map_iff in Hin. destruct Hin as [b [Hb _]].
    symmetry in Hb. now apply train_not_test in Hb.
  - intros k. rewrite Hm, get_app.
    destruct (get (prefixed "train_" train) (String.append "test_" k)) eqn:E.
    + exfalso. apply get_Some_in in E.
      assert (Hin : In (String.append "test_" k) (keys (prefixed "train_" train))).
      { change (String.append "test_" k) with (fst (String.append "test_" k, m0)).
        now apply in_map. }
      rewrite keys_prefixed in Hin by assumption.
      apply in_map_iff in Hin. destruct Hin as [b [Hb _]].
      now apply train_not_test in Hb.
    + now apply get_prefixed.
Qed.

Lemma not_logged_key (train test : dict Metric) (k : string) :
  wf train -> wf test ->
  ~ In k (keys (merge (prefixed "train_" train) (prefixed "test_" test))) ->
  get (merge (prefixed "train_" train) (prefixed "test_" test)) k = None.
Proof. intros _ _ H. now apply get_None_notin. Qed.

Lemma counters_not_metrics (train test : dict Metric) (k : string) :
  wf train -> wf test ->
  k = "communications" \/ k = "iteration" ->
  get (merge (prefixed "train_" train) (prefixed "test_" test)) k = None.
Proof.
  intros Ht Hs Hk. apply get_None_notin.
  destruct (evaluation_metrics train test Ht Hs) as [_ [-> _]].
  intros Hin. apply in_app_or in Hin.
  destruct Hin as [Hin|Hin]; apply in_map_iff in Hin; destruct Hin as [a [Ha _]];
    destruct Hk as [-> | ->]; simpl in Ha; discriminate Ha.
Qed.

(** What a returning evaluation does to the log, column by column. *)
Lemma evaluate_performance_log (of_int : Z -> Metric) (s s' : Srv)
    (train test : dict Metric) (ek : string) :
  wf train -> wf test ->
  evaluate_performance of_int s train test ek = Ok s' ->
  same_but_communications s (set_log s' (log s)) /\
  communications s' = communications s /\
  forall k,
    get (log s') k =
      if String.eqb "communications" k
      then Some (column (log s) k ++ [of_int (communications s)])
      else if String.eqb "iteration" k
      then Some (column (log s) k ++ [of_int (curr_iter s)])
      else match get (merge (prefixed "train_" train) (prefixed "test_" test)) k with
           | Some v => Some (column (log s) k ++ [v])
           | None => get (log s) k
           end.
Proof.
  intros Ht Hs H. unfold evaluate_performance in H.
  apply bind_Ok in H. destruct H as [? [_ H]].
  apply bind_Ok in H. destruct H as [? [_ H]].
  apply bind_Ok in H. destruct H as [? [_ H]].
  apply bind_Ok in H. destruct H as [? [_ H]].
  apply bind_Ok in H. destruct H as [? [_ H]].
  apply bind_Ok in H. destruct H as [? [_ H]].
  injection H as <-. split; [repeat split|]. split; [reflexivity|].
  intros k. cbn [log set_log].
  destruct (evaluation_metrics train test Ht Hs) as [Hwf _].
  rewrite get_log_append_all by exact Hwf.
  destruct (String.eqb "communications" k) eqn:E1.
  - apply String.eqb_eq in E1. subst k.
    rewrite counters_not_metrics by auto.
    rewrite get_log_append. cbn [String.eqb Ascii.eqb Bool.eqb].
    rewrite get_log_append. now rewrite String.eqb_refl.
  - destruct (String.eqb "iteration" k) eqn:E2.
    + apply String.eqb_eq in E2. subst k.
      rewrite counters_not_metrics by auto.
      rewrite get_log_append, String.eqb_refl. f_equal. f_equal.
      unfold column. rewrite get_log_append. reflexivity.
    + assert (Hcol : column (log_append "iteration" (of_int (curr_iter s))
                         (log_append "communications" (of_int (communications s)) (log s))) k
                     = column (log s) k).
      { unfold column. now rewrite !get_log_append, E2, E1. }
      rewrite Hcol. destruct (get _ k); [reflexivity|].
      now rewrite !get_log_append, E2, E1.
Qed.

(** X7: an evaluation returns exactly when the server has its name and
    [max_iters] and both metric dictionaries hold ["mll"] and the error
    key; it then appends exactly one entry to each column it writes
    (["communications"], ["iteration"] and one ["train_..."] or
    ["test_..."] column per metric), the counter, the iteration and the
    metric values respectively, creating a column the log lacks, and
    leaves every other column and every other field of the server alone. *)
Theorem evaluate_performance_appends_one_row (of_int : Z -> Metric) (s : Srv)
    (train test : dict Metric) (ek : string) :
  wf train -> wf test ->
  (returns (evaluate_performance of_int s train test ek) <->
   name s <> None /\ max_iters s <> None /\
   get train "mll" <> None /\ get train ek <> None /\
   get test "mll" <> None /\ get test ek <> None) /\
  forall s',
    evaluate_performance of_int s train test ek = Ok s' ->
    get (log s') "communications" =
      Some (column (log s) "communications" ++ [of_int (communications s)]) /\
    get (log s') "iteration" =
      Some (column (log s) "iteration" ++ [of_int (curr_iter s)]) /\
    (forall k v, get train k = Some v ->
       get (log s') (String.append "train_" k) =
         Some (column (log s) (String.append "train_" k) ++ [v])) /\
    (forall k v, get test k = Some v ->
       get (log s') (String.append "test_" k) =
         Some (column (log s) (String.append "test_" k) ++ [v])) /\
    (forall k, ~ In k (logged_keys train test) -> get (log s') k = get (log s) k) /\
    same_but_communications s (set_log s' (log s)) /\
    communications s' = communications s.
Proof.
  intros Ht Hs. split.
  - unfold evaluate_performance, getitem, returns. split.
    + intros [a H].
      destruct (name s); [|discriminate].
      destruct (get train "mll"); [|discriminate].
      destruct (get train ek); [|discriminate].
      destruct (get test "mll"); [|discriminate].
      destruct (get test ek); [|discriminate].
      destruct (max_iters s); [|discriminate].
      repeat split; discriminate.
    + intros [H1 [H2 [H3 [H4 [H5 H6]]]]].
      destruct (name s); [|congruence].
      destruct (get train "mll"); [|congruence].
      destruct (get train ek); [|congruence].
      destruct (get test "mll"); [|congruence].
      destruct (get test ek); [|congruence].
      destruct (max_iters s); [|congruence].
      eexists. reflexivity.
  - intros s' H.
    destruct (evaluate_performance_log of_int s s' train test ek Ht Hs H) as [Hf [Hc Hg]].
    destruct (evaluation_metrics train test Ht Hs) as [_ [Hk [Htr Hte]]].
    split; [now rewrite Hg|]. split; [now rewrite Hg|].
    split; [|split; [|split; [|split; assumption]]].
    + intros k v Hv. rewrite Hg, Htr, Hv. reflexivity.
    + intros k v Hv. rewrite Hg, Hte, Hv. reflexivity.
    + intros k Hk'. rewrite Hg. unfold logged_keys in Hk'.
      destruct (String.eqb "communications" k) eqn:E1.
      { apply String.eqb_eq in E1. exfalso. apply Hk'. now left. }
      destruct (String.eqb "iteration" k) eqn:E2.
      { apply String.eqb_eq in E2. exfalso. apply Hk'. right. now left. }
      rewrite (proj2 (get_None_notin _ k)); [reflexivity|].
      rewrite Hk. intros Hin. apply Hk'. right. right. exact Hin.
Qed.

(** X8: an evaluation keeps the log rectangular: if the log has [n]
    entries in each of the columns this evaluation writes and no other
    column, it has [n + 1] in each of them afterwards, and every one of
    these columns is there; so the table the experiments build from the
    log at the end has rows of equal length. *)
Theorem evaluate_performance_keeps_log_rectangular (of_int : Z -> Metric)
    (s s' : Srv) (train test : dict Metric) (ek : string) (n : nat) :
  wf train -> wf test ->
  evaluate_performance of_int s train test ek = Ok s' ->
  rectangular n (logged_keys train test) (log s) ->
  rectangular (S n) (logged_keys train test) (log s') /\
  forall k, In k (logged_keys train test) -> In k (keys (log s')).
Proof.
  intros Ht Hs H [Hlen Hkeys].
  destruct (evaluate_performance_log of_int s s' train test ek Ht Hs H) as [_ [_ Hg]].
  destruct (evaluation_metrics train test Ht Hs) as [_ [Hk _]].
  assert (Hone : forall k, In k (logged_keys train test) ->
                   exists v, get (log s') k = Some (column (log s) k ++ [v])).
  { intros k Hin. rewrite Hg.
    destruct (String.eqb "communications" k) eqn:E1; [eauto|].
    destruct (String.eqb "iteration" k) eqn:E2; [eauto|].
    destruct Hin as [Hc|[Hi|Hin]].
    { subst k. rewrite String.eqb_refl in E1. discriminate. }
    { subst k. rewrite String.eqb_refl in E2. discriminate. }
    rewrite <- Hk in Hin.
    destruct (get _ k) as [v|] eqn:E; [eauto|].
    apply get_None_notin in E. contradiction. }
  split; [split|].
  - intros k Hin. destruct (Hone k Hin) as [v Hv].
    unfold column at 1. rewrite Hv, length_app, (Hlen k Hin). simpl. lia.
  - intros k Hin.
    destruct (in_dec string_dec k (logged_keys train test)) as [Hy|Hn]; [exact Hy|].
    exfalso.
    assert (Hsame : get (log s') k = get (log s) k).
    { rewrite Hg.
      destruct (String.eqb "communications" k) eqn:E1.
      { apply String.eqb_eq in E1. exfalso. apply Hn. now left. }
      destruct (String.eqb "iteration" k) eqn:E2.
      { apply String.eqb_eq in E2. exfalso. apply Hn. right. now left. }
      rewrite (proj2 (get_None_notin
                        (merge (prefixed "train_" train) (prefixed "test_" test)) k));
        [reflexivity|].
      rewrite Hk. intros Hin'. apply Hn. right. right. exact Hin'. }
    apply Hn, Hkeys.
    destruct (get (log s) k) as [c|] eqn:E.
    + apply get_Some_in in E. change k with (fst (k, c)). now apply in_map.
    + apply get_None_notin in Hsame. contradiction.
  - intros k Hin. destruct (Hone k Hin) as [v Hv].
    apply get_Some_in in Hv. change k with (fst (k, column (log s) k ++ [v])).
    now apply in_map.
Qed.

(** X9: [update_log] appends the value of every metric to the column
    of its name, creating the column if the log lacks it, and leaves the
    other columns and the other fields of the server alone. *)
Theorem update_log_appends (s : Srv) (metrics : dict Metric) :
  wf metrics ->
  (forall k,
     get (log (update_log s metrics)) k =
       match get metrics k with
       | Some v => Some (column (log s) k ++ [v])
       | None => get (log s) k
       end) /\
  (forall k, In k (keys (log (update_log s metrics))) <->
             In k (keys metrics) \/ In k (keys (log s))) /\
  same_but_communications s (set_log (update_log s metrics) (log s)) /\
  communications (update_log s metrics) = communications s.
Proof.
  intros Hwf. split; [|split; [|split]].
  - intros k. unfold update_log. cbn [log set_log]. now apply get_log_append_all.
  - intros k. unfold update_log. cbn [log set_log]. apply keys_log_append_all.
  - repeat split.
  - reflexivity.
Qed.

End MetricsLog.

(** ** Minibatch windows over the iterations *)

Section MinibatchSweep.

Import Minibatch MinibatchMore.

Lemma seq_shift_map (s n : nat) : seq s n = map (fun j => (s + j)%nat) (seq 0 n).
Proof.
  revert s. induction n as [|n IH]; intros s; [reflexivity|].
  simpl. f_equal; [lia|].
  rewrite (IH (S s)), <- seq_shift, map_map. apply map_ext. intros; lia.
Qed.

(** The windows of [n] iterations from iteration [i], end to end. *)
Lemma windows_concat (b P : Z) (n : nat) :
  0 < P -> 0 <= b ->
  forall i : nat,
    exists ws,
      windows_from b P (Z.of_nat i) n = Ok ws /\
      List.length ws = n /\
      List.concat ws =
        map (fun j => Z.of_nat j mod P) (seq (i * Z.to_nat b) (n * Z.to_nat b)).
Proof.
  intros HP Hb. induction n as [|n IH]; intros i.
  - exists []. repeat split.
  - destruct (IH (S i)) as [ws [Hws [Hlen Hcat]]].
    exists (map (fun j => (Z.of_nat j + b * Z.of_nat i) mod P) (seq 0 (Z.to_nat b)) :: ws).
    split; [|split].
    + cbn [windows_from]. rewrite inds_value by lia. rewrite bind_ret_l.
      replace (Z.of_nat i + 1) with (Z.of_nat (S i)) by lia.
      rewrite Hws. reflexivity.
    + simpl. now rewrite Hlen.
    + cbn [List.concat]. rewrite Hcat.
      replace (S n * Z.to_nat b)%nat with (Z.to_nat b + n * Z.to_nat b)%nat by lia.
      rewrite seq_app, map_app. f_equal.
      * rewrite (seq_shift_map (i * Z.to_nat b)), map_map.
        apply map_ext. intros j. f_equal.
        rewrite Nat2Z.inj_add, Nat2Z.inj_mul, Z2Nat.id by lia. lia.
      * f_equal. f_equal. lia.
Qed.

Lemma count_occ_mod_seq (P : nat) (v : Z) (b : nat) :
  (0 < P)%nat -> 0 <= v < Z.of_nat P ->
  count_occ Z.eq_dec
    (map (fun j => Z.of_nat j mod Z.of_nat P) (seq 0 (b * P))) v = b.
Proof.
  intros HP Hv. induction b as [|b IH]; [reflexivity|].
  replace (S b * P)%nat with (b * P + P)%nat by lia.
  rewrite seq_app, map_app, count_occ_app, IH. simpl.
  rewrite (seq_shift_map (b * P)), map_map.
  rewrite (map_ext _ (fun j => Z.of_nat j mod Z.of_nat P)).
  2:{ intros j. rewrite Nat2Z.inj_add, Nat2Z.inj_mul.
      rewrite Z.add_comm, Z.mod_add; lia. }
  clear IH.
  assert (H : forall n, (n <= P)%nat ->
            count_occ Z.eq_dec (map (fun j => Z.of_nat j mod Z.of_nat P) (seq 0 n)) v =
            if v <? Z.of_nat n then 1%nat else 0%nat).
  { induction n as [|n IHn]; intros Hn.
    - simpl. destruct (v <? 0) eqn:E; [apply Z.ltb_lt in E; lia | reflexivity].
    - rewrite seq_S, map_app, count_occ_app, IHn by lia.
      cbn [map count_occ Nat.add].
      destruct (Z.eq_dec (Z.of_nat n mod Z.of_nat P) v) as [He|He];
        rewrite Z.mod_small in He by lia;
        destruct (v <? Z.of_nat n) eqn:E1; destruct (v <? Z.of_nat (S n)) eqn:E2;
        rewrite ?Z.ltb_lt, ?Z.ltb_ge in *; try reflexivity; lia. }
  rewrite (H P (le_n P)).
  replace (v <? Z.of_nat P) with true by (symmetry; apply Z.ltb_lt; lia). lia.
Qed.

(** X10: the windows of consecutive iterations continue one another: laid
    end to end, the windows of iterations [0 .. n-1] are the indices
    [0, 1, 2, ...] taken modulo the partition size, [n * b] of them; so
    after [P] iterations every one of the [P] data points has been used
    exactly [b] times. *)
Theorem minibatch_windows_sweep (P b : nat) (n : nat) :
  (0 < P)%nat ->
  (exists ws,
      windows_from (Z.of_nat b) (Z.of_nat P) 0 n = Ok ws /\
      List.length ws = n /\
      List.concat ws = map (fun j => Z.of_nat j mod Z.of_nat P) (seq 0 (n * b))) /\
  (exists ws,
      windows_from (Z.of_nat b) (Z.of_nat P) 0 P = Ok ws /\
      forall v, 0 <= v < Z.of_nat P ->
        count_occ Z.eq_dec (List.concat ws) v = b).
Proof.
  intros HP.
  assert (H : forall n, exists ws,
             windows_from (Z.of_nat b) (Z.of_nat P) 0 n = Ok ws /\
             List.length ws = n /\
             List.concat ws = map (fun j => Z.of_nat j mod Z.of_nat P) (seq 0 (n * b))).
  { intros m. destruct (windows_concat (Z.of_nat b) (Z.of_nat P) m) with (i := 0%nat)
      as [ws [Hws [Hl Hc]]]; [lia | lia |].
    exists ws. rewrite Nat2Z.id in Hc. simpl in Hc. auto. }
  split; [apply H|].
  destruct (H P) as [ws [Hws [_ Hc]]]. exists ws. split; [exact Hws|].
  intros v Hv. rewrite Hc. replace (P * b)%nat with (b * P)%nat by lia.
  now apply count_occ_mod_seq.
Qed.

Lemma mod_eq_small (a c P : Z) :
  0 < P -> a mod P = c mod P -> - P < a - c < P -> a = c.
Proof.
  intros HP Heq Hd.
  pose proof (Z.div_mod a P ltac:(lia)) as Ha.
  pose proof (Z.div_mod c P ltac:(lia)) as Hc.
  assert (a - c = P * (a / P - c / P)) by lia.
  assert (a / P - c / P = 0) by nia. lia.
Qed.

(** X11: with [batch_size = min(client_data_size, min(args.batch_size, N))]
    as the loop computes it, a window never holds the same index twice:
    no data point enters a minibatch more than once. *)
Theorem minibatch_window_nodup (P args_batch_size N i : Z) :
  0 < P -> 0 <= batch_size P args_batch_size N ->
  exists l,
    inds (batch_size P args_batch_size N) i P = Ok l /\
    NoDup l /\
    Z.of_nat (List.length l) <= P.
Proof.
  intros HP Hb. set (b := batch_size P args_batch_size N) in *.
  assert (HbP : b <= P) by (unfold b, batch_size; lia).
  eexists. split; [apply inds_value; lia|]. split.
  - assert (Hinj : forall l : list nat,
               NoDup l -> (forall j, In j l -> Z.of_nat j < b) ->
               NoDup (map (fun j => (Z.of_nat j + b * i) mod P) l)).
    { induction 1 as [|x l Hx Hnd IH]; intros Hlt; simpl; constructor.
      - intros Hin. apply in_map_iff in Hin. destruct Hin as [y [Heq Hy]].
        assert (Z.of_nat y + b * i = Z.of_nat x + b * i).
        { apply (mod_eq_small _ _ P HP Heq).
          pose proof (Hlt x (or_introl eq_refl)).
          pose proof (Hlt y (or_intror Hy)). lia. }
        assert (y = x) by lia. subst. contradiction.
      - apply IH. intros j Hj. apply Hlt. now right. }
    apply Hinj; [apply seq_NoDup|].
    intros j Hj. apply in_seq in Hj. lia.
  - rewrite length_map, length_seq. lia.
Qed.

End MinibatchSweep.

(** ** The sampling pass: errors, draws, inducing inputs *)

Section SamplingPass.

Import Gibnn GibnnMore.

Context {num : Numeric}.

(** *** The loop of lines 20-24 *)

Lemma tile_loop_raises (S : Z) :
  forall (zs acc : dict Tensor) (cn : option string),
    (exists c z, In (c, z) zs /\ ndim z <> 2) ->
    for_each (tile_body S) (items zs) (acc, cn) = Raise AssertionError.
Proof.
  induction zs as [|[k z] zs IH]; intros acc cn [c [z' [Hin Hz]]]; [destruct Hin|].
  cbn [items for_each tile_body]. destruct (ndim z =? 2) eqn:E.
  - rewrite bind_ret_l. apply IH. destruct Hin as [[= -> ->]|Hin].
    + apply Z.eqb_eq in E. contradiction.
    + eauto.
  - reflexivity.
Qed.

Lemma tile_loop_ok (S : Z) :
  forall (zs acc : dict Tensor) (cn : option string),
    (forall c z, In (c, z) zs -> ndim z = 2) ->
    NoDup (keys acc ++ keys zs) ->
    for_each (tile_body S) (items zs) (acc, cn) =
      Ok (acc ++ map (fun it => (fst it, B_tile (snd it) S)) zs,
          last (map Some (keys zs)) cn).
Proof.
  induction zs as [|[k z] zs IH]; intros acc cn H2 Hnd.
  - simpl. now rewrite app_nil_r.
  - cbn [items for_each tile_body].
    rewrite (proj2 (Z.eqb_eq _ _) (H2 k z (or_introl eq_refl))), bind_ret_l.
    cbn [fst]. rewrite set_fresh.
    + unfold items in IH. rewrite IH.
      * cbn [map fst snd keys]. rewrite <- app_assoc, last_cons. reflexivity.
      * intros c z' Hin. apply (H2 c z'). now right.
      * unfold keys in *. rewrite map_app, <- app_assoc. exact Hnd.
    + simpl in Hnd. apply NoDup_remove_2 in Hnd.
      intros Hin. apply Hnd. apply in_or_app. now left.
Qed.

(** *** One turn of the layer loop, taken apart *)

Lemma layer_body_inv (self : GIBNN) ps ts st (i : Z) (layer_name : string)
    (p : NaturalNormal) st' :
  layer_body self ps ts st (i, (layer_name, p)) = Ok st' ->
  exists layer_ts q c,
    get ts layer_name = Some layer_ts /\
    layer_posterior (_zs st) (client_name st) p layer_ts = Ok q /\
    key st' = fst (nn_sample q (key st)) /\
    cache st = Some c /\
    cache st' =
      Some (set layer_name
              {| w := index_last0 (snd (nn_sample q (key st)));
                 kl := B_sum_last (nn_kl q p) |} c) /\
    for_each (forward_body self (index_last0 (snd (nn_sample q (key st))))
                (i <? len ps - 1))
      (items (_zs st)) (_zs st, client_name st) = Ok (_zs st', client_name st').
Proof.
  unfold layer_body, getitem. intros H.
  destruct (get ts layer_name) as [layer_ts|]; [|discriminate].
  rewrite bind_ret_l in H.
  apply bind_Ok in H. destruct H as [q [Hq H]].
  destruct (nn_sample q (key st)) as [key' wl] eqn:Es.
  destruct (cache st) as [c|]; [|discriminate].
  rewrite bind_ret_l in H.
  apply bind_Ok in H. destruct H as [[zs' cn'] [Hf H]].
  injection H as <-. exists layer_ts, q, c. rewrite Es. simpl.
  repeat split; auto.
Qed.

Lemma forward_loop_get (self : GIBNN) (wl : Tensor) (nf : bool) :
  forall (rest acc : dict Tensor) (cn : option string),
    wf rest ->
    exists acc' cn',
      for_each (forward_body self wl nf) (items rest) (acc, cn) = Ok (acc', cn') /\
      forall c,
        get acc' c =
          match get rest c with
          | Some z => Some (if nf then nonlinearity self (B_mm_tr_b z wl)
                            else B_mm_tr_b z wl)
          | None => get acc c
          end.
Proof.
  induction rest as [|[k z] rest IH]; intros acc cn Hwf.
  - exists acc, cn. split; reflexivity.
  - inversion Hwf as [|? ? Hnotin Hwf']; subst.
    apply get_None_notin in Hnotin.
    cbn [items for_each forward_body bind fst].
    destruct (IH (set k (if nf then nonlinearity self (B_mm_tr_b z wl)
                         else B_mm_tr_b z wl) acc) (Some k) Hwf')
      as [acc' [cn' [Hr Hg]]].
    exists acc', cn'. split; [exact Hr|].
    intros c. rewrite Hg. cbn [get].
    destruct (String.eqb k c) eqn:E.
    + apply String.eqb_eq in E. subst c. unfold items in *.
      rewrite Hnotin. apply get_set_same.
    + destruct (get rest c); [reflexivity|].
      apply get_set_other. now apply String.eqb_neq.
Qed.

(** *** The layers, one after the other *)

Lemma layer_loop_draws (self : GIBNN) ps ts :
  forall (its : dict NaturalNormal) (j : Z) st st' d,
    for_each (layer_body self ps ts) (enumerate_from j (items its)) st = Ok st' ->
    cache st = Some d ->
    NoDup (keys d ++ keys its) ->
    wf (_zs st) ->
    exists qs ws d',
      List.length qs = List.length its /\
      cache st' = Some d' /\
      keys d' = keys d ++ keys its /\
      draw_all (key st) qs = (key st', ws) /\
      weights d' = weights d ++ ws /\
      map kl (values d') = map kl (values d) ++ map kl_of (combine qs (values its)) /\
      keys (_zs st') = keys (_zs st) /\
      (j + Z.of_nat (List.length its) <= len ps - 1 ->
       forall c z, get (_zs st) c = Some z ->
                   get (_zs st') c = Some (chain_act (nonlinearity self) ws z)).
Proof.
  induction its as [|[layer_name p] its IH]; intros j st st' d H Hc Hnd Hwz.
  - simpl in H. injection H as <-. exists [], [], d.
    simpl. rewrite !app_nil_r. repeat split; auto.
  - cbn [items enumerate_from for_each] in H.
    apply bind_Ok in H. destruct H as [st1 [Hb H]].
    destruct (layer_body_inv _ _ _ _ _ _ _ _ Hb)
      as [layer_ts [q [c [_ [_ [Hk [Hc0 [Hc1 Hf]]]]]]]].
    rewrite Hc in Hc0. injection Hc0 as <-.
    assert (Hfresh : ~ In layer_name (keys d)).
    { intros Hin. simpl in Hnd. apply NoDup_remove_2 in Hnd.
      apply Hnd. apply in_or_app. now left. }
    rewrite (set_fresh d layer_name _ Hfresh) in Hc1.
    destruct (forward_loop_get self (index_last0 (snd (nn_sample q (key st))))
                (j <? len ps - 1) (_zs st) (_zs st) (client_name st) Hwz)
      as [acc' [cn' [Hr Hg]]].
    rewrite Hr in Hf. injection Hf as Hzs' _.
    destruct (forward_loop_client_name self (index_last0 (snd (nn_sample q (key st))))
                (j <? len ps - 1) (_zs st) (_zs st) (client_name st)) as [acc2 [Hr2 Hk2]];
      [auto|].
    rewrite Hr in Hr2. injection Hr2 as Hacc _. subst acc2.
    assert (Hkeys1 : keys (_zs st1) = keys (_zs st)) by (now rewrite <- Hzs').
    destruct (IH (j + 1) st1 st' _ H Hc1) as [qs [ws [d' [Hl [Hcd [Hkd [Hd [Hw [Hkl [Hkz Hch]]]]]]]]]].
    + unfold keys in *. rewrite map_app, <- app_assoc. exact Hnd.
    + unfold wf. rewrite Hkeys1. exact Hwz.
    + exists (q :: qs), (index_last0 (snd (nn_sample q (key st))) :: ws), d'.
      split; [simpl; now rewrite Hl|]. split; [exact Hcd|]. split.
      { rewrite Hkd. unfold keys. rewrite map_app, <- app_assoc. reflexivity. }
      split.
      { cbn [draw_all]. destruct (nn_sample q (key st)) as [k1 w1] eqn:Es.
        simpl in Hk. rewrite Hk in Hd. rewrite Hd. reflexivity. }
      split.
      { rewrite Hw. unfold weights, values. rewrite !map_app, <- app_assoc. reflexivity. }
      split.
      { rewrite Hkl. unfold values. rewrite !map_app, <- app_assoc. reflexivity. }
      split; [now rewrite Hkz|].
      intros Hlast c0 z Hz.
      cbn [List.length] in Hlast.
      rewrite (Hch ltac:(lia) c0
                 (nonlinearity self
                    (B_mm_tr_b z (index_last0 (snd (nn_sample q (key st))))))).
      * reflexivity.
      * rewrite <- Hzs', Hg, Hz.
        replace (j <? len ps - 1) with true by (symmetry; apply Z.ltb_lt; lia).
        reflexivity.
Qed.

Lemma tile_loop_inv (S : Z) :
  forall (zs acc : dict Tensor) (cn : option string) zs0 cn0,
    for_each (tile_body S) (items zs) (acc, cn) = Ok (zs0, cn0) ->
    NoDup (keys acc ++ keys zs) ->
    zs0 = acc ++ map (fun it => (fst it, B_tile (snd it) S)) zs.
Proof.
  induction zs as [|[k z] zs IH]; intros acc cn zs0 cn0 H Hnd.
  - simpl in H. injection H as <- _. simpl. now rewrite app_nil_r.
  - cbn [items for_each tile_body] in H.
    destruct (ndim z =? 2); [|discriminate]. rewrite bind_ret_l in H.
    cbn [fst] in H. rewrite set_fresh in H.
    + apply IH in H.
      * rewrite H. cbn [map fst snd]. now rewrite <- app_assoc.
      * unfold keys in *. rewrite map_app, <- app_assoc. exact Hnd.
    + simpl in Hnd. apply NoDup_remove_2 in Hnd.
      intros Hin. apply Hnd. apply in_or_app. now left.
Qed.

Lemma get_map_values {A B : Type} (f : A -> B) (d : dict A) (k : string) :
  get (map (fun it => (fst it, f (snd it))) d) k = option_map f (get d k).
Proof.
  induction d as [|[k0 v0] d IH]; [reflexivity|]. simpl.
  destruct (String.eqb k0 k); [reflexivity | exact IH].
Qed.

Lemma keys_map_values {A B : Type} (f : A -> B) (d : dict A) :
  keys (map (fun it => (fst it, f (snd it))) d) = keys d.
Proof. unfold keys. rewrite map_map. reflexivity. Qed.

Lemma in_firstn {A : Type} (i : nat) (l : list A) (a : A) :
  In a (firstn i l) -> In a l.
Proof.
  revert i. induction l as [|x l IH]; intros [|i]; simpl; try tauto.
  intros [H|H]; [now left | right; eauto].
Qed.

Lemma nodup_firstn {A : Type} (i : nat) (l : list A) :
  NoDup l -> NoDup (firstn i l).
Proof.
  revert i. induction l as [|a l IH]; intros [|i] H; simpl; try constructor.
  - inversion H as [|? ? Hn Hnd]; subst. intros Hin. apply Hn.
    eapply in_firstn. exact Hin.
  - inversion H; subst. now apply IH.
Qed.

Lemma firstn_enumerate_from {A : Type} (i : nat) :
  forall (xs : list A) (j : Z),
    firstn i (enumerate_from j xs) = enumerate_from j (firstn i xs).
Proof.
  induction i as [|i IH]; intros [|x xs] j; simpl; try reflexivity.
  now rewrite IH.
Qed.

(** X12: a [sample_posterior] on a fresh object draws once per layer of
    [ps], in the order of [ps], each draw with the key the draw before
    left: the key it returns is the key after the last draw, the cached
    weights are those draws and the cached KL terms the divergences of the
    same posteriors from their priors. *)
Theorem sample_posterior_draws_once_per_layer
    (self : GIBNN) key0 ps ts zs S k c self' :
  _cache self = Some empty -> wf ps -> wf zs ->
  sample_posterior self key0 ps ts zs S = Ok (k, c, self') ->
  exists qs d,
    c = Some d /\
    List.length qs = List.length ps /\
    keys d = keys ps /\
    draw_all key0 qs = (k, weights d) /\
    map kl (values d) = map kl_of (combine qs (values ps)).
Proof.
  unfold sample_posterior. intros Hc Hwp Hwz H.
  apply bind_Ok in H. destruct H as [[zs0 cn0] [Ht H]].
  apply bind_Ok in H. destruct H as [st [Hloop H]].
  injection H as <- <- _.
  apply tile_loop_inv in Ht; [|exact Hwz]. unfold empty in Ht. rewrite app_nil_l in Ht.
  destruct (layer_loop_draws self ps ts ps 0 _ st empty Hloop Hc)
    as [qs [ws [d' [Hl [Hcd [Hkd [Hd [Hw [Hkl _]]]]]]]]].
  - exact Hwp.
  - unfold wf. cbn [_zs]. rewrite Ht, (keys_map_values (fun z => B_tile z S)). exact Hwz.
  - exists qs, d'. simpl in *. subst ws. auto.
Qed.

(** X13: on a fresh object, the inducing inputs the factors of layer [i]
    are evaluated at are the tiled inducing inputs sent through the
    cached weights of the layers before [i], the nonlinearity after each:
    when the layer loop has run [i] turns ([i] less than the number of
    layers), [_zs] holds for every client of [zs] its inputs so propagated
    through exactly the [i] weights the cache holds. *)
Theorem inducing_inputs_follow_cached_weights
    (self : GIBNN) key0 ps ts zs S (i : nat) st :
  _cache self = Some empty -> wf ps -> wf zs ->
  (i < List.length ps)%nat ->
  after_layers self key0 ps ts zs S i = Ok st ->
  exists d,
    cache st = Some d /\
    keys d = firstn i (keys ps) /\
    forall c z, get zs c = Some z ->
      get (_zs st) c =
        Some (chain_act (nonlinearity self) (weights d) (B_tile z S)).
Proof.
  unfold after_layers. intros Hc Hwp Hwz Hi H.
  apply bind_Ok in H. destruct H as [[zs0 cn0] [Ht H]].
  apply tile_loop_inv in Ht; [|exact Hwz]. unfold empty in Ht. rewrite app_nil_l in Ht.
  unfold enumerate in H. rewrite firstn_enumerate_from in H.
  destruct (layer_loop_draws self ps ts (firstn i ps) 0 _ st empty H Hc)
    as [qs [ws [d' [Hl [Hcd [Hkd [Hd [Hw [Hkl [_ Hch]]]]]]]]]].
  - simpl. unfold keys. rewrite <- firstn_map.
    now apply nodup_firstn.
  - unfold wf. cbn [_zs]. rewrite Ht, (keys_map_values (fun z => B_tile z S)). exact Hwz.
  - exists d'. split; [exact Hcd|]. split.
    { rewrite Hkd. simpl. unfold keys. now rewrite firstn_map. }
    intros c z Hz. simpl in Hw. subst ws. apply Hch.
    + rewrite length_firstn. unfold len. lia.
    + cbn [_zs]. rewrite Ht, (get_map_values (fun z => B_tile z S)), Hz. reflexivity.
Qed.

Lemma enumerate_from_length {A : Type} (xs : list A) (j : Z) :
  List.length (enumerate_from j xs) = List.length xs.
Proof.
  revert j. induction xs as [|x xs IH]; intros j; simpl; [reflexivity|].
  now rewrite IH.
Qed.

(** [after_layers] at the number of layers is the loop of
    [sample_posterior] itself. *)
Lemma sample_posterior_after_all_layers (self : GIBNN) key0 ps ts zs S :
  sample_posterior self key0 ps ts zs S =
    (st <- after_layers self key0 ps ts zs S (List.length ps) ;;
     Ok (key st, cache st, set_cache self (cache st))).
Proof.
  unfold sample_posterior, after_layers.
  destruct (for_each (tile_body S) (items zs) (empty, None)) as [[zs0 cn0]|];
    [|reflexivity].
  rewrite !bind_ret_l. rewrite firstn_all2; [reflexivity|].
  unfold enumerate, items. now rewrite enumerate_from_length.
Qed.

(** X14: how [sample_posterior] fails.  An inducing input that is not
    2-dimensional fails the assertion, before anything is sampled; with
    2-dimensional inputs, a first layer of [ps] that [ts] does not hold
    raises the key error of that layer; and with no inducing inputs at
    all, a first layer with at least one factor raises a name error, the
    factor loop reading [client_name] that no loop has bound. *)
Theorem sample_posterior_raises
    (self : GIBNN) key0 (ps : dict NaturalNormal)
    (ts : dict (dict NormalPseudoObservation)) (zs : dict Tensor) (S : Z) :
  ((exists c z, In (c, z) zs /\ ndim z <> 2) ->
   sample_posterior self key0 ps ts zs S = Raise AssertionError) /\
  (forall l p ps',
     ps = (l, p) :: ps' -> wf zs ->
     (forall c z, In (c, z) zs -> ndim z = 2) ->
     get ts l = None ->
     sample_posterior self key0 ps ts zs S = Raise (KeyError l)) /\
  (forall l p ps' t lt,
     ps = (l, p) :: ps' -> zs = [] ->
     get ts l = Some (t :: lt) ->
     sample_posterior self key0 ps ts zs S = Raise (NameError "client_name")).
Proof.
  split; [|split].
  - intros H. unfold sample_posterior. now rewrite tile_loop_raises.
  - intros l p ps' -> Hwz H2 Hl. unfold sample_posterior.
    rewrite tile_loop_ok by (auto using Hwz). rewrite bind_ret_l.
    cbn [items enumerate enumerate_from for_each layer_body].
    unfold getitem. now rewrite Hl.
  - intros l p ps' [c t] lt -> -> Hl. unfold sample_posterior.
    cbn [items for_each bind enumerate enumerate_from layer_body].
    unfold getitem. rewrite Hl. reflexivity.
Qed.

(** With no factor in any layer, every turn of the layer loop returns and
    draws from the prior. *)
Lemma layer_loop_priors (self : GIBNN) ps ts :
  forall (its : dict NaturalNormal) (j : Z) st d,
    cache st = Some d ->
    NoDup (keys d ++ keys its) ->
    (forall l, In l (keys its) ->
       @get (dict NormalPseudoObservation) ts l = Some empty) ->
    exists st' ws d',
      for_each (layer_body self ps ts) (enumerate_from j (items its)) st = Ok st' /\
      cache st' = Some d' /\
      draw_all (key st) (values its) = (key st', ws) /\
      weights d' = weights d ++ ws /\
      map kl (values d') =
        map kl (values d) ++ map (fun p => kl_of (p, p)) (values its).
Proof.
  induction its as [|[layer_name p] its IH]; intros j st d Hc Hnd Hts.
  - exists st, [], d. simpl. rewrite !app_nil_r. auto.
  - assert (Hfresh : ~ In layer_name (keys d)).
    { intros Hin. simpl in Hnd. apply NoDup_remove_2 in Hnd.
      apply Hnd. apply in_or_app. now left. }
    destruct (forward_loop_client_name self
                (index_last0 (snd (nn_sample p (key st)))) (j <? len ps - 1)
                (_zs st) (_zs st) (client_name st)) as [acc' [Hr _]]; [auto|].
    set (st1 := {| key := fst (nn_sample p (key st));
                   cache := Some (d ++ [(layer_name,
                              {| w := index_last0 (snd (nn_sample p (key st)));
                                 kl := B_sum_last (nn_kl p p) |})]);
                   _zs := acc';
                   client_name := last (map Some (keys (_zs st))) (client_name st) |}).
    assert (Hstep : layer_body self ps ts st (j, (layer_name, p)) = Ok st1).
    { unfold layer_body. cbv beta iota. unfold getitem.
      rewrite (Hts layer_name) by (now left).
      rewrite bind_ret_l. unfold layer_posterior, values, empty.
      cbn [map for_each]. rewrite bind_ret_l. destruct (nn_sample p (key st)) as [k1 w1] eqn:Es.
      rewrite Hc, bind_ret_l. cbn [snd] in Hr. rewrite Hr, bind_ret_l.
      rewrite (set_fresh d layer_name _ Hfresh). reflexivity. }
    destruct (IH (j + 1) st1 _ eq_refl) as [st' [ws [d' [Hl [Hcd [Hd [Hw Hk]]]]]]].
    + unfold keys in *. rewrite map_app, <- app_assoc. exact Hnd.
    + intros l Hl. apply Hts. now right.
    + exists st', (index_last0 (snd (nn_sample p (key st))) :: ws), d'.
      split.
      { cbn [items enumerate_from for_each]. rewrite Hstep, bind_ret_l. exact Hl. }
      split; [exact Hcd|]. split.
      { cbn [values map snd draw_all]. destruct (nn_sample p (key st)) as [k1 w1].
        cbn [key st1 fst] in Hd. unfold values in Hd. rewrite Hd. reflexivity. }
      split.
      { rewrite Hw. unfold weights, values. rewrite !map_app, <- app_assoc. reflexivity. }
      rewrite Hk. unfold values. rewrite !map_app, <- app_assoc. reflexivity.
Qed.

(** X15: when no layer has a factor, [sample_posterior] on a fresh
    object returns whatever the inducing inputs (2-dimensional) are, and
    its posterior is the prior: the weights are drawn from the priors of
    [ps], in order, and every cached KL term is that of a prior from
    itself. *)
Theorem sample_posterior_from_priors
    (self : GIBNN) key0 (ps : dict NaturalNormal)
    (ts : dict (dict NormalPseudoObservation)) (zs : dict Tensor) (S : Z) :
  _cache self = Some empty -> wf ps -> wf zs ->
  (forall c z, In (c, z) zs -> ndim z = 2) ->
  (forall l, In l (keys ps) ->
     @get (dict NormalPseudoObservation) ts l = Some empty) ->
  exists k d self',
    sample_posterior self key0 ps ts zs S = Ok (k, Some d, self') /\
    draw_all key0 (values ps) = (k, weights d) /\
    map kl (values d) = map (fun p => kl_of (p, p)) (values ps).
Proof.
  intros Hc Hwp Hwz H2 Hts. unfold sample_posterior.
  rewrite tile_loop_ok by (auto using Hwz). rewrite bind_ret_l.
  unfold enumerate.
  destruct (layer_loop_priors self ps ts ps 0
              {| key := key0; cache := _cache self;
                 _zs := empty ++ map (fun it => (fst it, B_tile (snd it) S)) zs;
                 client_name := last (map Some (keys zs)) None |} empty Hc)
    as [st' [ws [d' [Hl [Hcd [Hd [Hw Hk]]]]]]]; [exact Hwp | exact Hts |].
  rewrite Hl, bind_ret_l, Hcd. simpl in Hw. subst ws.
  exists (key st'), d'. eexists. split; [reflexivity|]. split; [exact Hd | exact Hk].
Qed.

(** *** What a pass leaves of an older cache *)

Lemma keys_set_cases {V : Type} (d : dict V) (k : string) (v : V) :
  (In k (keys d) /\ keys (set k v d) = keys d) \/
  (~ In k (keys d) /\ keys (set k v d) = keys d ++ [k]).
Proof.
  destruct (in_dec string_dec k (keys d)) as [Hin|Hn].
  - left. split; [exact Hin | now apply keys_set_present].
  - right. split; [exact Hn|]. rewrite set_fresh by exact Hn.
    unfold keys. now rewrite map_app.
Qed.

Lemma layer_loop_keeps_others (self : GIBNN) ps ts :
  forall (its : list (Z * (string * NaturalNormal))) st st' d,
    for_each (layer_body self ps ts) its st = Ok st' ->
    cache st = Some d ->
    exists d' extra,
      cache st' = Some d' /\
      keys d' = keys d ++ extra /\
      (forall n, In n extra -> In n (map (fun it => fst (snd it)) its)) /\
      (forall n, ~ In n (map (fun it => fst (snd it)) its) -> get d' n = get d n).
Proof.
  induction its as [|[i [layer_name p]] its IH]; intros st st' d H Hc.
  - simpl in H. injection H as <-. exists d, []. rewrite app_nil_r.
    split; [exact Hc|]. split; [reflexivity|]. split; [intros n []|reflexivity].
  - cbn [for_each] in H. apply bind_Ok in H. destruct H as [st1 [Hb H]].
    destruct (layer_body_cache_set _ _ _ _ _ _ _ _ _ Hb Hc) as [l Hc1].
    destruct (IH st1 st' _ H Hc1) as [d' [extra [Hcd [Hk [Hex Hg]]]]].
    destruct (keys_set_cases d layer_name l) as [[_ Hks]|[_ Hks]].
    + exists d', extra. split; [exact Hcd|]. split; [now rewrite Hk, Hks|]. split.
      * intros n Hn. right. now apply Hex.
      * intros n Hn. rewrite Hg by (intros Hin; apply Hn; now right).
        apply get_set_other. intros ->. apply Hn. now left.
    + exists d', (layer_name :: extra). split; [exact Hcd|]. split.
      * rewrite Hk, Hks, <- app_assoc. reflexivity.
      * split.
        { intros n [<-|Hn]; [now left | right; now apply Hex]. }
        intros n Hn. rewrite Hg by (intros Hin; apply Hn; now right).
        apply get_set_other. intros ->. apply Hn. now left.
Qed.

(** X16: [sample_posterior] never drops a cached layer.  The layers the
    cache held before the call are still there afterwards, at their
    places; a layer that is not in [ps] keeps its old weights; the layers
    of [ps] the cache lacked come after them.  A cache filled under other
    layer names is thus not replaced but extended, and [propagate] then
    runs through the old layers first. *)
Theorem sample_posterior_keeps_stale_layers
    (self : GIBNN) key0 ps ts zs S k c self' (d : dict LayerCache) :
  _cache self = Some d ->
  sample_posterior self key0 ps ts zs S = Ok (k, c, self') ->
  exists d' extra,
    c = Some d' /\ _cache self' = Some d' /\
    keys d' = keys d ++ extra /\
    (forall n, In n extra -> In n (keys ps)) /\
    (forall n, ~ In n (keys ps) -> get d' n = get d n) /\
    (forall x, ndim x <> 2 ->
       propagate self' x =
         Ok (Some (manual_chain (nonlinearity self) (weights d') x))).
Proof.
  intros Hc H.
  assert (Hs := H). unfold sample_posterior in H.
  apply bind_Ok in H. destruct H as [[zs0 cn0] [_ H]].
  apply bind_Ok in H. destruct H as [st [Hloop H]].
  injection H as <- <- <-.
  destruct (layer_loop_keeps_others self ps ts _ _ _ d Hloop Hc)
    as [d' [extra [Hcd [Hk [Hex Hg]]]]].
  assert (Hkeys : map (fun it : Z * (string * NaturalNormal) => fst (snd it))
                    (enumerate (items ps)) = keys ps).
  { unfold enumerate, keys, items. rewrite <- (map_map snd fst).
    now rewrite enumerate_from_map_snd. }
  rewrite Hkeys in Hex, Hg.
  exists d', extra. rewrite Hcd. cbn [_cache set_cache].
  repeat split; auto.
  intros x Hx. rewrite (propagate_chain _ d' x) by reflexivity.
  unfold lifted. apply Z.eqb_neq in Hx. rewrite Hx. reflexivity.
Qed.

End SamplingPass.

(** ** The freezing protocol: totality, failures, order *)

Section FreezingMore.

Import Optimization.

Variable Data : Type.

Local Abbreviation Fac := (Factor Data).
Local Abbreviation Ten := (TensorV Data).
Local Abbreviation Cli := (Client Data).

Lemma collect_ts_loop_returns (n : string) :
  forall (tc : dict Fac) (acc : dict (dict Fac)),
    returns (for_each (collect_ts_body n) (items tc) acc).
Proof.
  induction tc as [|[l f] tc IH]; intros acc.
  - eexists. reflexivity.
  - cbn [items for_each collect_ts_body]. rewrite setitem2_ensure, bind_ret_l.
    apply IH.
Qed.

Lemma collect_vp_loop_returns :
  forall (clients : dict Cli) acc,
    returns (for_each (@collect_vp_body Data) (items clients) acc).
Proof.
  induction clients as [|[n cl] clients IH]; intros [ats azs].
  - eexists. reflexivity.
  - cbn [items for_each collect_vp_body].
    destruct (collect_ts_loop_returns n (t cl) ats) as [ats1 Hr].
    rewrite Hr, !bind_ret_l. apply IH.
Qed.

(** X17: [collect_vp] never raises, whatever the clients; its snapshot
    holds, for every client key and every layer of that client, a
    detached factor with the values of the client's factor, nothing for a
    layer the client lacks, and detached inducing inputs for the
    [GI_Client]s only. *)
Theorem collect_vp_snapshot (clients : dict Cli) :
  returns (collect_vp clients) /\
  (wf_clients clients ->
   forall fts fzs,
     collect_vp clients = Ok (fts, fzs) ->
     wf2 fts /\ wf fzs /\
     (forall l n f,
        get2 fts l n = Some f <->
        exists cl lf, get clients n = Some cl /\ get (t cl) l = Some lf /\
                      f = copy lf) /\
     (forall l n f, get2 fts l n = Some f -> detached f) /\
     (forall n v,
        get fzs n = Some v <->
        exists cl cz, get clients n = Some cl /\ z cl = Some cz /\
                      v = detach_clone cz)).
Proof.
  split; [apply collect_vp_loop_returns|].
  intros Hwf fts fzs Hc.
  destruct (collect_vp_spec Data clients Hwf) as [fts' [fzs' [Hc' [Hw2 [Hwz [Hg Hz]]]]]].
  rewrite Hc in Hc'. injection Hc' as <- <-.
  split; [exact Hw2|]. split; [exact Hwz|]. split; [|split].
  - intros l n f. rewrite Hg. split.
    + destruct (get clients n) as [cl|]; [|discriminate].
      destruct (get (t cl) l) as [lf|] eqn:El; [|discriminate].
      intros [= <-]. exists cl, lf. auto.
    + intros [cl [lf [-> [Hl ->]]]]. now rewrite Hl.
  - intros l n f. rewrite Hg.
    destruct (get clients n) as [cl|]; [|discriminate].
    destruct (get (t cl) l) as [lf|]; [|discriminate].
    intros [= <-]. split; reflexivity.
  - intros n v. rewrite Hz. split.
    + destruct (get clients n) as [cl|]; [|discriminate].
      destruct (z cl) as [cz|] eqn:Ez; [|discriminate].
      intros [= <-]. exists cl, cz. auto.
    + intros [cl [cz [-> [Hcz ->]]]]. now rewrite Hcz.
Qed.

(** *** When [collect_frozen_vp] raises *)

Lemma frozen_ts_loop_raises (c : Cli) (l : string) :
  forall (layer_t : dict Fac) (acc : dict (dict Fac)),
    get acc l <> None ->
    get layer_t (name c) <> None ->
    get (t c) l = None ->
    for_each (frozen_ts_body c l) (items layer_t) acc = Raise (KeyError l).
Proof.
  induction layer_t as [|[n f] layer_t IH]; intros acc Hl Hin Hnone.
  - simpl in Hin. congruence.
  - cbn [items for_each frozen_ts_body].
    destruct (String.eqb n (name c)) eqn:En.
    + unfold getitem. rewrite Hnone. reflexivity.
    + rewrite setitem2_present by exact Hl. rewrite bind_ret_l.
      apply IH; [apply get_upd_same | | exact Hnone].
      cbn [get] in Hin. now rewrite En in Hin.
Qed.

Lemma frozen_layer_loop_raises (c : Cli) :
  forall (fts acc : dict (dict Fac)),
    wf2 fts ->
    (exists l, get2 fts l (name c) <> None /\ get (t c) l = None) ->
    exists l,
      for_each (frozen_layer_body c) (items fts) acc = Raise (KeyError l) /\
      get2 fts l (name c) <> None /\ get (t c) l = None.
Proof.
  induction fts as [|[l0 lt0] fts IH]; intros acc [Hwf Hin] [l [Hl Hnone]].
  - unfold get2 in Hl. simpl in Hl. congruence.
  - inversion Hwf as [|? ? Hnotin Hwf']; subst.
    apply get_None_notin in Hnotin.
    cbn [items for_each frozen_layer_body].
    destruct (get lt0 (name c)) as [f|] eqn:Ec.
    + destruct (get (t c) l0) as [lv|] eqn:El0.
      * destruct (frozen_ts_loop Data c l0 lt0 (ensure_layer l0 acc))
          as [acc1 [Hr1 _]];
          [apply (Hin l0); now left | apply get_ensure | intros _; congruence |].
        rewrite Hr1, bind_ret_l.
        destruct (IH acc1) as [l' [Hr [Hl' Hn']]].
        { split; [exact Hwf'|]. intros l1 layer H. apply (Hin l1). now right. }
        { exists l. split; [|exact Hnone]. rewrite get2_cons in Hl.
          destruct (String.eqb l0 l) eqn:E; [|exact Hl].
          apply String.eqb_eq in E. subst l. congruence. }
        exists l'. split; [exact Hr|]. split; [|exact Hn'].
        rewrite get2_cons. destruct (String.eqb l0 l') eqn:E; [|exact Hl'].
        apply String.eqb_eq in E. subst l'.
        rewrite (get2_absent_layer _ _ _ _ Hnotin) in Hl'. congruence.
      * exists l0. split; [|split; [|exact El0]].
        { rewrite frozen_ts_loop_raises; [reflexivity | apply get_ensure | | exact El0].
          congruence. }
        rewrite get2_cons, String.eqb_refl. congruence.
    + destruct (frozen_ts_loop Data c l0 lt0 (ensure_layer l0 acc))
        as [acc1 [Hr1 _]];
        [apply (Hin l0); now left | apply get_ensure | intros H; congruence |].
      rewrite Hr1, bind_ret_l.
      destruct (IH acc1) as [l' [Hr [Hl' Hn']]].
      { split; [exact Hwf'|]. intros l1 layer H. apply (Hin l1). now right. }
      { exists l. split; [|exact Hnone]. rewrite get2_cons in Hl.
        destruct (String.eqb l0 l) eqn:E; [|exact Hl].
        apply String.eqb_eq in E. subst l. congruence. }
      exists l'. split; [exact Hr|]. split; [|exact Hn'].
      rewrite get2_cons. destruct (String.eqb l0 l') eqn:E; [|exact Hl'].
      apply String.eqb_eq in E. subst l'.
      rewrite (get2_absent_layer _ _ _ _ Hnotin) in Hl'. congruence.
Qed.

(** X18: on a well-formed snapshot [collect_frozen_vp] returns exactly
    when (a) the frozen inducing inputs are given whenever the client is a
    [GI_Client] (for any other client they are not looked at, so the
    mean-field call site may pass [None]) and (b) the client owns a factor
    for every layer at which the snapshot holds its name; otherwise it
    raises, an [AttributeError] for (a), the [KeyError] of such a layer
    for (b).  When it returns, the view has an entry exactly where the
    snapshot has one. *)
Theorem collect_frozen_vp_returns_iff
    (fts : dict (dict Fac)) (fzs : option (dict Ten)) (c : Cli) :
  wf2 fts ->
  (returns (collect_frozen_vp fts fzs c) <->
   (z c <> None -> fzs <> None) /\
   (forall l, get2 fts l (name c) <> None -> get (t c) l <> None)) /\
  (z c <> None -> fzs = None ->
   collect_frozen_vp fts fzs c = Raise AttributeError) /\
  ((z c <> None -> fzs <> None) ->
   (exists l, get2 fts l (name c) <> None /\ get (t c) l = None) ->
   exists l, collect_frozen_vp fts fzs c = Raise (KeyError l) /\
             get2 fts l (name c) <> None /\ get (t c) l = None) /\
  (forall vts vzs,
     collect_frozen_vp fts fzs c = Ok (vts, vzs) ->
     forall l n, get2 vts l n <> None <-> get2 fts l n <> None).
Proof.
  intros Hwf.
  assert (Hattr : z c <> None -> fzs = None ->
                  collect_frozen_vp fts fzs c = Raise AttributeError).
  { intros Hz ->. destruct c; [reflexivity | simpl in Hz; congruence]. }
  assert (Hkey : (z c <> None -> fzs <> None) ->
            (exists l, get2 fts l (name c) <> None /\ get (t c) l = None) ->
            exists l, collect_frozen_vp fts fzs c = Raise (KeyError l) /\
                      get2 fts l (name c) <> None /\ get (t c) l = None).
  { intros Hz Hoff.
    destruct (frozen_layer_loop_raises c fts empty Hwf Hoff) as [l [Hr Hl]].
    exists l. split; [|exact Hl]. unfold collect_frozen_vp.
    destruct c as [n cz tc | n tc].
    - destruct fzs as [fz|]; [|exfalso; apply Hz; [discriminate | reflexivity]].
      rewrite bind_ret_l, Hr. reflexivity.
    - rewrite bind_ret_l, Hr. reflexivity. }
  assert (Hok : (z c <> None -> fzs <> None) ->
            (forall l, get2 fts l (name c) <> None -> get (t c) l <> None) ->
            exists vts vzs,
              collect_frozen_vp fts fzs c = Ok (vts, vzs) /\
              forall l n, get2 vts l n <> None <-> get2 fts l n <> None).
  { intros Hz Hlive.
    destruct (frozen_layer_loop Data c fts empty Hwf Hlive) as [vts [Hr [_ Hg]]].
    assert (Hdom : forall l n, get2 vts l n <> None <-> get2 fts l n <> None).
    { intros l n. rewrite Hg. destruct (get2 fts l n) as [f|] eqn:E.
      - destruct (String.eqb n (name c)) eqn:En.
        + apply String.eqb_eq in En. subst n. split; [discriminate|].
          intros _. apply Hlive. congruence.
        + split; discriminate.
      - unfold get2. simpl. tauto. }
    unfold collect_frozen_vp. destruct c as [n cz tc | n tc].
    - destruct fzs as [fz|]; [|exfalso; apply Hz; [discriminate | reflexivity]].
      rewrite bind_ret_l, Hr, bind_ret_l. eauto.
    - rewrite bind_ret_l, Hr, bind_ret_l. eauto. }
  split; [|split; [exact Hattr|split; [exact Hkey|]]].
  - split.
    + intros [a Ha]. split.
      * intros Hz Hn. rewrite (Hattr Hz Hn) in Ha. discriminate.
      * intros l Hl Hnone.
        assert (Hz : z c <> None -> fzs <> None).
        { intros Hz Hn. rewrite (Hattr Hz Hn) in Ha. discriminate. }
        destruct (Hkey Hz (ex_intro _ l (conj Hl Hnone))) as [l' [Hr _]].
        rewrite Hr in Ha. discriminate.
    + intros [Hz Hlive]. destruct (Hok Hz Hlive) as [vts [vzs [Hr _]]].
      eexists. exact Hr.
  - intros vts vzs Hr.
    assert (Hz : z c <> None -> fzs <> None).
    { intros Hz Hn. rewrite (Hattr Hz Hn) in Hr. discriminate. }
    assert (Hlive : forall l, get2 fts l (name c) <> None -> get (t c) l <> None).
    { intros l Hl Hnone.
      destruct (Hkey Hz (ex_intro _ l (conj Hl Hnone))) as [l' [Hr' _]].
      rewrite Hr' in Hr. discriminate. }
    destruct (Hok Hz Hlive) as [vts' [vzs' [Hr' Hdom]]].
    rewrite Hr in Hr'. injection Hr' as <- <-. exact Hdom.
Qed.

End FreezingMore.

(** ** The order of the inducing view, and what the sampling pass reads *)

Section InducingView.

Import Optimization.

Variable Data : Type.

Local Abbreviation Ten := (TensorV Data).

Lemma frozen_zs_fold (c : Client Data) :
  forall (fz acc : dict Ten),
    wf fz ->
    (forall k, In k (keys fz) -> k <> name c -> ~ In k (keys acc)) ->
    fold_left (frozen_zs_body c) (items fz) acc =
      acc ++ map (fun it => (fst it, detach_clone (snd it)))
               (filter (fun it => negb (String.eqb (fst it) (name c))) fz).
Proof.
  induction fz as [|[k v] fz IH]; intros acc Hwf Hfresh.
  - simpl. now rewrite app_nil_r.
  - inversion Hwf as [|? ? Hnotin Hwf']; subst.
    cbn [items fold_left frozen_zs_body filter fst].
    destruct (String.eqb k (name c)) eqn:E; cbn [negb].
    + unfold items in IH. apply IH; [exact Hwf'|].
      intros k' Hk'. apply Hfresh. now right.
    + apply String.eqb_neq in E.
      rewrite set_fresh by (apply Hfresh; [now left | exact E]).
      unfold items in IH. rewrite IH; [|exact Hwf'|].
      * cbn [map fst snd]. now rewrite <- app_assoc.
      * intros k' Hk' Hne Hin. unfold keys in Hin. rewrite map_app in Hin.
        apply in_app_or in Hin. destruct Hin as [Hin|[<-|[]]].
        -- revert Hin. apply Hfresh; [now right | exact Hne].
        -- apply Hnotin. exact Hk'.
Qed.

Lemma last_in_or_default {A : Type} (l : list A) (d : A) :
  l <> [] -> In (last l d) l.
Proof.
  induction l as [|a l IH]; intros H; [congruence|].
  destruct l as [|b l]; [now left|].
  right. change (last (a :: b :: l) d) with (last (b :: l) d).
  apply IH. discriminate.
Qed.

(** X19: the inducing view a [GI_Client] is handed lists the client
    itself first, with its own live inducing inputs, and after it the
    other clients of the snapshot, in the snapshot's order, each with a
    detached clone; the snapshot's entry for the client itself is dropped.
    So as soon as the snapshot holds another client, the last key of the
    view is one of the others, never the active client. *)
Theorem inducing_view_order
    (fts : dict (dict (Factor Data))) (fzs : dict Ten)
    (n : string) (cz : Ten) (tc : dict (Factor Data)) vts vzs :
  wf fzs ->
  collect_frozen_vp fts (Some fzs) (GI_Client n cz tc) = Ok (vts, vzs) ->
  vzs = (n, cz) ::
        map (fun it => (fst it, detach_clone (snd it)))
          (filter (fun it => negb (String.eqb (fst it) n)) fzs) /\
  wf vzs /\
  ((exists m, In m (keys fzs) /\ m <> n) ->
   last (keys vzs) n <> n /\ In (last (keys vzs) n) (keys fzs)).
Proof.
  intros Hwf H. unfold collect_frozen_vp in H.
  rewrite bind_ret_l in H. apply bind_Ok in H. destruct H as [ts' [_ H]].
  injection H as _ <-.
  rewrite frozen_zs_fold; [|exact Hwf|].
  2:{ intros k _ Hne [H|[]]. simpl in H. subst k. apply Hne. reflexivity. }
  cbn [name app].
  set (others := filter (fun it : string * Ten => negb (String.eqb (fst it) n)) fzs).
  assert (Hk : keys (map (fun it : string * Ten => (fst it, detach_clone (snd it))) others)
               = keys others).
  { unfold keys. rewrite map_map. reflexivity. }
  assert (Hin : forall k, In k (keys others) <-> In k (keys fzs) /\ k <> n).
  { intros k. unfold keys, others. rewrite !in_map_iff. split.
    - intros [[k' v] [<- Hf]]. apply filter_In in Hf. destruct Hf as [Hf Hb].
      simpl in *. split.
      + exists (k', v). auto.
      + apply negb_true_iff in Hb. now apply String.eqb_neq.
    - intros [[[k' v] [<- Hf]] Hne]. exists (k', v). split; [reflexivity|].
      apply filter_In. split; [exact Hf|]. simpl.
      apply negb_true_iff. now apply String.eqb_neq. }
  assert (Hnd : NoDup (keys others)).
  { unfold others, keys. clear -Hwf. unfold wf, keys in Hwf.
    induction fzs as [|[k v] d IH]; simpl; [constructor|].
    inversion Hwf as [|? ? Hnotin Hwf']; subst.
    destruct (negb (String.eqb k n)); simpl; [|now apply IH].
    constructor; [|now apply IH].
    intros Hin. apply Hnotin. apply in_map_iff in Hin.
    destruct Hin as [[k' v'] [Hk Hf]]. apply filter_In in Hf.
    apply in_map_iff. exists (k', v'). tauto. }
  split; [reflexivity|]. split.
  - unfold wf. cbn [keys map fst]. fold (keys (map (fun it : string * Ten =>
      (fst it, detach_clone (snd it))) others)). rewrite Hk.
    constructor; [|exact Hnd]. intros Hn. apply Hin in Hn. tauto.
  - intros [m [Hm Hne]].
    cbn [keys map fst]. fold (keys (map (fun it : string * Ten =>
      (fst it, detach_clone (snd it))) others)). rewrite Hk, last_cons.
    assert (Hl : In (last (keys others) n) (keys others)).
    { apply last_in_or_default. intros He.
      assert (Hmo : In m (keys others)) by (apply Hin; tauto).
      rewrite He in Hmo. destruct Hmo. }
    apply Hin in Hl. tauto.
Qed.

End InducingView.

Lemma for_each_rel {A B X : Type} (R : A -> B -> Prop)
    (f : A -> X -> Result A) (g : B -> X -> Result B) :
  (forall a b x, R a b ->
     match f a x, g b x with
     | Ok a', Ok b' => R a' b'
     | Raise e, Raise e' => e = e'
     | _, _ => False
     end) ->
  forall xs a b, R a b ->
    match for_each f xs a, for_each g xs b with
    | Ok a', Ok b' => R a' b'
    | Raise e, Raise e' => e = e'
    | _, _ => False
    end.
Proof.
  intros Hstep. induction xs as [|x xs IH]; intros a b HR; simpl; [exact HR|].
  specialize (Hstep a b x HR).
  destruct (f a x) as [a'|e], (g b x) as [b'|e']; simpl; try contradiction.
  - now apply IH.
  - exact Hstep.
Qed.

Section LastClient.

Import Gibnn.

Context {num : Numeric}.

Lemma last_some_keys (zs : dict Tensor) (c : string) :
  (forall d, last (map Some (keys zs)) d = Some c) -> In c (keys zs).
Proof.
  intros H. specialize (H None).
  destruct zs as [|it zs]; [discriminate|].
  assert (Hin : In (last (map Some (keys (it :: zs))) None)
                  (map Some (keys (it :: zs)))).
  { apply last_in_or_default. discriminate. }
  rewrite H in Hin. apply in_map_iff in Hin.
  destruct Hin as [k [[= ->] Hk]]. exact Hk.
Qed.

(** One turn of the layer loop on two states that agree on the key, the
    cache, the name left in [client_name] and the inducing inputs stored
    under that name. *)
Lemma layer_body_last_client (self : GIBNN) ps ts (c : string) (stA stB : Locals) item :
  (key stA = key stB /\ cache stA = cache stB /\
   client_name stA = Some c /\ client_name stB = Some c /\
   wf (_zs stA) /\ wf (_zs stB) /\
   (forall d, last (map Some (keys (_zs stA))) d = Some c) /\
   (forall d, last (map Some (keys (_zs stB))) d = Some c) /\
   get (_zs stA) c = get (_zs stB) c) ->
  match layer_body self ps ts stA item, layer_body self ps ts stB item with
  | Ok a, Ok b =>
      key a = key b /\ cache a = cache b /\
      client_name a = Some c /\ client_name b = Some c /\
      wf (_zs a) /\ wf (_zs b) /\
      (forall d, last (map Some (keys (_zs a))) d = Some c) /\
      (forall d, last (map Some (keys (_zs b))) d = Some c) /\
      get (_zs a) c = get (_zs b) c
  | Raise e, Raise e' => e = e'
  | _, _ => False
  end.
Proof.
  intros [Hk [Hc [HnA [HnB [HwA [HwB [HlA [HlB Hg]]]]]]]].
  destruct item as [i [layer_name p]].
  assert (HinA : In c (keys (_zs stA))) by now apply last_some_keys.
  destruct (get (_zs stA) c) as [zc|] eqn:EA;
    [|apply get_None_notin in EA; contradiction].
  symmetry in Hg.
  unfold layer_body, getitem.
  destruct (get ts layer_name) as [layer_ts|]; [|reflexivity].
  rewrite !bind_ret_l, HnA, HnB.
  rewrite (layer_posterior_at _ _ _ _ _ EA), (layer_posterior_at _ _ _ _ _ Hg).
  rewrite !bind_ret_l, <- Hk, <- Hc.
  set (q := fold_left (fun q t => nn_mul q (t_call t zc)) (values layer_ts) p).
  destruct (nn_sample q (key stA)) as [key' wl].
  destruct (cache stA) as [d|]; [|reflexivity].
  rewrite !bind_ret_l.
  destruct (forward_loop_get self (index_last0 wl) (i <? len ps - 1)
              (_zs stA) (_zs stA) (Some c) HwA) as [accA [cnA [HrA HgA]]].
  destruct (forward_loop_get self (index_last0 wl) (i <? len ps - 1)
              (_zs stB) (_zs stB) (Some c) HwB) as [accB [cnB [HrB HgB]]].
  destruct (forward_loop_client_name self (index_last0 wl) (i <? len ps - 1)
              (_zs stA) (_zs stA) (Some c)) as [accA' [HrA' HkA]]; [auto|].
  destruct (forward_loop_client_name self (index_last0 wl) (i <? len ps - 1)
              (_zs stB) (_zs stB) (Some c)) as [accB' [HrB' HkB]]; [auto|].
  rewrite HrA in HrA'. injection HrA' as <- HcnA.
  rewrite HrB in HrB'. injection HrB' as <- HcnB.
  rewrite HrA, HrB, !bind_ret_l. cbn [key cache client_name _zs].
  split; [reflexivity|]. split; [reflexivity|].
  split; [now rewrite HcnA, HlA|]. split; [now rewrite HcnB, HlB|].
  split; [unfold wf; now rewrite HkA|]. split; [unfold wf; now rewrite HkB|].
  split; [intros d0; now rewrite HkA|]. split; [intros d0; now rewrite HkB|].
  now rewrite HgA, HgB, EA, Hg.
Qed.

(** X20: of the inducing inputs handed to [sample_posterior] only those
    of the last client of [zs] reach the result.  Whatever the clients
    listed before it (two-dimensional inputs each, distinct names), the
    call returns what it returns on the last client alone: the same key,
    the same cache, the same object, or the same exception. *)
Theorem sample_posterior_reads_last_client_only
    (self : GIBNN) key0 ps ts (before : dict Tensor) (c : string) (z : Tensor)
    (S : Z) :
  wf (before ++ [(c, z)]) ->
  (forall k zk, In (k, zk) before -> ndim zk = 2) ->
  sample_posterior self key0 ps ts (before ++ [(c, z)]) S =
  sample_posterior self key0 ps ts [(c, z)] S.
Proof.
  intros Hwf H2.
  destruct (Z.eq_dec (ndim z) 2) as [Hz|Hz].
  - unfold sample_posterior.
    rewrite (tile_loop_ok S (before ++ [(c, z)]) empty None).
    2:{ intros k zk Hin. apply in_app_or in Hin.
        destruct Hin as [Hin|[[= <- <-]|[]]]; eauto. }
    2:{ exact Hwf. }
    rewrite (tile_loop_ok S [(c, z)] empty None).
    2:{ intros k zk [[= <- <-]|[]]. exact Hz. }
    2:{ simpl. constructor; [intros []|constructor]. }
    rewrite !bind_ret_l. unfold empty. rewrite !app_nil_l.
    assert (Hnotin : get before c = None).
    { apply get_None_notin. unfold wf, keys in Hwf. rewrite map_app in Hwf.
      apply NoDup_remove_2 in Hwf. rewrite app_nil_r in Hwf. exact Hwf. }
    pose proof (for_each_rel
      (fun stA stB : Locals =>
         key stA = key stB /\ cache stA = cache stB /\
         client_name stA = Some c /\ client_name stB = Some c /\
         wf (_zs stA) /\ wf (_zs stB) /\
         (forall d, last (map Some (keys (_zs stA))) d = Some c) /\
         (forall d, last (map Some (keys (_zs stB))) d = Some c) /\
         get (_zs stA) c = get (_zs stB) c)
      (layer_body self ps ts) (layer_body self ps ts)
      (fun a b x => layer_body_last_client self ps ts c a b x)
      (enumerate (items ps))) as Hrel.
    match goal with
    | |- bind (for_each _ _ ?a) _ = bind (for_each _ _ ?b) _ =>
        specialize (Hrel a b)
    end.
    cbn [key cache client_name _zs] in Hrel.
    assert (Hlast : forall d : option string,
              last (map Some (keys (before ++ [(c, z)]))) d = Some c).
    { intros d. unfold keys. rewrite map_app, map_app. cbn [map fst].
      apply last_last. }
    match type of Hrel with
    | ?P -> _ => assert (HP : P)
    end.
    { split; [reflexivity|]. split; [reflexivity|].
      split; [apply Hlast|]. split; [reflexivity|].
      split.
      { unfold wf. rewrite (keys_map_values (fun t => B_tile t S)). exact Hwf. }
      split.
      { unfold wf. simpl. constructor; [intros []|constructor]. }
      split.
      { intros d. rewrite (keys_map_values (fun t => B_tile t S)). apply Hlast. }
      split.
      { intros d. reflexivity. }
      rewrite (get_map_values (fun t => B_tile t S)), get_app, Hnotin.
      simpl. now rewrite String.eqb_refl. }
    specialize (Hrel HP).
    destruct (for_each (layer_body self ps ts) (enumerate (items ps)) _) as [a|e];
    destruct (for_each (layer_body self ps ts) (enumerate (items ps)) _) as [b|e'];
      try contradiction.
    + destruct Hrel as [Hk [Hc _]]. simpl. now rewrite Hk, Hc.
    + simpl. now rewrite Hrel.
  - unfold sample_posterior.
    rewrite (tile_loop_raises S (before ++ [(c, z)]) empty None).
    2:{ exists c, z. split; [|exact Hz]. apply in_or_app. right. now left. }
    rewrite (tile_loop_raises S [(c, z)] empty None).
    2:{ exists c, z. split; [now left | exact Hz]. }
    reflexivity.
Qed.

End LastClient.

(** ** The view a client trains against, round by round *)

Section RoundViews.

Import Optimization Experiment.

Variable Data : Type.

Local Abbreviation Fac := (Factor Data).
Local Abbreviation Ten := (TensorV Data).
Local Abbreviation Cli := (Client Data).

Local Abbreviation first_body c :=
  (fun (acc : dict (dict Fac)) (it : string * dict Fac) =>
     v <- getitem (t c) (fst it) ;;
     Ok (set (fst it) [(name c, v)] acc)).

Lemma first_round_loop (c : Cli) :
  forall (fts acc : dict (dict Fac)),
    NoDup (keys acc ++ keys fts) ->
    (forall l, In l (keys fts) -> get (t c) l <> None) ->
    exists v,
      for_each (first_body c) (items fts) acc = Ok v /\
      keys v = keys acc ++ keys fts /\
      forall l,
        get v l =
          match get fts l with
          | Some _ => option_map (fun f => [(name c, f)]) (get (t c) l)
          | None => get acc l
          end.
Proof.
  induction fts as [|[l0 lt0] fts IH]; intros acc Hnd Hlive.
  - exists acc. simpl. rewrite app_nil_r. auto.
  - cbn [items for_each fst]. unfold getitem.
    destruct (get (t c) l0) as [f|] eqn:Ef;
      [|exfalso; apply (Hlive l0); [now left | exact Ef]].
    rewrite !bind_ret_l.
    assert (Hfresh : ~ In l0 (keys acc)).
    { simpl in Hnd. apply NoDup_remove_2 in Hnd. intros Hin. apply Hnd.
      apply in_or_app. now left. }
    rewrite set_fresh by exact Hfresh.
    destruct (IH (acc ++ [(l0, [(name c, f)])])) as [v [Hr [Hk Hg]]].
    + unfold keys in *. rewrite map_app, <- app_assoc. exact Hnd.
    + intros l Hl. apply Hlive. now right.
    + exists v. split; [exact Hr|]. split.
      * rewrite Hk. unfold keys. rewrite map_app, <- app_assoc. reflexivity.
      * intros l. rewrite Hg. cbn [get].
        destruct (String.eqb l0 l) eqn:E.
        -- apply String.eqb_eq in E. subst l.
           assert (Hn : get fts l0 = None).
           { apply get_None_notin. simpl in Hnd. apply NoDup_remove_2 in Hnd.
             intros Hin. apply Hnd. apply in_or_app. now right. }
           rewrite Hn, get_app.
           rewrite (proj2 (get_None_notin acc l0) Hfresh).
           simpl. now rewrite String.eqb_refl, Ef.
        -- destruct (get fts l); [reflexivity|].
           rewrite get_app. destruct (get acc l); [reflexivity|].
           simpl. now rewrite E.
Qed.

Lemma first_round_loop_raises (c : Cli) :
  forall (fts acc : dict (dict Fac)),
    (exists l, In l (keys fts) /\ get (t c) l = None) ->
    exists l,
      for_each (first_body c) (items fts) acc = Raise (KeyError l) /\
      In l (keys fts) /\ get (t c) l = None.
Proof.
  induction fts as [|[l0 lt0] fts IH]; intros acc [l [Hin Hn]]; [destruct Hin|].
  cbn [items for_each fst]. unfold getitem.
  destruct (get (t c) l0) as [f|] eqn:Ef.
  - rewrite !bind_ret_l.
    destruct (IH (set l0 [(name c, f)] acc)) as [l' [Hr [Hl' Hn']]].
    + exists l. split; [|exact Hn]. simpl in Hin.
      destruct Hin as [<-|Hin]; [congruence | exact Hin].
    + exists l'. split; [exact Hr|]. split; [now right | exact Hn'].
  - exists l0. split; [reflexivity|]. split; [now left | exact Ef].
Qed.

(** X21: the first-round view [{k: {name: t[k]} for k in frozen_ts}]
    is built exactly when the client owns a factor for every layer of the
    snapshot (the [KeyError] of a layer it lacks is raised otherwise); it
    then has the snapshot's layers, in the snapshot's order, and under
    each the client's own live factor and no other client's. *)
Theorem first_round_view_own_factors_only (fts : dict (dict Fac)) (c : Cli) :
  wf fts ->
  (returns (first_round_ts fts c) <->
   forall l, In l (keys fts) -> get (t c) l <> None) /\
  ((exists l, In l (keys fts) /\ get (t c) l = None) ->
   exists l, first_round_ts fts c = Raise (KeyError l) /\
             In l (keys fts) /\ get (t c) l = None) /\
  (forall v,
     first_round_ts fts c = Ok v ->
     keys v = keys fts /\
     forall l n,
       get2 v l n =
         match get fts l with
         | Some _ => if String.eqb n (name c) then get (t c) l else None
         | None => None
         end).
Proof.
  intros Hwf. unfold first_round_ts.
  assert (Hlive : returns (for_each (first_body c) (items fts) empty) ->
                  forall l, In l (keys fts) -> get (t c) l <> None).
  { intros [v Hv] l Hl Hn.
    destruct (first_round_loop_raises c fts empty (ex_intro _ l (conj Hl Hn)))
      as [l' [Hr _]].
    rewrite Hr in Hv. discriminate. }
  split; [|split].
  - split; [exact Hlive|].
    intros H. destruct (first_round_loop c fts empty Hwf H) as [v [Hr _]].
    eexists. exact Hr.
  - apply first_round_loop_raises.
  - intros v Hv.
    destruct (first_round_loop c fts empty Hwf
                (Hlive (ex_intro _ v Hv))) as [v' [Hr [Hk Hg]]].
    pose proof (eq_trans (eq_sym Hv) Hr) as Heq. injection Heq as <-.
    split; [exact Hk|].
    intros l n. unfold get2. rewrite Hg.
    destruct (get fts l) as [layer|]; [|reflexivity].
    destruct (get (t c) l) as [f|]; simpl.
    + rewrite String.eqb_sym. now destruct (String.eqb n (name c)).
    + now destruct (String.eqb n (name c)).
Qed.

Lemma collect_frozen_vp_ok_live (fts : dict (dict Fac)) (fzs : option (dict Ten))
    (c : Cli) r :
  wf2 fts ->
  collect_frozen_vp fts fzs c = Ok r ->
  forall l, get2 fts l (name c) <> None -> get (t c) l <> None.
Proof.
  intros Hwf Hr l Hl Hn.
  destruct (frozen_layer_loop_raises Data c fts empty Hwf
              (ex_intro _ l (conj Hl Hn))) as [l' [Hraise _]].
  unfold collect_frozen_vp in Hr.
  apply bind_Ok in Hr. destruct Hr as [zs' [_ Hr]].
  rewrite Hraise in Hr. discriminate.
Qed.

(** X22: whatever the round, the view the main loop hands to a client
    holds the client's own live factors and inducing inputs, not copies:
    at every layer where the snapshot lists the client the view has the
    very factor the client owns, and the inducing view of a client that
    has inducing inputs starts with the client's own [z].  Any other client's factor in the view comes from the
    snapshot, is detached, and appears in no view of round 0. *)
Theorem communicated_view_own_live_others_frozen
    (iter : Z) (fts : dict (dict Fac)) (fzs : dict Ten) (c : Cli) vts vzs :
  wf2 fts -> wf fzs ->
  communicated_view iter fts fzs c = Ok (vts, vzs) ->
  (forall l, get2 fts l (name c) <> None ->
             get (t c) l <> None /\ get2 vts l (name c) = get (t c) l) /\
  (forall cz, z c = Some cz -> exists rest, vzs = (name c, cz) :: rest) /\
  (forall l m f,
     get2 vts l m = Some f -> m <> name c ->
     iter <> 0 /\ detached f /\
     exists f0, get2 fts l m = Some f0 /\ same_values f f0).
Proof.
  intros Hwf Hwz H. unfold communicated_view in H.
  destruct (iter =? 0) eqn:Ei.
  - apply bind_Ok in H. destruct H as [ts' [Hts H]].
    apply bind_Ok in H. destruct H as [zs' [Hzs H]].
    injection H as <- <-.
    assert (Hlive : forall l, In l (keys fts) -> get (t c) l <> None).
    { intros l Hl Hn.
      destruct (first_round_loop_raises c fts empty (ex_intro _ l (conj Hl Hn)))
        as [l' [Hr _]].
      pose proof (eq_trans (eq_sym Hts) Hr) as Heq. discriminate Heq. }
    destruct (first_round_loop c fts empty (proj1 Hwf) Hlive) as [v' [Hr [Hk Hg]]].
    pose proof (eq_trans (eq_sym Hts) Hr) as Heq. injection Heq as <-.
    split; [|split].
    + intros l Hl. unfold get2 in Hl |- *. rewrite Hg.
      destruct (get fts l) as [layer|] eqn:El; [|congruence].
      assert (Hin : In l (keys fts)).
      { destruct (get_None_notin fts l) as [_ Hc].
        destruct (in_dec string_dec l (keys fts)) as [Hi|Hi]; [exact Hi|].
        rewrite (Hc Hi) in El. discriminate. }
      split; [now apply Hlive|].
      destruct (get (t c) l) as [f|]; simpl; [|reflexivity].
      now rewrite String.eqb_refl.
    + unfold first_round_zs in Hzs. intros cz Hcz. rewrite Hcz in Hzs.
      injection Hzs as <-. exists []. reflexivity.
    + intros l m f Hf Hne. exfalso. unfold get2 in Hf. rewrite Hg in Hf.
      destruct (get fts l); [|discriminate].
      destruct (get (t c) l); simpl in Hf; [|discriminate].
      destruct (String.eqb (name c) m) eqn:E; [|discriminate].
      apply String.eqb_eq in E. congruence.
  - pose proof (collect_frozen_vp_ok_live fts (Some fzs) c (vts, vzs) Hwf H) as Hlive.
    destruct (collect_frozen_vp_spec Data fts fzs c Hwf Hwz Hlive)
      as [vts' [vzs' [Hr [Hg Hz]]]].
    rewrite H in Hr. injection Hr as <- <-.
    split; [|split].
    + intros l Hl. split; [now apply Hlive|]. rewrite Hg.
      destruct (get2 fts l (name c)); [|congruence].
      now rewrite String.eqb_refl.
    + intros cz0 Hcz. unfold collect_frozen_vp in H.
      destruct c as [n cz tc | n tc]; [|discriminate].
      simpl in Hcz. injection Hcz as ->.
      rewrite bind_ret_l in H. apply bind_Ok in H. destruct H as [ts' [_ H]].
      injection H as _ <-.
      rewrite (frozen_zs_fold Data (GI_Client n cz0 tc) fzs [(n, cz0)] Hwz).
      * cbn [app z name]. eauto.
      * intros k _ Hne [Hk|[]]. simpl in Hk. subst k. apply Hne. reflexivity.
    + intros l m f Hf Hne. rewrite Hg in Hf.
      destruct (get2 fts l m) as [f0|]; [|discriminate].
      apply String.eqb_neq in Hne. rewrite Hne in Hf. injection Hf as <-.
      split; [now apply Z.eqb_neq|]. split; [apply copy_detached|].
      exists f0. split; [reflexivity | apply copy_same_values].
Qed.

End RoundViews.

(** ** A forward pass after a sampling pass *)

Section CallAfterSampling.

Import Gibnn GibnnMore.

Context {num : Numeric}.

(** X23: calling the object after a [sample_posterior] on a fresh
    object sends the input through exactly the weights that pass drew, in
    the order of [ps], with the nonlinearity between layers and none after
    the last; it never answers [None].  An input that is not
    two-dimensional is used as it is, the cache is not asked for a sample
    count; a two-dimensional one is tiled to the sample count of the cached
    ['layer0'] weights, and the call raises [KeyError] when no layer of
    [ps] has that name. *)
Theorem call_after_sample_posterior
    (self : GIBNN) key0 ps ts zs S k c self' (x : Tensor) :
  _cache self = Some empty -> wf ps -> wf zs ->
  sample_posterior self key0 ps ts zs S = Ok (k, c, self') ->
  exists qs ws d,
    draw_all key0 qs = (k, ws) /\ List.length qs = List.length ps /\
    c = Some d /\ keys d = keys ps /\ weights d = ws /\
    (ndim x <> 2 ->
     call self' x = Ok (Some (manual_chain (nonlinearity self) ws x))) /\
    (ndim x = 2 -> forall l0, get d "layer0" = Some l0 ->
     call self' x =
       Ok (Some (manual_chain (nonlinearity self) ws (B_tile x (shape0 (w l0)))))) /\
    (ndim x = 2 -> ~ In "layer0" (keys ps) ->
     call self' x = Raise (KeyError "layer0")).
Proof.
  unfold sample_posterior. intros Hc Hwp Hwz H.
  apply bind_Ok in H. destruct H as [[zs0 cn0] [Ht H]].
  apply bind_Ok in H. destruct H as [st [Hloop H]].
  injection H as <- <- <-.
  apply tile_loop_inv in Ht; [|exact Hwz]. unfold empty in Ht. rewrite app_nil_l in Ht.
  destruct (layer_loop_draws self ps ts ps 0 _ st empty Hloop Hc)
    as [qs [ws [d' [Hl [Hcd [Hkd [Hd [Hw [Hkl _]]]]]]]]].
  - exact Hwp.
  - unfold wf. cbn [_zs]. rewrite Ht, (keys_map_values (fun z => B_tile z S)). exact Hwz.
  - simpl in Hd, Hw, Hkd. exists qs, ws, d'.
    split; [exact Hd|]. split; [exact Hl|]. split; [exact Hcd|].
    split; [exact Hkd|]. split; [exact Hw|].
    assert (Hp : forall x0, call (set_cache self (cache st)) x0 =
                   (x' <- lifted d' x0 ;;
                    Ok (Some (manual_chain (nonlinearity self) (weights d') x')))).
    { intros x0. unfold call.
      rewrite (propagate_chain (set_cache self (cache st)) d' x0); [reflexivity|].
      rewrite Hcd. reflexivity. }
    rewrite <- Hw. split; [|split].
    + intros Hx. rewrite Hp. unfold lifted.
      apply Z.eqb_neq in Hx. rewrite Hx. reflexivity.
    + intros Hx l0 Hl0. rewrite Hp. unfold lifted, getitem.
      apply Z.eqb_eq in Hx. rewrite Hx, Hl0. reflexivity.
    + intros Hx Hn. rewrite Hp. unfold lifted, getitem.
      apply Z.eqb_eq in Hx. rewrite Hx.
      rewrite (proj2 (get_None_notin d' "layer0")); [reflexivity|].
      now rewrite Hkd.
Qed.

End CallAfterSampling.

(** ** The further properties, run on the scenario *)

Lemma three_wf : wf ScenarioMore.three.
Proof. unfold wf. simpl. nodup_strings. Qed.

Lemma scenario_zs_wf : wf Scenario.zs.
Proof. unfold wf. simpl. nodup_strings. Qed.

Lemma scenario_zs_2d (c : string) (z : Sym.tensor) :
  In (c, z) Scenario.zs -> Sym.rank_of z = 2.
Proof. intros [[= <- <-]|[[= <- <-]|[]]]; reflexivity. Qed.

Lemma scenario_clients_wf : Optimization.wf_clients Scenario.clients.
Proof.
  split; [unfold wf; simpl; nodup_strings|].
  intros k c [[= <- <-]|[[= <- <-]|[]]]; unfold wf; simpl; nodup_strings.
Qed.

Lemma scenario_frozen_zs_wf : wf Scenario.frozen_zs.
Proof. unfold wf. simpl. nodup_strings. Qed.

Lemma sequential_turn_from_any_cursor_witness :
  exists s',
    Server.sequential_rounds 3 ScenarioMore.seq_at_1 =
      Ok ([[11]; [12]; [10]], s') /\
    Server._idx s' = 1 /\
    Server.communications (Server.base s') = 6.
Proof.
  destruct (sequential_turn_from_any_cursor Z unit Z ScenarioMore.seq_at_1 1
              three_wf eq_refl ltac:(simpl; lia)) as [s' [H [Hi [Hc _]]]].
  exists s'. split; [exact H|]. split; [exact Hi | exact Hc].
Defined.

Lemma sequential_next_returns_iff_witness :
  returns (Server.SequentialServer_next ScenarioMore.seq_at_1).
Proof.
  destruct (sequential_next_returns_iff Z unit Z ScenarioMore.seq_at_1 three_wf)
    as [_ H].
  apply (H ltac:(simpl; lia)). reflexivity.
Defined.

Lemma new_server_schedule_witness :
  exists s',
    ServerMore.new_rounds 5 (ServerMore.NewServer_init Z ScenarioMore.three tt 7) =
      Ok ([[10]; [11]; [12]; [10; 11; 12]; [10; 11; 12]], s') /\
    Server.communications (ServerMore.nbase s') = 6 /\
    ServerMore._global_iter s' = 3.
Proof.
  destruct (new_server_schedule Z unit Z ScenarioMore.three tt 7 5 three_wf)
    as [_ [s' [H [Hc [Hg _]]]]].
  exists s'. split; [exact H|]. split; [exact Hc | exact Hg].
Defined.

Lemma new_server_starts_sequential_witness :
  exists r s1 s2,
    Server.sequential_rounds 2
      (Server.SequentialServer_init Z ScenarioMore.three tt 4) = Ok (r, s1) /\
    ServerMore.new_rounds 2
      (ServerMore.NewServer_init Z ScenarioMore.three tt 9) = Ok (r, s2) /\
    Server.communications (Server.base s1) =
      Server.communications (ServerMore.nbase s2) /\
    Server._idx s1 = ServerMore.n_idx s2.
Proof.
  apply (new_server_starts_sequential Z unit Z ScenarioMore.three tt 4 9 2 three_wf).
  simpl. lia.
Defined.

Lemma sequential_and_synchronous_totals_witness :
  exists n1 n2 r1 q1,
    Server.max_iters
      (Server.base (Server.SequentialServer_init Z ScenarioMore.three tt 2)) =
      Some (Z.of_nat n1) /\
    Server.max_iters (Server.SynchronousServer_init Z ScenarioMore.three tt 2) =
      Some (Z.of_nat n2) /\
    Server.sequential_rounds n1
      (Server.SequentialServer_init Z ScenarioMore.three tt 2) = Ok (r1, q1) /\
    Server.communications (Server.base q1) =
      Server.communications
        (snd (Server.synchronous_rounds n2
                (Server.SynchronousServer_init Z ScenarioMore.three tt 2))) /\
    count_occ Z.eq_dec (List.concat r1) 11 =
      count_occ Z.eq_dec
        (List.concat
           (fst (Server.synchronous_rounds n2
                   (Server.SynchronousServer_init Z ScenarioMore.three tt 2)))) 11.
Proof.
  destruct (sequential_and_synchronous_totals Z unit Z ScenarioMore.three tt 2
              three_wf ltac:(discriminate))
    as [n1 [n2 [r1 [q1 [H1 [H2 [H3 [H4 H5]]]]]]]].
  exists n1, n2, r1, q1. split; [exact H1|]. split; [exact H2|].
  split; [exact H3|]. split; [exact H4|]. apply H5.
Defined.

Lemma scenario_train_wf : wf ScenarioMore.train.
Proof. unfold wf. simpl. nodup_strings. Qed.

Lemma scenario_test_wf : wf ScenarioMore.test.
Proof. unfold wf. simpl. nodup_strings. Qed.

Lemma update_optimized_clients_accumulates_witness :
  In "client1"
    (Server.optimized_clients
       (ServerMore.update_optimized_clients ScenarioMore.name_of
          ScenarioMore.srv [11])) /\
  ServerMore.update_optimized_clients ScenarioMore.name_of
    (ServerMore.update_optimized_clients ScenarioMore.name_of
       ScenarioMore.srv [11]) [11] =
  ServerMore.update_optimized_clients ScenarioMore.name_of ScenarioMore.srv [11].
Proof.
  destruct (update_optimized_clients_accumulates Z unit Z ScenarioMore.name_of
              ScenarioMore.srv [11]) as [_ [_ [H [_ [H2 _]]]]].
  split; [|exact H2].
  apply (H ltac:(simpl; discriminate) 11). now left.
Defined.

Lemma evaluate_performance_appends_one_row_witness :
  exists s',
    ServerMore.evaluate_performance (fun v : Z => v) ScenarioMore.srv
      ScenarioMore.train ScenarioMore.test "acc" = Ok s' /\
    get (Server.log s') "communications" = Some [0] /\
    get (Server.log s') "train_acc" = Some [90] /\
    get (Server.log s') "test_mll" = Some [-6].
Proof.
  destruct (evaluate_performance_appends_one_row Z unit Z (fun v : Z => v)
              ScenarioMore.srv ScenarioMore.train ScenarioMore.test "acc"
              scenario_train_wf scenario_test_wf) as [[_ Hret] Hrow].
  destruct Hret as [s' Hs']; [repeat split; discriminate|].
  exists s'. split; [exact Hs'|].
  destruct (Hrow s' Hs') as [Hc [_ [Ht [Hte _]]]].
  split; [exact Hc|]. split.
  - exact (Ht "acc" 90 eq_refl).
  - exact (Hte "mll" (-6) eq_refl).
Defined.

Lemma evaluate_performance_keeps_log_rectangular_witness :
  exists s',
    ServerMore.evaluate_performance (fun v : Z => v) ScenarioMore.srv
      ScenarioMore.train ScenarioMore.test "acc" = Ok s' /\
    rectangular 1 (logged_keys ScenarioMore.train ScenarioMore.test)
      (Server.log s').
Proof.
  destruct (ServerMore.evaluate_performance (fun v : Z => v) ScenarioMore.srv
              ScenarioMore.train ScenarioMore.test "acc") as [s'|] eqn:Hs;
    [|vm_compute in Hs; discriminate Hs].
  exists s'. split; [reflexivity|].
  apply (evaluate_performance_keeps_log_rectangular Z unit Z (fun v : Z => v)
           ScenarioMore.srv s' ScenarioMore.train ScenarioMore.test "acc" 0
           scenario_train_wf scenario_test_wf Hs).
  split.
  - intros k _. reflexivity.
  - intros k [].
Defined.

Lemma update_log_appends_witness :
  get (Server.log (ServerMore.update_log ScenarioMore.srv ScenarioMore.train)) "mll"
    = Some [-5] /\
  get (Server.log (ServerMore.update_log ScenarioMore.srv ScenarioMore.train)) "iteration"
    = None.
Proof.
  destruct (update_log_appends Z unit Z ScenarioMore.srv ScenarioMore.train
              scenario_train_wf) as [H _].
  split; [exact (H "mll") | exact (H "iteration")].
Defined.

Lemma minibatch_windows_sweep_witness :
  (exists ws,
      MinibatchMore.windows_from 2 5 0 3 = Ok ws /\
      List.concat ws = [0; 1; 2; 3; 4; 0]) /\
  (exists ws,
      MinibatchMore.windows_from 2 5 0 5 = Ok ws /\
      count_occ Z.eq_dec (List.concat ws) 3 = 2%nat).
Proof.
  split.
  - destruct (minibatch_windows_sweep 5 2 3 ltac:(lia)) as [[ws [H [_ Hc]]] _].
    exists ws. split; [exact H | exact Hc].
  - destruct (minibatch_windows_sweep 5 2 3 ltac:(lia)) as [_ [ws [H Hc]]].
    exists ws. split; [exact H|]. apply Hc. lia.
Defined.

Lemma minibatch_window_nodup_witness :
  exists l,
    Minibatch.inds (Minibatch.batch_size 5 2 100) 2 5 = Ok l /\ NoDup l.
Proof.
  destruct (minibatch_window_nodup 5 2 100 2 ltac:(lia)
              ltac:(unfold Minibatch.batch_size; lia)) as [l [H [Hn _]]].
  exists l. split; [exact H | exact Hn].
Defined.

Lemma sample_posterior_draws_once_per_layer_witness :
  exists k d self' qs,
    Gibnn.sample_posterior Scenario.fresh (Sym.RSeed 0)
      Scenario.ps Scenario.ts Scenario.zs 4 = Ok (k, Some d, self') /\
    List.length qs = 2%nat /\
    keys d = ["layer0"; "layer1"] /\
    @GibnnMore.draw_all Sym.numeric (Sym.RSeed 0) qs = (k, Gibnn.weights d).
Proof.
  destruct (Gibnn.sample_posterior Scenario.fresh (Sym.RSeed 0)
              Scenario.ps Scenario.ts Scenario.zs 4) as [[[k c] self']|] eqn:Hs;
    [|vm_compute in Hs; discriminate Hs].
  destruct (@sample_posterior_draws_once_per_layer Sym.numeric
              Scenario.fresh (Sym.RSeed 0) Scenario.ps Scenario.ts Scenario.zs 4
              k c self' eq_refl scenario_ps_wf scenario_zs_wf Hs)
    as [qs [d [Hc [Hl [Hk [Hd _]]]]]].
  subst c. exists k, d, self', qs.
  split; [reflexivity|]. split; [exact Hl|]. split; [exact Hk | exact Hd].
Defined.

Lemma inducing_inputs_follow_cached_weights_witness :
  exists st d,
    @GibnnMore.after_layers Sym.numeric Scenario.fresh (Sym.RSeed 0)
      Scenario.ps Scenario.ts Scenario.zs 4 1 = Ok st /\
    Gibnn.cache st = Some d /\
    keys d = ["layer0"] /\
    get (Gibnn._zs st) "client0" =
      Some (@GibnnMore.chain_act Sym.numeric Sym.TAct (Gibnn.weights d)
              (Sym.TTile (Sym.TInput "z0" 2 3) 4)).
Proof.
  destruct (@GibnnMore.after_layers Sym.numeric Scenario.fresh (Sym.RSeed 0)
              Scenario.ps Scenario.ts Scenario.zs 4 1) as [st|] eqn:Hs;
    [|vm_compute in Hs; discriminate Hs].
  destruct (@inducing_inputs_follow_cached_weights Sym.numeric
              Scenario.fresh (Sym.RSeed 0) Scenario.ps Scenario.ts Scenario.zs 4
              1 st eq_refl scenario_ps_wf scenario_zs_wf ltac:(simpl; lia) Hs)
    as [d [Hc [Hk Hz]]].
  exists st, d. split; [reflexivity|]. split; [exact Hc|]. split; [exact Hk|].
  apply (Hz "client0" (Sym.TInput "z0" 2 3)). reflexivity.
Defined.

Lemma sample_posterior_raises_witness :
  Gibnn.sample_posterior Scenario.fresh (Sym.RSeed 0)
    Scenario.ps Scenario.ts ScenarioMore.zs_bad 4 = Raise AssertionError /\
  Gibnn.sample_posterior Scenario.fresh (Sym.RSeed 0)
    Scenario.ps [] Scenario.zs 4 = Raise (KeyError "layer0") /\
  Gibnn.sample_posterior Scenario.fresh (Sym.RSeed 0)
    Scenario.ps Scenario.ts [] 4 = Raise (NameError "client_name").
Proof.
  split; [|split].
  - destruct (@sample_posterior_raises Sym.numeric Scenario.fresh (Sym.RSeed 0)
                Scenario.ps Scenario.ts ScenarioMore.zs_bad 4) as [H _].
    apply H. exists "client1", (Sym.TInput "z1" 1 3).
    split; [right; now left | discriminate].
  - destruct (@sample_posterior_raises Sym.numeric Scenario.fresh (Sym.RSeed 0)
                Scenario.ps [] Scenario.zs 4) as [_ [H _]].
    apply (H "layer0" (Sym.NPrior "p0") [("layer1", Sym.NPrior "p1")] eq_refl
             scenario_zs_wf scenario_zs_2d eq_refl).
  - destruct (@sample_posterior_raises Sym.numeric Scenario.fresh (Sym.RSeed 0)
                Scenario.ps Scenario.ts [] 4) as [_ [_ H]].
    apply (H "layer0" (Sym.NPrior "p0") [("layer1", Sym.NPrior "p1")]
             ("client0", "t00") [("client1", "t01")] eq_refl eq_refl eq_refl).
Defined.

Lemma sample_posterior_from_priors_witness :
  exists k d self',
    Gibnn.sample_posterior Scenario.fresh (Sym.RSeed 0)
      Scenario.ps ScenarioMore.ts0 Scenario.zs 4 = Ok (k, Some d, self') /\
    @GibnnMore.draw_all Sym.numeric (Sym.RSeed 0) [Sym.NPrior "p0"; Sym.NPrior "p1"] =
      (k, Gibnn.weights d).
Proof.
  destruct (@sample_posterior_from_priors Sym.numeric Scenario.fresh (Sym.RSeed 0)
              Scenario.ps ScenarioMore.ts0 Scenario.zs 4 eq_refl
              scenario_ps_wf scenario_zs_wf scenario_zs_2d)
    as [k [d [self' [Hs [Hd _]]]]].
  - intros l [<-|[<-|[]]]; reflexivity.
  - exists k, d, self'. split; [exact Hs | exact Hd].
Defined.

Lemma sample_posterior_keeps_stale_layers_witness :
  exists k d' self',
    Gibnn.sample_posterior ScenarioMore.stale (Sym.RSeed 0)
      Scenario.ps Scenario.ts Scenario.zs 4 = Ok (k, Some d', self') /\
    get d' "old" = Some ScenarioMore.old_layer /\
    Gibnn.propagate self' ScenarioMore.x3 =
      Ok (Some (@Gibnn.manual_chain Sym.numeric Sym.TAct (Gibnn.weights d') ScenarioMore.x3)).
Proof.
  destruct (Gibnn.sample_posterior ScenarioMore.stale (Sym.RSeed 0)
              Scenario.ps Scenario.ts Scenario.zs 4) as [[[k c] self']|] eqn:Hs;
    [|vm_compute in Hs; discriminate Hs].
  destruct (@sample_posterior_keeps_stale_layers Sym.numeric
              ScenarioMore.stale (Sym.RSeed 0) Scenario.ps Scenario.ts Scenario.zs 4
              k c self' [("old", ScenarioMore.old_layer)] eq_refl Hs)
    as [d' [extra [Hc [_ [_ [_ [Hold Hp]]]]]]].
  subst c. exists k, d', self'. split; [reflexivity|]. split.
  - rewrite Hold; [reflexivity|]. simpl. intuition discriminate.
  - apply Hp. discriminate.
Defined.

Lemma sample_posterior_reads_last_client_only_witness :
  Gibnn.sample_posterior Scenario.fresh (Sym.RSeed 0)
    Scenario.ps Scenario.ts Scenario.zs 4 =
  Gibnn.sample_posterior Scenario.fresh (Sym.RSeed 0)
    Scenario.ps Scenario.ts [("client1", Sym.TInput "z1" 2 3)] 4.
Proof.
  apply (@sample_posterior_reads_last_client_only Sym.numeric
           Scenario.fresh (Sym.RSeed 0) Scenario.ps Scenario.ts
           [("client0", Sym.TInput "z0" 2 3)] "client1" (Sym.TInput "z1" 2 3) 4).
  - exact scenario_zs_wf.
  - intros k zk [[= <- <-]|[]]. reflexivity.
Defined.

Lemma call_after_sample_posterior_witness :
  exists k d self',
    Gibnn.sample_posterior Scenario.fresh (Sym.RSeed 0)
      Scenario.ps Scenario.ts Scenario.zs 4 = Ok (k, Some d, self') /\
    @GibnnMore.call Sym.numeric self' ScenarioMore.x3 =
      Ok (Some (@Gibnn.manual_chain Sym.numeric Sym.TAct (Gibnn.weights d) ScenarioMore.x3)) /\
    exists l0,
      get d "layer0" = Some l0 /\
      @GibnnMore.call Sym.numeric self' Scenario.x =
        Ok (Some (@Gibnn.manual_chain Sym.numeric Sym.TAct (Gibnn.weights d)
                    (Sym.TTile Scenario.x (Sym.dim0_of (Gibnn.w l0))))).
Proof.
  destruct (Gibnn.sample_posterior Scenario.fresh (Sym.RSeed 0)
              Scenario.ps Scenario.ts Scenario.zs 4) as [[[k c] self']|] eqn:Hs;
    [|vm_compute in Hs; discriminate Hs].
  destruct (@call_after_sample_posterior Sym.numeric
              Scenario.fresh (Sym.RSeed 0) Scenario.ps Scenario.ts Scenario.zs 4
              k c self' ScenarioMore.x3 eq_refl scenario_ps_wf scenario_zs_wf Hs)
    as [qs [ws [d [_ [_ [Hc [_ [Hw [H3 _]]]]]]]]].
  destruct (@call_after_sample_posterior Sym.numeric
              Scenario.fresh (Sym.RSeed 0) Scenario.ps Scenario.ts Scenario.zs 4
              k c self' Scenario.x eq_refl scenario_ps_wf scenario_zs_wf Hs)
    as [qs2 [ws2 [d2 [_ [_ [Hc2 [Hk2 [Hw2 [_ [H2 _]]]]]]]]]].
  subst c. injection Hc2 as <-. subst ws ws2.
  exists k, d, self'. split; [reflexivity|]. split.
  - apply H3. discriminate.
  - destruct (get d "layer0") as [l0|] eqn:El.
    + exists l0. split; [reflexivity|]. apply (H2 eq_refl l0 eq_refl).
    + exfalso. apply get_None_notin in El. apply El. rewrite Hk2. now left.
Defined.

Lemma collect_vp_snapshot_witness :
  exists fts fzs,
    Optimization.collect_vp Scenario.clients = Ok (fts, fzs) /\
    get2 fts "layer0" "client1" = Some (Scenario.frozen 210) /\
    Optimization.detached (Scenario.frozen 210) /\
    get fzs "client0" = Some (Optimization.detach_clone (Scenario.live 100 1)).
Proof.
  destruct (collect_vp_snapshot Z Scenario.clients) as [[[fts fzs] Hr] H].
  destruct (H scenario_clients_wf fts fzs Hr) as [_ [_ [Hg [Hd Hz]]]].
  assert (Hf : get2 fts "layer0" "client1" = Some (Scenario.frozen 210)).
  { apply Hg. exists Scenario.client1, (Scenario.factor 210 7).
    split; [reflexivity|]. split; reflexivity. }
  exists fts, fzs. split; [exact Hr|]. split; [exact Hf|]. split.
  - exact (Hd _ _ _ Hf).
  - apply Hz. exists Scenario.client0, (Scenario.live 100 1).
    split; [reflexivity|]. split; reflexivity.
Defined.

Lemma scenario_snapshot_layers (l : string) :
  get2 Scenario.frozen_ts l "client0" <> None ->
  l = "layer0" \/ l = "layer1".
Proof.
  unfold Scenario.frozen_ts. rewrite !(get2_cons Z).
  destruct (String.eqb "layer0" l) eqn:E0; [apply String.eqb_eq in E0; auto|].
  destruct (String.eqb "layer1" l) eqn:E1; [apply String.eqb_eq in E1; auto|].
  intros H. exfalso. apply H. reflexivity.
Qed.

Lemma collect_frozen_vp_returns_iff_witness :
  returns (Optimization.collect_frozen_vp Scenario.frozen_ts
             (Some Scenario.frozen_zs) Scenario.client0) /\
  returns (Optimization.collect_frozen_vp Scenario.frozen_ts None
             ScenarioMore.client_mf) /\
  Optimization.collect_frozen_vp Scenario.frozen_ts None Scenario.client0 =
    Raise AttributeError /\
  exists l,
    Optimization.collect_frozen_vp Scenario.frozen_ts (Some Scenario.frozen_zs)
      ScenarioMore.client_short = Raise (KeyError l) /\
    get (Optimization.t ScenarioMore.client_short) l = None.
Proof.
  split; [|split; [|split]].
  - destruct (collect_frozen_vp_returns_iff Z Scenario.frozen_ts
                (Some Scenario.frozen_zs) Scenario.client0 frozen_ts_wf2)
      as [[_ H] _].
    apply H. split; [discriminate|].
    intros l Hl. destruct (scenario_snapshot_layers l Hl) as [->| ->]; discriminate.
  - destruct (collect_frozen_vp_returns_iff Z Scenario.frozen_ts
                None ScenarioMore.client_mf frozen_ts_wf2) as [[_ H] _].
    apply H. split; [intros Hz; exfalso; apply Hz; reflexivity|].
    intros l Hl. destruct (scenario_snapshot_layers l Hl) as [->| ->]; discriminate.
  - destruct (collect_frozen_vp_returns_iff Z Scenario.frozen_ts
                None Scenario.client0 frozen_ts_wf2) as [_ [H _]].
    apply H; [discriminate | reflexivity].
  - destruct (collect_frozen_vp_returns_iff Z Scenario.frozen_ts
                (Some Scenario.frozen_zs) ScenarioMore.client_short frozen_ts_wf2)
      as [_ [_ [H _]]].
    destruct H as [l [Hr [_ Hn]]].
    + discriminate.
    + exists "layer1". split; [discriminate | reflexivity].
    + exists l. split; [exact Hr | exact Hn].
Defined.

Lemma inducing_view_order_witness :
  exists vts vzs,
    Optimization.collect_frozen_vp Scenario.frozen_ts (Some Scenario.frozen_zs)
      Scenario.client0 = Ok (vts, vzs) /\
    keys vzs = ["client0"; "client1"] /\
    last (keys vzs) "client0" <> "client0".
Proof.
  destruct (Optimization.collect_frozen_vp Scenario.frozen_ts
              (Some Scenario.frozen_zs) Scenario.client0) as [[vts vzs]|] eqn:Hs;
    [|vm_compute in Hs; discriminate Hs].
  destruct (inducing_view_order Z Scenario.frozen_ts Scenario.frozen_zs
              "client0" (Scenario.live 100 1)
              [("layer0", Scenario.factor 110 2); ("layer1", Scenario.factor 120 4)]
              vts vzs scenario_frozen_zs_wf Hs) as [Hv [_ Hl]].
  exists vts, vzs. split; [reflexivity|]. split.
  - rewrite Hv. reflexivity.
  - apply Hl. exists "client1". split; [right; now left | discriminate].
Defined.

Lemma first_round_view_own_factors_only_witness :
  (exists v,
      Experiment.first_round_ts Scenario.frozen_ts Scenario.client0 = Ok v /\
      keys v = ["layer0"; "layer1"] /\
      get2 v "layer1" "client0" = Some (Scenario.factor 120 4) /\
      get2 v "layer1" "client1" = None) /\
  (exists l,
      Experiment.first_round_ts Scenario.frozen_ts ScenarioMore.client_short =
        Raise (KeyError l)).
Proof.
  split.
  - destruct (first_round_view_own_factors_only Z Scenario.frozen_ts
                Scenario.client0 (proj1 frozen_ts_wf2)) as [[_ Hret] [_ Hv]].
    destruct Hret as [v Hr].
    { intros l [<-|[<-|[]]]; discriminate. }
    destruct (Hv v Hr) as [Hk Hg].
    exists v. split; [exact Hr|]. split; [exact Hk|].
    split; [exact (Hg "layer1" "client0") | exact (Hg "layer1" "client1")].
  - destruct (first_round_view_own_factors_only Z Scenario.frozen_ts
                ScenarioMore.client_short (proj1 frozen_ts_wf2)) as [_ [Hraise _]].
    destruct Hraise as [l [Hr _]].
    + exists "layer1". split; [right; now left | reflexivity].
    + exists l. exact Hr.
Defined.

Lemma communicated_view_own_live_others_frozen_witness :
  exists vts vzs,
    Experiment.communicated_view 1 Scenario.frozen_ts Scenario.frozen_zs
      Scenario.client0 = Ok (vts, vzs) /\
    get2 vts "layer0" "client0" = Some (Scenario.factor 110 2) /\
    (exists rest, vzs = ("client0", Scenario.live 100 1) :: rest) /\
    (forall f, get2 vts "layer0" "client1" = Some f -> Optimization.detached f).
Proof.
  destruct (Experiment.communicated_view 1 Scenario.frozen_ts Scenario.frozen_zs
              Scenario.client0) as [[vts vzs]|] eqn:Hs;
    [|vm_compute in Hs; discriminate Hs].
  destruct (communicated_view_own_live_others_frozen Z 1 Scenario.frozen_ts
              Scenario.frozen_zs Scenario.client0 vts vzs
              frozen_ts_wf2 scenario_frozen_zs_wf Hs) as [Hown [Hz Hoth]].
  exists vts, vzs. split; [reflexivity|]. split; [|split].
  - destruct (Hown "layer0") as [_ H]; [discriminate | exact H].
  - apply (Hz (Scenario.live 100 1)). reflexivity.
  - intros f Hf. destruct (Hoth "layer0" "client1" f Hf) as [_ [Hd _]];
      [discriminate | exact Hd].
Defined.
